(** * Causal pattern mining over message traces

    A shallow embedding of the pattern matcher, the binary pattern
    decomposition search, the causality graph builder and the input
    readers of [gem5_traces/gem5-snoop/functions.py] and
    [gem5_traces/gem5-snoop/binary_patterns copy 2.py].

    Conventions.  Python integers are [Z]; list positions are [nat];
    Python lists are [list]; a [dict] is a [gmap]; a [set] is a [gset];
    a raised exception is the [Raise] branch of [result]; a [float]
    acceptance ratio is the exact rational [Qc] of the same expression.
    A list object that is shared between several owners lives in an
    explicit store.  The order in which Python enumerates a [set] is a
    parameter wherever the code iterates over one. *)

From Stdlib Require Import QArith Qcanon Ascii String.
From stdpp Require Import base option list sorting gmap strings.

Open Scope Z_scope.
Open Scope nat_scope.

(** ** Python exceptions *)

(** [RuntimeError] is what [torch.tensor] raises on an integer that does
    not fit the requested type. *)
Inductive exn := IndexError | ValueError | ZeroDivisionError | RuntimeError.

(** Outcome of a call: a value, a raised exception, or [OutOfFuel] when a
    recursion modelled with fuel was given too little of it. *)
Inductive result (A : Type) :=
  | Ok (a : A)
  | Raise (e : exn)
  | OutOfFuel.
Arguments Ok {A} a.
Arguments Raise {A} e.
Arguments OutOfFuel {A}.

(** Sequencing: an exception (or fuel exhaustion) in [r] propagates.
    Written [x ← r; k] below. *)
#[global] Instance result_bind : MBind result := λ A B k r,
  match r with
  | Ok a => k a
  | Raise e => Raise e
  | OutOfFuel => OutOfFuel
  end.

#[global] Instance result_fmap : FMap result := λ A B f r,
  match r with
  | Ok a => Ok (f a)
  | Raise e => Raise e
  | OutOfFuel => OutOfFuel
  end.

(** [a / b] on integers (true division), as an exact rational. *)
Definition py_truediv (a b : Z) : result Qc :=
  if bool_decide (b = 0%Z) then Raise ZeroDivisionError
  else Ok (Q2Qc (inject_Z a) / Q2Qc (inject_Z b))%Qc.

(** [[trace[i] for i in range(len(trace)) if i not in to_remove]] *)
Definition drop_positions (to_remove : gset nat) (trace : list Z) : list Z :=
  omap (λ i, if decide (i ∈ to_remove) then None else trace !! i)
       (seq 0 (length trace)).

(** ** The pattern matcher  (functions.py, remove_pattern_from_trace) *)

(** [buckets = {num: [] for num in pattern}] *)
Definition init_buckets (pattern : list Z) : gmap Z (list nat) :=
  foldl (λ b num, <[num := []]> b) ∅ pattern.

(** [for index, num in enumerate(trace): if num in buckets: buckets[num].append(index)] *)
Definition fill_step (b : gmap Z (list nat)) (e : nat * Z) : gmap Z (list nat) :=
  match b !! e.2 with
  | Some l => <[e.2 := l ++ [e.1]]> b
  | None => b
  end.

Definition fill_buckets (trace : list Z) (b : gmap Z (list nat)) : gmap Z (list nat) :=
  foldl fill_step b (imap pair trace).

(** The inner [while]: starting at pointer [p], step over the bucket
    entries that are [<= last]; [rest] is the bucket from [p] on. *)
Fixpoint skip_le (rest : list nat) (last p : nat) : nat :=
  match rest with
  | [] => p
  | x :: rest' => if x <=? last then skip_le rest' last (S p) else p
  end.

Definition advance (bucket : list nat) (last p : nat) : nat :=
  skip_le (drop p bucket) last p.

(** State of one attempt: the slot pointers, [currentindices], and
    [valid_pattern]. *)
Record attempt := Attempt {
  at_pointers : list nat;
  at_current : list nat;
  at_valid : bool
}.

(** [for j in range(1, len(pattern))], the slots still to visit being [js];
    a failing slot leaves the loop by [break], its pointer staying where
    the [while] left it.  [j] is below [len(pattern)], so [pattern[j]],
    [pointers[j]] and [buckets[pattern[j]]] exist. *)
Fixpoint match_slots (buckets : gmap Z (list nat)) (pattern : list Z)
    (js : list nat) (pointers currentindices : list nat) : attempt :=
  match js with
  | [] => Attempt pointers currentindices true
  | j :: js' =>
      let bucket := buckets !!! (pattern !!! j) in
      let pj := advance bucket (List.last currentindices 0) (pointers !!! j) in
      let pointers := <[j := pj]> pointers in
      match bucket !! pj with
      | Some idx =>
          match_slots buckets pattern js' (<[j := S pj]> pointers)
                      (currentindices ++ [idx])
      | None => Attempt pointers currentindices false
      end
  end.

(** Body of [for index in buckets[pattern[0]]], on the pair
    [(pointers, to_remove)]. *)
Definition start_step (buckets : gmap Z (list nat)) (pattern : list Z)
    (st : list nat * gset nat) (index : nat) : list nat * gset nat :=
  let a := match_slots buckets pattern (seq 1 (length pattern - 1)) st.1 [index] in
  if at_valid a && bool_decide (length (at_current a) = length pattern)
  then (at_pointers a, st.2 ∪ list_to_set (at_current a))
  else (at_pointers a, st.2).

Definition pattern_to_remove (trace pattern : list Z) (p0 : Z) : gset nat :=
  let buckets := fill_buckets trace (init_buckets pattern) in
  (foldl (start_step buckets pattern)
         (replicate (length pattern) 0, ∅) (buckets !!! p0)).2.

(** [pattern[0]] raises IndexError on the empty pattern. *)
Definition remove_pattern_from_trace (trace pattern : list Z) : result (list Z) :=
  match pattern with
  | [] => Raise IndexError
  | p0 :: _ => Ok (drop_positions (pattern_to_remove trace pattern p0) trace)
  end.

(** ** Binary pattern removal  (binary_patterns copy 2.py, remove_binary_pattern) *)

(** [marked_trace] *)
Definition mark (pair : Z * Z) (v : Z) : nat :=
  if bool_decide (v = pair.1) then 1
  else if bool_decide (v = pair.2) then 2
  else 0.

(** Loop state of the [while i < len(trace)]: [firsthalf], [remove],
    [toremove].  What the loop appends to [new_trace] is discarded: the
    list is rebuilt from [toremove] after the loop. *)
Record pairing := Pairing {
  firsthalf : list nat;
  remove : nat;
  toremove : list nat
}.

Definition pairing_step (st : pairing) (e : nat * nat) : pairing :=
  let '(i, m) := e in
  if bool_decide (m = 1) then
    Pairing (firsthalf st ++ [i]) (remove st) (toremove st)
  else if bool_decide (m = 2) && negb (bool_decide (length (firsthalf st) = 0)) then
    let '(fh, rm) :=
      match firsthalf st with
      | f0 :: fh' => if f0 <? i then (fh', f0) else (firsthalf st, remove st)
      | [] => ([], remove st)
      end in
    Pairing fh rm (toremove st ++ [rm; i])
  else st.

Definition binary_pairing (pair : Z * Z) (trace : list Z) : pairing :=
  foldl pairing_step (Pairing [] 0 []) (imap (λ i v, (i, mark pair v)) trace).

Definition remove_binary_pattern (pair : Z * Z) (trace : list Z) : list Z :=
  drop_positions (list_to_set (toremove (binary_pairing pair trace))) trace.

(** ** The successor map and the causal pairs  (binary_patterns copy 2.py) *)

(** One entry of [successors_dict]: [{'src': .., 'dest': .., 'successors': [..]}]. *)
Record node_info := NodeInfo {
  info_src : string;
  info_dest : string;
  successors : list Z
}.

(** [successors_dict.get(node_index, {}).get('successors', [])] *)
Definition successors_of (successors_dict : gmap Z node_info) (node_index : Z) : list Z :=
  match successors_dict !! node_index with
  | Some info => successors info
  | None => []
  end.

Definition isCausal (node_index1 node_index2 : Z)
    (successors_dict : gmap Z node_info) : bool :=
  let successors_of_node1 := successors_of successors_dict node_index1 in
  let successors_of_node2 := successors_of successors_dict node_index2 in
  if bool_decide (node_index2 ∈ successors_of_node1)
     || bool_decide (node_index1 ∈ successors_of_node2)
  then true else false.

(** Body of the two nested [for] loops, for the positions [i < j]. *)
Definition causal_step (indices : list Z) (successors_dict : gmap Z node_info)
    (causal_pairs : gset (Z * Z)) (ij : nat * nat) : gset (Z * Z) :=
  let a := indices !!! ij.1 in
  let b := indices !!! ij.2 in
  let causal_pairs :=
    if isCausal a b successors_dict then causal_pairs ∪ {[ (a, b) ]} else causal_pairs in
  if isCausal b a successors_dict then causal_pairs ∪ {[ (b, a) ]} else causal_pairs.

(** [for i in range(len(indices)): for j in range(i+1, len(indices))] *)
Definition index_pairs (n : nat) : list (nat * nat) :=
  i ← seq 0 n; (λ j, (i, j)) <$> seq (S i) (n - S i).

Definition find_causal_pairs (indices : list Z)
    (successors_dict : gmap Z node_info) : gset (Z * Z) :=
  foldl (causal_step indices successors_dict) ∅ (index_pairs (length indices)).

(** ** The decomposition search  (binary_patterns copy 2.py, find_binary_pattern) *)

(** The [used_nodes] lists are mutable objects that a child may share with
    its parent: they live in a store, and a node holds a location. *)
Definition loc := nat.
Definition store := list (list Z).

Definition deref (h : store) (l : loc) : list Z := h !!! l.

Definition alloc (h : store) (v : list Z) : loc * store := (length h, h ++ [v]).

(** [list.append] on the object at [l]. *)
Definition append_at (h : store) (l : loc) (v : Z) : store :=
  <[l := deref h l ++ [v]]> h.

(** The inner class [Node].  [used_pairs] is built anew for every node
    ([node.used_pairs + [pair]]) and never written afterwards, so it is a
    value; [acceptance_ratio] is written at a leaf and not read again. *)
Record Node := MkNode {
  remaining_trace : list Z;
  used_pairs : list (Z * Z);
  acceptance_ratio : option Qc;
  used_nodes : loc
}.

(** [Node.__init__]: [self.used_nodes = used_nodes if used_nodes else []]
    keeps the caller's list object when it is non-empty and makes a fresh
    empty list when the argument is [None] or an empty list. *)
Definition new_Node (h : store) (remaining_trace : list Z)
    (used_pairs : list (Z * Z)) (used_nodes : option loc) : Node * store :=
  match used_nodes with
  | Some l =>
      match deref h l with
      | _ :: _ => (MkNode remaining_trace used_pairs None l, h)
      | [] => let '(l', h') := alloc h [] in
              (MkNode remaining_trace used_pairs None l', h')
      end
  | None => let '(l', h') := alloc h [] in
            (MkNode remaining_trace used_pairs None l', h')
  end.

Definition calculate_acceptance_ratio (remaining_trace original_trace : list Z)
    : result Qc :=
  let orphaned_nodes := length remaining_trace in
  q ← py_truediv (Z.of_nat orphaned_nodes) (Z.of_nat (length original_trace));
  Ok (1 - q)%Qc.

(** What [explore_node] reads and writes outside its own frame: the store
    and [route_acceptance_ratios] (a dict keyed by [0, 1, 2, ...], kept as
    the list of its values). *)
Record search := MkSearch {
  heap : store;
  routes : list (list (Z * Z) * Qc)
}.

Section explore.
(** [causal_pairs] in the order the [for pair in causal_pairs] loop
    enumerates the set, and the trace of the enclosing call. *)
Variable causal_pairs : list (Z * Z).
Variable trace : list Z.
(** The recursive call. *)
Variable explore : Node → search → result search.

(** [for pair in causal_pairs], for one [value]; the state is [flag]
    and the search state. *)
Fixpoint pairs_loop (node : Node) (value : Z) (ps : list (Z * Z))
    (flag : nat) (s : search) : result (nat * search) :=
  match ps with
  | [] => Ok (flag, s)
  | p :: ps' =>
      let pair := p in
      if bool_decide (pair.1 = value) then
        let used := deref (heap s) (used_nodes node) in
        if bool_decide (pair.1 ∈ used) || bool_decide (pair.2 ∈ used) then
          pairs_loop node value ps' flag s
        else
          let updated_remaining_trace :=
            remove_binary_pattern pair (remaining_trace node) in
          if bool_decide (length updated_remaining_trace
                          = length (remaining_trace node)) then
            pairs_loop node value ps' flag s
          else
            let new_used_pairs := used_pairs node ++ [pair] in
            let '(child_node, h) :=
              new_Node (heap s) updated_remaining_trace new_used_pairs
                       (Some (used_nodes node)) in
            let h := append_at h (used_nodes child_node) pair.1 in
            let h := append_at h (used_nodes child_node) pair.2 in
            s' ← explore child_node (MkSearch h (routes s));
            pairs_loop node value ps' 1 s'
      else pairs_loop node value ps' flag s
  end.

(** [for index, value in enumerate(node.remaining_trace)], on the values
    still to visit; the state is [seen], [flag] and the search state. *)
Fixpoint values_loop (node : Node) (vs : list Z) (seen : list Z)
    (flag : nat) (s : search) : result (nat * search) :=
  match vs with
  | [] => Ok (flag, s)
  | value :: vs' =>
      if bool_decide (value ∈ deref (heap s) (used_nodes node)) then
        values_loop node vs' seen flag s
      else if bool_decide (value ∈ seen) then
        values_loop node vs' seen flag s
      else
        let seen := seen ++ [value] in
        '(flag, s) ← pairs_loop node value causal_pairs flag s;
        if bool_decide (flag = 1) then Ok (flag, s)
        else values_loop node vs' seen flag s
  end.

Definition explore_body (node : Node) (s : search) : result search :=
  '(flag, s) ← values_loop node (remaining_trace node) [] 0 s;
  if bool_decide (flag = 0) then
    r ← calculate_acceptance_ratio (remaining_trace node) trace;
    Ok (MkSearch (heap s) (routes s ++ [(used_pairs node, r)]))
  else Ok s.
End explore.

(** [explore_node], the recursion depth bounded by [fuel]. *)
Fixpoint explore_node (causal_pairs : list (Z * Z)) (trace : list Z)
    (fuel : nat) (node : Node) (s : search) : result search :=
  match fuel with
  | O => OutOfFuel
  | S fuel' =>
      explore_body causal_pairs trace (explore_node causal_pairs trace fuel') node s
  end.

(** The search from the root, on a given enumeration of the causal pairs. *)
Definition explore_root (causal_pairs : list (Z * Z)) (trace : list Z) (fuel : nat)
    : result search :=
  let '(root, h) := new_Node [] trace [] None in
  explore_node causal_pairs trace fuel root (MkSearch h []).

Section find_binary_pattern.
(** The order in which a [set] is enumerated is left open. *)
Variable iter_values : gset Z → list Z.
Variable iter_pairs : gset (Z * Z) → list (Z * Z).

(** The arguments [group_name], [groups] and [pairs] of the source are
    not read by its body. *)
Definition find_binary_pattern (fuel : nat) (trace : list Z)
    (successors_dict : gmap Z node_info) : result (list (list (Z * Z) * Qc)) :=
  let group_indices := iter_values (list_to_set trace) in
  let causal_pairs := find_causal_pairs group_indices successors_dict in
  s ← explore_root (iter_pairs causal_pairs) trace fuel;
  Ok (routes s).
End find_binary_pattern.

(** ** Strings  (the [str] methods and [int] the readers use)

    A [str] is a [string] of characters below 256; a file's content is
    the text as [read()] gives it, after newline translation. *)

(** [str.isspace] on one character. *)
Definition is_space (c : ascii) : bool :=
  let n := nat_of_ascii c in
  ((9 <=? n) && (n <=? 13)) || ((28 <=? n) && (n <=? 32))
  || (n =? 133) || (n =? 160).

Fixpoint lstrip_chars (l : list ascii) : list ascii :=
  match l with
  | c :: l' => if is_space c then lstrip_chars l' else l
  | [] => []
  end.

(** [str.strip()] *)
Definition strip (s : string) : string :=
  string_of_list_ascii
    (rev (lstrip_chars (rev (lstrip_chars (list_ascii_of_string s))))).

(** [str.split(sep)] for a one-character separator; [cur] is the field
    read so far, reversed. *)
Fixpoint split_go (sep : ascii) (l cur : list ascii) : list string :=
  match l with
  | [] => [string_of_list_ascii (rev cur)]
  | c :: l' =>
      if bool_decide (c = sep) then string_of_list_ascii (rev cur) :: split_go sep l' []
      else split_go sep l' (c :: cur)
  end.

Definition split (sep : ascii) (s : string) : list string :=
  split_go sep (list_ascii_of_string s) [].

(** [str.split()]: the maximal runs of non-space characters. *)
Fixpoint words_go (l cur : list ascii) : list string :=
  match l with
  | [] => match cur with [] => [] | _ => [string_of_list_ascii (rev cur)] end
  | c :: l' =>
      if is_space c then
        match cur with
        | [] => words_go l' []
        | _ => string_of_list_ascii (rev cur) :: words_go l' []
        end
      else words_go l' (c :: cur)
  end.

Definition split_ws (s : string) : list string :=
  words_go (list_ascii_of_string s) [].

Definition startswith (s : string) (c : ascii) : bool :=
  match s with
  | String c' _ => bool_decide (c' = c)
  | EmptyString => false
  end.

Definition digit_of (c : ascii) : option Z :=
  let n := nat_of_ascii c in
  if (48 <=? n) && (n <=? 57) then Some (Z.of_nat (n - 48)) else None.

(** Decimal digits, single underscores allowed between two digits. *)
Fixpoint digits_go (l : list ascii) (acc : Z) (after_digit : bool) : option Z :=
  match l with
  | [] => if after_digit then Some acc else None
  | c :: l' =>
      match digit_of c with
      | Some d => digits_go l' (10 * acc + d)%Z true
      | None =>
          if bool_decide (c = "_"%char) && after_digit then digits_go l' acc false
          else None
      end
  end.

(** The characters [int] passes over around a number: the white space of
    C (9 to 13 and 32) and, above 127, the characters of [str.isspace].
    The separators 28 to 31, which [str.strip] removes, are not among
    them: [int] rejects them. *)
Definition is_int_space (c : ascii) : bool :=
  let n := nat_of_ascii c in
  ((9 <=? n) && (n <=? 13)) || (n =? 32) || (n =? 133) || (n =? 160).

Fixpoint int_lstrip (l : list ascii) : list ascii :=
  match l with
  | c :: l' => if is_int_space c then int_lstrip l' else l
  | [] => []
  end.

Definition int_strip (s : string) : list ascii :=
  rev (int_lstrip (rev (int_lstrip (list_ascii_of_string s)))).

(** [sys.get_int_max_str_digits()], at its default: a decimal string of
    more digits is refused by [int]. *)
Definition int_max_str_digits : nat := 4300.

(** The digits of a number, its underscores left out. *)
Definition count_digits (l : list ascii) : nat :=
  length (filter (λ c, is_Some (digit_of c)) l).

(** [int(s)]: the space around the number passed over, an optional sign,
    decimal digits, no more of them than the limit; anything else raises
    ValueError. *)
Definition py_int (s : string) : result Z :=
  let '(sign, body) :=
    match int_strip s with
    | c :: l' =>
        if bool_decide (c = "-"%char) then ((-1)%Z, l')
        else if bool_decide (c = "+"%char) then (1%Z, l')
        else (1%Z, c :: l')
    | [] => (1%Z, [])
    end in
  match digits_go body 0 false with
  | Some n =>
      if int_max_str_digits <? count_digits body then Raise ValueError
      else Ok (sign * n)%Z
  | None => Raise ValueError
  end.

(** A list comprehension whose element expression may raise. *)
Fixpoint traverse {A B} (f : A → result B) (l : list A) : result (list B) :=
  match l with
  | [] => Ok []
  | x :: l' => y ← f x; ys ← traverse f l'; Ok (y :: ys)
  end.

(** [for line in file]: the lines of the content. *)
Definition file_lines (content : string) : list string :=
  split "010"%char content.

(** ** Reading a trace  (read_trace_from_file) *)

Definition read_trace_from_file (content : string) : result (list Z) :=
  let trace := split_ws (strip content) in
  traverse py_int trace.

(** ** Group extraction  (extract_groups_from_msg_file) *)

(** Python's order on [str], on [int] tuples and on the group triples. *)
Definition str_le (a b : string) : Prop := String.leb a b = true.

Fixpoint ints_compare (a b : list Z) : comparison :=
  match a, b with
  | [], [] => Eq
  | [], _ :: _ => Lt
  | _ :: _, [] => Gt
  | x :: a', y :: b' =>
      match Z.compare x y with
      | Eq => ints_compare a' b'
      | c => c
      end
  end.

Definition group := (string * string * list Z)%type.

Definition group_compare (g1 g2 : group) : comparison :=
  match String.compare g1.1.1 g2.1.1 with
  | Eq => match String.compare g1.1.2 g2.1.2 with
          | Eq => ints_compare g1.2 g2.2
          | c => c
          end
  | c => c
  end.

Definition group_le (g1 g2 : group) : Prop := group_compare g1 g2 ≠ Gt.

#[global] Instance str_le_dec a b : Decision (str_le a b).
Proof. unfold str_le. apply _. Defined.
#[global] Instance group_le_dec g1 g2 : Decision (group_le g1 g2).
Proof. unfold group_le. apply _. Defined.

(** [tuple(sorted((src, dest)))] *)
Definition sorted_pair (src dest : string) : string * string :=
  if decide (str_le src dest) then (src, dest) else (dest, src).

(** Body of [for line in file]. *)
Definition group_line (group_indices : gmap (string * string) (list Z))
    (line : string) : result (gmap (string * string) (list Z)) :=
  let line := strip line in
  if startswith line "#"%char then Ok group_indices
  else if bool_decide (line ≠ ""%string) then
    let parts := strip <$> split ":"%char line in
    match parts with
    | [index; src; dest; type_] =>
        let key := sorted_pair src dest in
        let group_indices :=
          match group_indices !! key with
          | None => <[key := []]> group_indices
          | Some _ => group_indices
          end in
        i ← py_int index;
        Ok (alter (λ l, l ++ [i]) key group_indices)
    | _ => Ok group_indices
    end
  else Ok group_indices.

Fixpoint group_lines (group_indices : gmap (string * string) (list Z))
    (lines : list string) : result (gmap (string * string) (list Z)) :=
  match lines with
  | [] => Ok group_indices
  | line :: lines' =>
      group_indices ← group_line group_indices line;
      group_lines group_indices lines'
  end.

Definition extract_groups_from_lines (lines : list string) : result (list group) :=
  group_indices ← group_lines ∅ lines;
  let groups : gset group :=
    list_to_set ((λ kv, (kv.1.1, kv.1.2, merge_sort Z.le kv.2))
                 <$> map_to_list group_indices) in
  Ok (merge_sort group_le (elements groups)).

Definition extract_groups_from_msg_file (content : string) : result (list group) :=
  extract_groups_from_lines (file_lines content).

(** ** The causality graph  (construct_causality_graph) *)

(** [int(line.split(':')[0].strip())] *)
Definition line_index (line : string) : result Z :=
  py_int (strip (default ""%string (head (split ":"%char line)))).

(** [set(int(..) for line in section if line)] *)
Definition section_nodes (section : list string) : result (gset Z) :=
  l ← traverse line_index (filter (λ line, line ≠ ""%string) section);
  Ok (list_to_set l).

Definition message := (Z * string * string)%type.

(** The four results; the [Data] object is given by the edge list it is
    built from. *)
Record graph := Graph {
  edge_list : list (Z * Z);
  initial_nodes : gset Z;
  terminating_nodes : gset Z;
  successors_dict : gmap Z node_info
}.

(** Body of the inner [for _, s, d in messages], for the outer message
    [(index, src, dest)]; the state is [(edge_list, successors_dict)]. *)
Definition inner_step (initial_nodes terminating_nodes : gset Z) (index : Z)
    (dest : string) (st : list (Z * Z) * gmap Z node_info) (m : message)
    : list (Z * Z) * gmap Z node_info :=
  let '(j, s, d) := m in
  if bool_decide (dest = s) && bool_decide (index ∉ terminating_nodes)
     && bool_decide (j ∉ initial_nodes) then
    let sd := alter (λ info, NodeInfo (info_src info) (info_dest info) (successors info ++ [j]))
                    index st.2 in
    let sd := match sd !! j with
              | None => <[j := NodeInfo s d []]> sd
              | Some _ => sd
              end in
    (st.1 ++ [(index, j)], sd)
  else st.

Definition outer_step (initial_nodes terminating_nodes : gset Z)
    (messages : list message) (st : list (Z * Z) * gmap Z node_info) (m : message)
    : list (Z * Z) * gmap Z node_info :=
  let '(index, src, dest) := m in
  let sd := match st.2 !! index with
            | None => <[index := NodeInfo src dest []]> st.2
            | Some _ => st.2
            end in
  foldl (inner_step initial_nodes terminating_nodes index dest) (st.1, sd) messages.

(** An integer that a tensor of type [torch.long] can hold. *)
Definition fits_long (z : Z) : Prop := (- 2 ^ 63 ≤ z < 2 ^ 63)%Z.

#[global] Instance fits_long_dec z : Decision (fits_long z).
Proof. unfold fits_long. apply _. Defined.

(** [torch.tensor(list(zip(...)), dtype=torch.long)] over the edge list:
    the tensor holds the two rows of the edges and is given here by the
    edge list itself; an index outside 64 bits makes the conversion raise
    RuntimeError (overflow). *)
Definition edge_index (edge_list : list (Z * Z)) : result (list (Z * Z)) :=
  if decide (Forall (λ e : Z * Z, fits_long e.1 ∧ fits_long e.2) edge_list)
  then Ok edge_list
  else Raise RuntimeError.

Definition construct_causality_graph (messages : list message)
    (sections : list (list string)) : result graph :=
  match head sections, last sections with
  | Some first, Some final =>
      initial_nodes ← section_nodes first;
      terminating_nodes ← section_nodes final;
      let st := foldl (outer_step initial_nodes terminating_nodes messages)
                      ([], ∅) messages in
      edge_index ← edge_index st.1;
      Ok (Graph edge_index initial_nodes terminating_nodes st.2)
  | _, _ => Raise IndexError
  end.

(** ** The N-gram ratio scorer  (functions.py, find_acceptance_ratios) *)

(** The variables one pass of the [while] works on. *)
Record pass := Pass {
  used_numbers : gset Z;
  pass_trace : list Z;
  patterns_to_remove : gset nat;
  break_outer : bool;
  pattern_skip_count : nat;
  pattern_acceptance_ratios : list (list Z * Qc)
}.

(** [for num in pattern: if num in used_numbers: ...] *)
Definition skip_scan (used_numbers : gset Z) (st : bool * nat) (num : Z) : bool * nat :=
  if decide (num ∈ used_numbers) then (true, S st.2) else st.

(** [sum(count[num] for num in pattern)] with [count = Counter(l)] *)
Definition count_sum (l pattern : list Z) : nat :=
  sum_list ((λ num, length (filter (λ x, x = num) l)) <$> pattern).

(** [for pointer_index, pointer in enumerate(pointers)]; [continue] goes on
    with the next pointer, [break] returns the state as it is. *)
Fixpoint pass_loop (patterns : list (list Z)) (pointers : list nat) (st : pass)
    : result pass :=
  match pointers with
  | [] => Ok st
  | pointer :: pointers' =>
      match patterns !! pointer with
      | None => Raise IndexError
      | Some pattern =>
          let '(break_outer, pattern_skip_count) :=
            foldl (skip_scan (used_numbers st))
                  (break_outer st, pattern_skip_count st) pattern in
          if break_outer && (pattern_skip_count <=? 15) then
            pass_loop patterns pointers'
              (Pass (used_numbers st) (pass_trace st) (patterns_to_remove st)
                    false pattern_skip_count (pattern_acceptance_ratios st))
          else if break_outer then
            Ok (Pass (used_numbers st) (pass_trace st) (patterns_to_remove st)
                     false pattern_skip_count (pattern_acceptance_ratios st))
          else
            updated_remaining_trace ← remove_pattern_from_trace (pass_trace st) pattern;
            let orphans := count_sum updated_remaining_trace pattern in
            let original := count_sum (pass_trace st) pattern in
            acceptance_ratio ←
              (if bool_decide (original ≠ 0) then
                 q ← py_truediv (Z.of_nat orphans) (Z.of_nat original); Ok (1 - q)%Qc
               else Ok 0%Qc);
            pass_loop patterns pointers'
              (Pass (used_numbers st ∪ list_to_set pattern)
                    updated_remaining_trace
                    (patterns_to_remove st ∪ {[ pointer ]})
                    break_outer pattern_skip_count
                    (pattern_acceptance_ratios st
                       ++ [(pattern, acceptance_ratio); (pattern, acceptance_ratio)]))
      end
  end.

(** One pass: the fresh pass variables, the [for] loop, the new [pointers]. *)
Definition one_pass (trace : list Z) (patterns : list (list Z)) (pointers : list nat)
    (ratios : list (list Z * Qc)) : result (list nat * list (list Z * Qc)) :=
  st ← pass_loop patterns pointers (Pass ∅ trace ∅ false 0 ratios);
  Ok (filter (λ pointer, pointer ∉ patterns_to_remove st) pointers,
      pattern_acceptance_ratios st).

(** [while pointers], at most [fuel] passes. *)
Fixpoint while_pointers (fuel : nat) (trace : list Z) (patterns : list (list Z))
    (pointers : list nat) (ratios : list (list Z * Qc)) : result (list (list Z * Qc)) :=
  match pointers with
  | [] => Ok ratios
  | _ :: _ =>
      match fuel with
      | O => OutOfFuel
      | S fuel' =>
          '(pointers', ratios') ← one_pass trace patterns pointers ratios;
          while_pointers fuel' trace patterns pointers' ratios'
      end
  end.

Definition find_acceptance_ratios (fuel : nat) (trace : list Z)
    (patterns : list (list Z)) : result (list (list Z * Qc)) :=
  while_pointers fuel trace patterns (seq 0 (length patterns)) [].


(** ** Notions used to state the properties *)

(** The positions of [v] in [t], in increasing order. *)
Definition positions (t : list Z) (v : Z) : list nat :=
  filter (λ i, t !! i = Some v) (seq 0 (length t)).

(** The pairing the specification words describe for the binary removal:
    a second half takes the most recently pending first half. *)
Definition pairing_step_lifo (st : pairing) (e : nat * nat) : pairing :=
  let '(i, m) := e in
  if bool_decide (m = 1) then
    Pairing (firsthalf st ++ [i]) (remove st) (toremove st)
  else if bool_decide (m = 2) && negb (bool_decide (length (firsthalf st) = 0)) then
    let rm := List.last (firsthalf st) 0 in
    Pairing (removelast (firsthalf st)) rm (toremove st ++ [rm; i])
  else st.

Definition remove_binary_pattern_lifo (pair : Z * Z) (trace : list Z) : list Z :=
  drop_positions
    (list_to_set (toremove (foldl pairing_step_lifo (Pairing [] 0 [])
                                  (imap (λ i v, (i, mark pair v)) trace))))
    trace.

(** The pairs marked so far by the binary removal: the first occurrences
    [ps] of the first half, each followed by the second half of [bs] that
    took it. *)
Definition paired (ps bs : list nat) : list nat :=
  mjoin (zip_with (λ x y, [x; y]) (take (length bs) ps) bs).

(** [child] is a node that [explore_node] makes for [node] with a pair of
    [ps]: the pair's occurrences removed from the remaining trace, which
    got shorter, and the pair appended to the applied ones. *)
Definition spawns (ps : list (Z * Z)) (node child : Node) : Prop :=
  ∃ pair, pair ∈ ps
    ∧ remaining_trace child = remove_binary_pattern pair (remaining_trace node)
    ∧ length (remaining_trace child) ≠ length (remaining_trace node)
    ∧ used_pairs child = used_pairs node ++ [pair].

(** The nodes of the search for [trace]: the root [Node(trace)] and the
    nodes spawned from them. *)
Inductive search_node (causal_pairs : list (Z * Z)) (trace : list Z) : Node → Prop :=
  | search_root root :
      remaining_trace root = trace → used_pairs root = [] →
      search_node causal_pairs trace root
  | search_child node child :
      search_node causal_pairs trace node → spawns causal_pairs node child →
      search_node causal_pairs trace child.

(** A recorded route whose score lies in [[0, 1]]. *)
Definition score_in_unit (r : list (Z * Z) * Qc) : Prop :=
  (0 ≤ r.2)%Qc ∧ (r.2 ≤ 1)%Qc.

Definition all_scores_in_unit (s : search) : Prop :=
  Forall score_in_unit (routes s).

(** The successor map of a request [0] answered by a response [25]. *)
Definition sd_request_response : gmap Z node_info :=
  {[ 0%Z := NodeInfo "cpu" "cache" [25%Z]; 25%Z := NodeInfo "cache" "cpu" [] ]}.

(** A successor map in which [3] has the two successors [4] and [5]. *)
Definition sd_two_answers : gmap Z node_info :=
  {[ 1%Z := NodeInfo "a" "b" [2%Z]; 2%Z := NodeInfo "b" "x" [];
     3%Z := NodeInfo "c" "d" [4%Z; 5%Z]; 4%Z := NodeInfo "d" "y" [];
     5%Z := NodeInfo "d" "z" [] ]}.

(** The stripped fields of a definition line. *)
Definition line_fields (line : string) : list string :=
  strip <$> split ":"%char (strip line).

(** A line that group extraction passes over: a comment, a blank line, or
    a line that does not have exactly four fields. *)
Definition skipped_line (line : string) : Prop :=
  startswith (strip line) "#"%char = true
  ∨ strip line = ""%string
  ∨ length (line_fields line) ≠ 4.

(** A four-field definition line whose index field is not an integer. *)
Definition bad_index_line (line : string) : Prop :=
  ¬ skipped_line line
  ∧ ∃ index, head (line_fields line) = Some index ∧ py_int index = Raise ValueError.

(** Every index of the message table has one source and one destination. *)
Definition unique_indices (messages : list message) : Prop :=
  ∀ i s d s' d', (i, s, d) ∈ messages → (i, s', d') ∈ messages → s = s' ∧ d = d'.

(** ** Reading the successor map  (get_successors, get_causal_pairs_for_index) *)

(** An entry of [successors_dict] is a dict of three keys, so [if node_info]
    holds whenever the entry exists.  [None] is the KeyError of
    [successors_dict[succ]] for a successor that has no entry of its own. *)
Definition get_successors (node_index : Z) (successors_dict : gmap Z node_info)
    : option (list (Z * string * string)) :=
  match successors_dict !! node_index with
  | Some node_info =>
      mapM (λ succ, info ← successors_dict !! succ;
                    Some (succ, info_src info, info_dest info))
           (successors node_info)
  | None => Some []
  end.

Definition get_causal_pairs_for_index (node_index : Z)
    (successors_dict : gmap Z node_info) : option (list (Z * Z)) :=
  match get_successors node_index successors_dict with
  | Some successors_info =>
      Some ((λ si : Z * string * string, (node_index, si.1.1)) <$> successors_info)
  | None => None
  end.

(** ** Reading the message definitions  (read_messages_from_file) *)

(** [int(parts[0].strip()), parts[1].strip(), parts[2].strip()], evaluated
    in that order. *)
Definition message_of_line (line : string) : result message :=
  let parts := split ":"%char line in
  index ← py_int (strip (default ""%string (head parts)));
  match parts !! 1, parts !! 2 with
  | Some src, Some dest => Ok (index, strip src, strip dest)
  | _, _ => Raise IndexError
  end.

Definition read_messages_from_file (content : string)
    : result (list message * list (list string)) :=
  let content := split "#"%char (strip content) in
  let sections :=
    (λ section, split "010"%char (strip section))
      <$> filter (λ section, strip section ≠ ""%string) content in
  messages ← traverse message_of_line
                      (filter (λ line, line ≠ ""%string) (mjoin sections));
  Ok (messages, sections).

(** ** The pairs file  (functions.py, find_causal_pairs) *)

Module functions_py.

(** [first, second = map(int, line.split('_'))]: the fields are converted
    one by one as the unpacking asks for them; too few or too many fields
    raise ValueError as a field that is no integer does. *)
Definition pair_of_line (line : string) : result (Z * Z) :=
  match split "_"%char line with
  | [] => Raise ValueError
  | [p1] => _ ← py_int p1; Raise ValueError
  | [p1; p2] => first ← py_int p1; second ← py_int p2; Ok (first, second)
  | p1 :: p2 :: p3 :: _ =>
      _ ← py_int p1; _ ← py_int p2; _ ← py_int p3; Raise ValueError
  end.

(** [for line in file], with the [try] ... [except ValueError] around the
    conversion. *)
Fixpoint pairs_of_lines (pairs : gset (Z * Z)) (lines : list string)
    : result (gset (Z * Z)) :=
  match lines with
  | [] => Ok pairs
  | line :: lines' =>
      let line := strip line in
      if bool_decide (line ≠ ""%string) then
        match pair_of_line line with
        | Ok p => pairs_of_lines (pairs ∪ {[ p ]}) lines'
        | Raise ValueError => pairs_of_lines pairs lines'
        | Raise e => Raise e
        | OutOfFuel => OutOfFuel
        end
      else pairs_of_lines pairs lines'
  end.

Definition find_causal_pairs (content : string) : result (gset (Z * Z)) :=
  pairs_of_lines ∅ (file_lines content).

End functions_py.

(** ** Patterns by column  (functions.py, extract_patterns_from_rows) *)

(** [zip_longest] of the rows, filled with [None], gives, for every position below
    the longest row, the entries of the rows at that position, [None]
    where a row is too short; the [None] are then filtered out. *)
Definition extract_patterns_from_rows {A} (rows : list (list A)) : list (list A) :=
  filter (λ valid_patterns, length valid_patterns ≠ 0)
         ((λ k, omap (λ row, row !! k) rows)
            <$> seq 0 (max_list (length <$> rows))).

(** ** Notions used to state the further properties *)

(** The values a route consumes, and the trace left after its pairs are
    removed one after the other. *)
Definition route_values (route : list (Z * Z)) : list Z :=
  route ≫= λ p, [p.1; p.2].

Definition apply_route (trace : list Z) (route : list (Z * Z)) : list Z :=
  foldl (λ t p, remove_binary_pattern p t) trace route.

(** A recorded route made of given pairs that share no value, scored by
    what its pairs leave of the trace. *)
Definition route_ok (causal_pairs : list (Z * Z)) (trace : list Z)
    (r : list (Z * Z) * Qc) : Prop :=
  r.1 ⊆ causal_pairs
  ∧ NoDup (route_values r.1)
  ∧ calculate_acceptance_ratio (apply_route trace r.1) trace = Ok r.2.

(** The state of the graph builder: every successor has an entry, every entry is that of a message, and the
    successors of an index are the targets of its edges, in edge order. *)
Definition graph_inv (messages : list message)
    (st : list (Z * Z) * gmap Z node_info) : Prop :=
  (∀ i j, j ∈ successors_of st.2 i → is_Some (st.2 !! j))
  ∧ (∀ i info, st.2 !! i = Some info →
               (i, info_src info, info_dest info) ∈ messages)
  ∧ (∀ i, successors_of st.2 i = (filter (λ e, e.1 = i) st.1).*2).


(** The store after some appends: every list has its old content in front. *)
Definition heap_grows (h h' : store) : Prop :=
  ∀ l, deref h l `prefix_of` deref h' l.

(** What holds of a node when [explore_node] is called on it: its applied
    pairs are given pairs that share no value, their values are in its
    list of consumed values, and its remaining trace is what they leave of
    the trace. *)
Definition node_inv (causal_pairs : list (Z * Z)) (trace : list Z)
    (node : Node) (h : store) : Prop :=
  route_values (used_pairs node) ⊆ deref h (used_nodes node)
  ∧ used_pairs node ⊆ causal_pairs
  ∧ NoDup (route_values (used_pairs node))
  ∧ remaining_trace node = apply_route trace (used_pairs node).

Definition all_routes_ok (causal_pairs : list (Z * Z)) (trace : list Z)
    (s : search) : Prop :=
  Forall (route_ok causal_pairs trace) (routes s).

(** What a call of [explore_node] does to the search state. *)
Definition explore_post (causal_pairs : list (Z * Z)) (trace : list Z)
    (s s' : search) : Prop :=
  all_routes_ok causal_pairs trace s'
  ∧ heap_grows (heap s) (heap s')
  ∧ length (routes s) < length (routes s').

(** A scored pattern whose ratio lies in [[0, 1]]. *)
Definition ratio_in_unit (r : list Z * Qc) : Prop :=
  (0 ≤ r.2)%Qc ∧ (r.2 ≤ 1)%Qc.

(** The patterns of the given pointers, each one twice. *)
Definition twice_each (patterns : list (list Z)) (pointers : list nat)
    : list (list Z) :=
  pointers ≫= λ pointer,
    match patterns !! pointer with
    | Some pattern => [pattern; pattern]
    | None => []
    end.

(** The group key and the index a definition line contributes, if any. *)
Definition line_entry (line : string) : option (string * string * Z) :=
  if startswith (strip line) "#"%char then None
  else match line_fields line with
       | [index; src; dest; type_] =>
           match py_int index with
           | Ok i => Some (sorted_pair src dest, i)
           | _ => None
           end
       | _ => None
       end.

(** The indices of the lines whose endpoints are [key], in file order. *)
Definition indices_of (lines : list string) (key : string * string) : list Z :=
  (filter (λ e : string * string * Z, e.1 = key) (omap line_entry lines)).*2.

(** The list a key holds in [group_indices], empty when the key is absent. *)
Definition entries_of (gi : gmap (string * string) (list Z)) (key : string * string)
    : list Z := default [] (gi !! key).

(** ** The report  (binary_patterns copy 2.py, compute_common_causal_pairs) *)

(** [sorted(l, key=key, reverse=True)]: largest key first; the sort is
    stable, so items of equal keys keep the order they have in [l]. *)
Fixpoint insert_reverse {A} (key : A → Qc) (x : A) (l : list A) : list A :=
  match l with
  | [] => [x]
  | y :: l' =>
      if decide (key y ≤ key x)%Qc then x :: l else y :: insert_reverse key x l'
  end.

Definition sorted_reverse {A} (key : A → Qc) (l : list A) : list A :=
  foldr (insert_reverse key) [] l.

Record top_pairs := TopPairs {
  top_pairs_with_ratio_1 : gset (list (Z * Z) * Qc);
  top_pairs_without_ratio_1 : gset (list (Z * Z) * Qc)
}.

(** Body of [for route_index, (route, acceptance_ratio) in sorted_pairs]. *)
Definition top_pairs_step (st : top_pairs) (item : nat * (list (Z * Z) * Qc))
    : top_pairs :=
  let '(route_index, (route, acceptance_ratio)) := item in
  if decide (acceptance_ratio = 1%Qc) then
    TopPairs ({[ (route, acceptance_ratio) ]} ∪ top_pairs_with_ratio_1 st)
             (top_pairs_without_ratio_1 st)
  else if bool_decide (0 < acceptance_ratio)%Qc
          && (size (top_pairs_without_ratio_1 st) <? 5) then
    TopPairs (top_pairs_with_ratio_1 st)
             ({[ (route, acceptance_ratio) ]} ∪ top_pairs_without_ratio_1 st)
  else st.

(** The two sets filled from [causal_pairs_info], the routes of the search
    in the order of their route indices. *)
Definition select_top_pairs (causal_pairs_info : list (list (Z * Z) * Qc))
    : top_pairs :=
  let sorted_pairs :=
    sorted_reverse (λ x : nat * (list (Z * Z) * Qc), x.2.2)
                   (imap (λ route_index r, (route_index, r)) causal_pairs_info) in
  foldl top_pairs_step (TopPairs ∅ ∅) sorted_pairs.

(** What [compute_common_causal_pairs] selects for the trace of one file;
    the lines it writes are the members of the two sets. *)
Definition compute_common_causal_pairs
    (iter_values : gset Z → list Z) (iter_pairs : gset (Z * Z) → list (Z * Z))
    (fuel : nat) (trace : list Z) (successors_dict : gmap Z node_info)
    : result top_pairs :=
  causal_pairs_info ←
    find_binary_pattern iter_values iter_pairs fuel trace successors_dict;
  Ok (select_top_pairs causal_pairs_info).

(** Largest ratio first. *)
Definition ratio_desc (a b : nat * (list (Z * Z) * Qc)) : Prop :=
  (b.2.2 ≤ a.2.2)%Qc.

(** A route that is reported among the partial ones may be: its ratio is
    positive and not 1. *)
Definition partial_route (x : list (Z * Z) * Qc) : Prop :=
  (0 < x.2)%Qc ∧ x.2 ≠ 1%Qc.

(** What the selection loop keeps true of the items it has seen. *)
Definition selection_inv (items : list (nat * (list (Z * Z) * Qc)))
    (tp : top_pairs) : Prop :=
  (∀ x, x ∈ top_pairs_with_ratio_1 tp ↔ x ∈ items.*2 ∧ x.2 = 1%Qc)
  ∧ size (top_pairs_without_ratio_1 tp) ≤ 5
  ∧ (∀ x, x ∈ top_pairs_without_ratio_1 tp → x ∈ items.*2 ∧ partial_route x)
  ∧ (∀ y, y ∈ items.*2 → partial_route y → y ∉ top_pairs_without_ratio_1 tp →
       size (top_pairs_without_ratio_1 tp) = 5
       ∧ ∀ x, x ∈ top_pairs_without_ratio_1 tp → (y.2 ≤ x.2)%Qc).

(** * Properties *)

(** ** Dropping positions *)

Lemma drop_positions_snoc (S0 : gset nat) (t : list Z) (x : Z) :
  drop_positions S0 (t ++ [x])
  = drop_positions S0 t ++ (if decide (length t ∈ S0) then [] else [x]).
Proof.
  unfold drop_positions.
  rewrite length_app, Nat.add_1_r, seq_S, omap_app. simpl. f_equal.
  - apply list_omap_ext, Forall2_same_length_lookup_2; [done|].
    intros i a b Ha Hb. rewrite Ha in Hb. injection Hb as <-.
    apply lookup_seq in Ha as [-> Hlt]. simpl.
    by rewrite lookup_app_l.
  - destruct (decide _); [done|].
    by rewrite lookup_app_r, Nat.sub_diag.
Qed.

Lemma drop_positions_sublist (S0 : gset nat) (t : list Z) :
  drop_positions S0 t `sublist_of` t.
Proof.
  induction t as [|x t IH] using rev_ind; [done|].
  rewrite drop_positions_snoc. apply sublist_app; [done|].
  destruct (decide _); [apply sublist_nil_l | done].
Qed.

Lemma drop_positions_length_le (S0 : gset nat) (t : list Z) :
  length (drop_positions S0 t) ≤ length t.
Proof. apply sublist_length, drop_positions_sublist. Qed.

Lemma drop_positions_length_lt (S0 : gset nat) (t : list Z) (i : nat) :
  i ∈ S0 → i < length t → length (drop_positions S0 t) < length t.
Proof.
  induction t as [|x t IH] using rev_ind; simpl; [lia|].
  intros Hi. rewrite drop_positions_snoc, !length_app. simpl.
  intros Hlt. destruct (decide (i = length t)) as [->|Hne].
  - rewrite decide_True by done. simpl.
    pose proof (drop_positions_length_le S0 t). lia.
  - assert (length (drop_positions S0 t) < length t) by (apply IH; [done|lia]).
    destruct (decide _); simpl; lia.
Qed.

Lemma drop_positions_id (S0 : gset nat) (t : list Z) :
  (∀ i, i ∈ S0 → length t ≤ i) → drop_positions S0 t = t.
Proof.
  induction t as [|x t IH] using rev_ind; [done|].
  intros H. rewrite drop_positions_snoc.
  rewrite length_app in H. simpl in H.
  rewrite IH by (intros i Hi; specialize (H i Hi); lia).
  destruct (decide _) as [Hin|]; [|done].
  specialize (H _ Hin). lia.
Qed.

Lemma drop_positions_shorter_exists (S0 : gset nat) (t : list Z) :
  length (drop_positions S0 t) ≠ length t → ∃ i, i ∈ S0 ∧ i < length t.
Proof.
  intros Hne. destruct (decide (set_Exists (λ i, i < length t) S0)) as [[i [? ?]]|Hno].
  - eauto.
  - exfalso. apply Hne. f_equal. apply drop_positions_id.
    intros i Hi. destruct (decide (i < length t)); [|lia].
    exfalso. apply Hno. by exists i.
Qed.

(** ** The buckets *)

Lemma filter_ext_in {A} (P Q : A → Prop) `{!∀ x, Decision (P x)}
    `{!∀ x, Decision (Q x)} (l : list A) :
  (∀ x, x ∈ l → P x ↔ Q x) → filter P l = filter Q l.
Proof.
  induction l as [|a l IH]; intros Hext; [done|].
  rewrite !filter_cons.
  rewrite IH by (intros x Hx; apply Hext; by right).
  assert (P a ↔ Q a) as Ha by (apply Hext; by left).
  destruct (decide (P a)), (decide (Q a)); tauto || done.
Qed.

Lemma positions_snoc (t : list Z) (x v : Z) :
  positions (t ++ [x]) v
  = positions t v ++ (if decide (x = v) then [length t] else []).
Proof.
  unfold positions. rewrite length_app, Nat.add_1_r, seq_S, filter_app. f_equal.
  - apply filter_ext_in. intros i Hi%elem_of_seq.
    by rewrite lookup_app_l by lia.
  - simpl. rewrite filter_cons, filter_nil.
    rewrite lookup_app_r, Nat.sub_diag by done. simpl.
    destruct (decide (x = v)) as [->|Hne].
    + by rewrite decide_True.
    + rewrite decide_False; [done|]. by intros [= ?].
Qed.

Lemma elem_of_positions (t : list Z) (v : Z) (i : nat) :
  i ∈ positions t v ↔ t !! i = Some v.
Proof.
  unfold positions. rewrite list_elem_of_filter, elem_of_seq. split; [tauto|].
  intros H. split; [done|]. apply lookup_lt_Some in H. lia.
Qed.

Lemma positions_sorted (t : list Z) (v : Z) : StronglySorted lt (positions t v).
Proof.
  induction t as [|x t IH] using rev_ind; [constructor|].
  rewrite positions_snoc. apply StronglySorted_app. split_and!; [|done|].
  - intros i j Hi%elem_of_positions%lookup_lt_Some Hj.
    destruct (decide _); [|by apply elem_of_nil in Hj].
    apply list_elem_of_singleton in Hj as ->. done.
  - destruct (decide _); repeat constructor.
Qed.

Lemma sorted_lookup_lt (b : list nat) (i j x y : nat) :
  StronglySorted lt b → b !! i = Some x → b !! j = Some y → i < j → x < y.
Proof.
  intros Hs. revert i j. induction Hs as [|a b Hs IH Hall]; intros i j Hi Hj Hlt.
  - by rewrite lookup_nil in Hi.
  - destruct j as [|j]; [lia|]. simpl in Hj. destruct i as [|i]; simpl in Hi.
    + injection Hi as ->. rewrite Forall_forall in Hall.
      apply Hall. by eapply list_elem_of_lookup_2.
    + eapply IH; [done..|lia].
Qed.

Lemma init_buckets_lookup (pattern : list Z) (b : gmap Z (list nat)) (v : Z) :
  foldl (λ b num, <[num := []]> b) b pattern !! v
  = if decide (v ∈ pattern) then Some [] else b !! v.
Proof.
  revert b. induction pattern as [|x pattern IH]; intros b.
  - by destruct (decide (v ∈ [])) as [?%elem_of_nil|].
  - cbn [foldl]. rewrite IH. destruct (decide (v ∈ pattern)) as [Hin|Hnin].
    + rewrite decide_True; [done|]. by right.
    + destruct (decide (v = x)) as [->|Hne].
      * rewrite lookup_insert_eq. rewrite decide_True; [done|]. by left.
      * rewrite lookup_insert_ne by done. rewrite decide_False; [done|].
        rewrite elem_of_cons. tauto.
Qed.

Lemma fill_buckets_snoc (t : list Z) (x : Z) (b : gmap Z (list nat)) :
  fill_buckets (t ++ [x]) b = fill_step (fill_buckets t b) (length t, x).
Proof.
  unfold fill_buckets. rewrite imap_app, foldl_app. simpl.
  by rewrite Nat.add_0_r.
Qed.

Lemma fill_buckets_lookup (t : list Z) (b : gmap Z (list nat)) (v : Z) :
  fill_buckets t b !! v = (λ l, l ++ positions t v) <$> b !! v.
Proof.
  induction t as [|x t IH] using rev_ind.
  - unfold fill_buckets, positions. simpl. destruct (b !! v); simpl; [|done].
    by rewrite app_nil_r.
  - rewrite fill_buckets_snoc, positions_snoc. unfold fill_step. simpl.
    destruct (decide (x = v)) as [->|Hne].
    + rewrite IH. destruct (b !! v) as [l|]; simpl.
      * rewrite lookup_insert_eq. by rewrite app_assoc.
      * rewrite IH. done.
    + destruct (fill_buckets t b !! x); [rewrite lookup_insert_ne by done|];
        rewrite IH; destruct (b !! v); simpl; by rewrite ?app_nil_r.
Qed.

Lemma buckets_lookup (t pattern : list Z) (v : Z) :
  v ∈ pattern →
  fill_buckets t (init_buckets pattern) !!! v = positions t v.
Proof.
  intros Hin. rewrite lookup_total_alt, fill_buckets_lookup.
  unfold init_buckets. rewrite init_buckets_lookup, decide_True by done. done.
Qed.

(** ** The inner [while] *)

Lemma skip_le_stop (rest : list nat) (c p : nat) :
  p ≤ skip_le rest c p ∧
  ∀ x, rest !! (skip_le rest c p - p) = Some x → c < x.
Proof.
  revert p. induction rest as [|y rest IH]; intros p; simpl.
  - split; [lia|]. intros x. by rewrite lookup_nil.
  - destruct (y <=? c) eqn:E.
    + destruct (IH (S p)) as [Hle Hx]. split; [lia|]. intros x.
      replace (skip_le rest c (S p) - p) with (S (skip_le rest c (S p) - S p)) by lia.
      simpl. apply Hx.
    + split; [lia|]. rewrite Nat.sub_diag. simpl. intros x [= <-].
      apply Nat.leb_gt in E. lia.
Qed.

Lemma advance_stop (b : list nat) (c p x : nat) :
  b !! advance b c p = Some x → c < x.
Proof.
  unfold advance. destruct (skip_le_stop (drop p b) c p) as [Hle Hx].
  intros H. apply Hx. rewrite lookup_drop.
  by replace (p + (skip_le (drop p b) c p - p)) with (skip_le (drop p b) c p) by lia.
Qed.

Lemma skip_le_sorted (b : list nat) (c p : nat) :
  StronglySorted lt b →
  ∀ k x, b !! k = Some x → (x ≤ c ↔ p + k < skip_le b c p).
Proof.
  intros Hs. revert p. induction Hs as [|y b Hs IH Hall]; intros p k x Hk.
  - by rewrite lookup_nil in Hk.
  - simpl. destruct (y <=? c) eqn:E.
    + apply Nat.leb_le in E. destruct k as [|k]; simpl in Hk.
      * injection Hk as <-. pose proof (skip_le_stop b c (S p)) as [? _]. lia.
      * rewrite (IH (S p) k x Hk). lia.
    + apply Nat.leb_gt in E. destruct k as [|k]; simpl in Hk.
      * injection Hk as <-. lia.
      * rewrite Forall_forall in Hall.
        assert (y < x) by (apply Hall; by eapply list_elem_of_lookup_2). lia.
Qed.

(** From pointer [0], the inner [while] stops at the first position of [v]
    after [c], when there is one. *)
Lemma advance_first (t : list Z) (v : Z) (c y : nat) :
  c < y → t !! y = Some v →
  ∃ x, positions t v !! advance (positions t v) c 0 = Some x ∧ c < x
       ∧ t !! x = Some v ∧ ∀ z, c < z < x → t !! z ≠ Some v.
Proof.
  intros Hcy Hy. unfold advance. rewrite drop_0.
  pose proof (positions_sorted t v) as Hs.
  pose proof (skip_le_sorted _ c 0 Hs) as Hsk.
  set (p' := skip_le (positions t v) c 0) in *.
  apply elem_of_positions, list_elem_of_lookup_1 in Hy as [k Hk].
  assert (p' ≤ k) as Hp'k.
  { destruct (decide (p' ≤ k)); [done|]. apply Hsk in Hk. lia. }
  destruct (positions t v !! p') as [x|] eqn:Hx.
  2:{ apply lookup_ge_None in Hx. apply lookup_lt_Some in Hk. lia. }
  exists x. split; [done|].
  assert (c < x) as Hcx.
  { destruct (decide (c < x)); [done|]. exfalso.
    assert (x ≤ c) as Hle by lia. apply (Hsk _ _ Hx) in Hle. lia. }
  split; [done|]. split.
  { apply elem_of_positions. by eapply list_elem_of_lookup_2. }
  intros z [Hcz Hzx] Hz.
  apply elem_of_positions, list_elem_of_lookup_1 in Hz as [k' Hk'].
  destruct (decide (k' < p')) as [Hlt|Hge].
  - apply (Hsk _ _ Hk') in Hlt. lia.
  - destruct (decide (k' = p')) as [->|Hne].
    + rewrite Hx in Hk'. injection Hk' as ->. lia.
    + assert (x < z); [|lia]. eapply (sorted_lookup_lt _ p' k'); [done..|lia].
Qed.

(** ** Subsequences and first occurrences *)

Lemma sublist_after_prefix (v : Z) (rest l1 l2 : list Z) :
  v ∉ l1 → (v :: rest) `sublist_of` (l1 ++ v :: l2) → rest `sublist_of` l2.
Proof.
  induction l1 as [|a l1 IH]; simpl; intros Hnin Hsub.
  - apply sublist_cons_r in Hsub as [Hsub|(l' & [= <-] & Hsub)]; [|done].
    etrans; [|exact Hsub]. by apply sublist_cons.
  - apply not_elem_of_cons in Hnin as [Hne Hnin].
    apply sublist_cons_r in Hsub as [Hsub|(l' & [= <-] & Hsub)]; [auto|done].
Qed.

Lemma sublist_after_first (t : list Z) (v : Z) (rest : list Z) (lo x : nat) :
  (v :: rest) `sublist_of` drop lo t → lo ≤ x → t !! x = Some v →
  (∀ z, lo ≤ z < x → t !! z ≠ Some v) →
  rest `sublist_of` drop (S x) t.
Proof.
  intros Hsub Hlo Hx Hmin.
  assert (drop lo t = take (x - lo) (drop lo t) ++ v :: drop (S x) t) as Heq.
  { rewrite <- (take_drop_middle (drop lo t) (x - lo) v).
    - rewrite take_app_length' by (rewrite length_take; apply lookup_lt_Some in Hx;
        rewrite length_drop; lia).
      do 2 f_equal. rewrite drop_drop. f_equal. lia.
    - rewrite lookup_drop. by replace (lo + (x - lo)) with x by lia. }
  rewrite Heq in Hsub. eapply sublist_after_prefix; [|exact Hsub].
  intros Hin%list_elem_of_lookup_1. destruct Hin as [k Hk].
  apply lookup_take_Some in Hk as [Hk Hlt]. rewrite lookup_drop in Hk.
  apply (Hmin (lo + k)); [lia|done].
Qed.

(** ** One attempt of the pattern matcher *)

Section attempt.
Variables trace pattern : list Z.
Let buckets := fill_buckets trace (init_buckets pattern).

Lemma slot_bucket (j : nat) :
  j < length pattern →
  buckets !!! (pattern !!! j) = positions trace (pattern !!! j).
Proof.
  intros Hj. apply buckets_lookup.
  apply list_elem_of_lookup_total_2. done.
Qed.

Lemma match_slots_prefix (js pointers cur : list nat) :
  cur `prefix_of` at_current (match_slots buckets pattern js pointers cur).
Proof.
  revert pointers cur. induction js as [|j js IH]; intros pointers cur; simpl; [done|].
  destruct (_ !! _); simpl; [|done].
  etrans; [|apply IH]. by apply prefix_app_r.
Qed.

(** A valid attempt has found an occurrence of the whole pattern. *)
Lemma match_slots_sound (n : nat) (pointers cur : list nat) :
  length cur + n = length pattern →
  take (length cur) pattern `sublist_of` take (S (List.last cur 0)) trace →
  at_valid (match_slots buckets pattern (seq (length cur) n) pointers cur) = true →
  pattern `sublist_of` trace.
Proof.
  revert pointers cur. induction n as [|n IH]; intros pointers cur Hlen Hsub; simpl.
  - intros _. rewrite Nat.add_0_r in Hlen. rewrite Hlen, firstn_all in Hsub.
    etrans; [exact Hsub|]. apply sublist_take.
  - set (j := length cur) in *. set (c := List.last cur 0) in *.
    rewrite slot_bucket by lia.
    set (v := pattern !!! j). set (b := positions trace v).
    destruct (b !! advance b c (pointers !!! j)) as [idx|] eqn:Hidx; simpl; [|done].
    assert (c < idx) as Hc by (by eapply advance_stop).
    assert (trace !! idx = Some v) as Hv.
    { apply elem_of_positions. by eapply list_elem_of_lookup_2. }
    replace (S j) with (length (cur ++ [idx]))
      by (rewrite length_app; simpl; unfold j; lia).
    apply IH.
    + rewrite length_app. simpl. unfold j in *. lia.
    + rewrite last_last, length_app. simpl. rewrite Nat.add_1_r. fold j.
      rewrite (take_S_r pattern j v)
        by (apply list_lookup_lookup_total_lt; lia).
      rewrite (take_S_r trace idx v) by done.
      apply sublist_app; [|done].
      etrans; [exact Hsub|].
      replace (take (S c) trace) with (take (S c) (take idx trace))
        by (rewrite take_take; f_equal; lia).
      apply sublist_take.
Qed.

(** With all later pointers still at [0], the attempt is the greedy
    leftmost match: it succeeds whenever the rest of the pattern occurs
    after the last chosen position. *)
Lemma match_slots_complete (n : nat) (pointers cur : list nat) :
  length cur + n = length pattern →
  (∀ j, length cur ≤ j → pointers !!! j = 0) →
  drop (length cur) pattern `sublist_of` drop (S (List.last cur 0)) trace →
  let a := match_slots buckets pattern (seq (length cur) n) pointers cur in
  at_valid a = true ∧ length (at_current a) = length pattern.
Proof.
  revert pointers cur. induction n as [|n IH]; intros pointers cur Hlen Hptr Hsub; simpl.
  - split; [done|lia].
  - set (j := length cur) in *. set (c := List.last cur 0) in *.
    rewrite slot_bucket by lia.
    set (v := pattern !!! j).
    assert (pattern !! j = Some v) as Hj by (apply list_lookup_lookup_total_lt; lia).
    rewrite (drop_S _ _ _ Hj) in Hsub.
    assert (v ∈ drop (S c) trace) as Hin.
    { eapply elem_of_sublist; [|exact Hsub]. by left. }
    apply list_elem_of_lookup_1 in Hin as [k Hk]. rewrite lookup_drop in Hk.
    rewrite Hptr by done.
    destruct (advance_first trace v c (S c + k)) as (x & Hx & Hcx & Hxv & Hmin);
      [lia|done|].
    rewrite Hx.
    replace (S j) with (length (cur ++ [x]))
      by (rewrite length_app; simpl; unfold j; lia).
    apply IH.
    + rewrite length_app. simpl. unfold j in *. lia.
    + intros j'. rewrite length_app. simpl. fold j. intros Hj'.
      rewrite !list_lookup_total_insert_ne by lia. apply Hptr. lia.
    + rewrite last_last, length_app. simpl. rewrite Nat.add_1_r. fold j.
      eapply (sublist_after_first trace v _ (S c)); [exact Hsub|lia|done|].
      intros z Hz. apply Hmin. lia.
Qed.

Lemma start_step_mono (st : list nat * gset nat) (index : nat) :
  st.2 ⊆ (start_step buckets pattern st index).2.
Proof.
  unfold start_step. destruct (_ && _); simpl; set_solver.
Qed.

Lemma start_fold_mono (st : list nat * gset nat) (l : list nat) :
  st.2 ⊆ (foldl (start_step buckets pattern) st l).2.
Proof.
  revert st. induction l as [|x l IH]; intros st; simpl; [done|].
  etrans; [apply start_step_mono|apply IH].
Qed.

(** Without an occurrence of the pattern nothing is marked. *)
Lemma start_fold_none (st : list nat * gset nat) (l : list nat) :
  0 < length pattern → ¬ pattern `sublist_of` trace →
  (∀ x, x ∈ l → trace !! x = pattern !! 0) →
  (foldl (start_step buckets pattern) st l).2 = st.2.
Proof.
  intros Hne Hno. revert st.
  induction l as [|x l IH]; intros st Hl; simpl; [done|].
  rewrite IH by (intros y Hy; apply Hl; by right).
  unfold start_step.
  destruct (at_valid _) eqn:Hvalid; simpl; [|done].
  exfalso. apply Hno.
  destruct (lookup_lt_is_Some_2 pattern 0 Hne) as [p0 Hp0].
  assert (trace !! x = Some p0) as Hx by (rewrite <- Hp0; apply Hl; by left).
  eapply (match_slots_sound _ st.1 [x]); [| |exact Hvalid].
  - simpl. lia.
  - simpl. rewrite (take_S_r trace x p0) by done.
    rewrite (take_S_r pattern 0 p0) by done.
    apply sublist_inserts_l. done.
Qed.
End attempt.

Lemma positions_head_min (t : list Z) (v : Z) (x0 : nat) (b : list nat) :
  positions t v = x0 :: b → t !! x0 = Some v ∧ ∀ z, z < x0 → t !! z ≠ Some v.
Proof.
  intros Hb. split.
  - apply elem_of_positions. rewrite Hb. by left.
  - intros z Hz Hzv. apply elem_of_positions, list_elem_of_lookup_1 in Hzv as [k Hk].
    pose proof (positions_sorted t v) as Hs.
    destruct k as [|k].
    + rewrite Hb in Hk. simpl in Hk. injection Hk as ->. lia.
    + assert (x0 < z); [|lia].
      eapply (sorted_lookup_lt _ 0 (S k)); [exact Hs| |exact Hk|lia].
      by rewrite Hb.
Qed.

Lemma replicate_zero_total (n j : nat) : replicate n 0 !!! j = 0.
Proof.
  rewrite list_lookup_total_alt.
  destruct (replicate n 0 !! j) as [x|] eqn:E; [|done].
  by apply lookup_replicate in E as [-> _].
Qed.

Lemma pattern_to_remove_occurs (trace : list Z) (p0 : Z) (rest : list Z) :
  (p0 :: rest) `sublist_of` trace →
  ∃ x0, x0 ∈ pattern_to_remove trace (p0 :: rest) p0 ∧ x0 < length trace.
Proof.
  intros Hsub. unfold pattern_to_remove.
  set (pattern := p0 :: rest) in *.
  rewrite buckets_lookup by (by left).
  destruct (positions trace p0) as [|x0 b] eqn:Hb.
  { exfalso. assert (p0 ∈ trace) as Hin.
    { eapply elem_of_sublist; [|exact Hsub]. by left. }
    apply list_elem_of_lookup_1 in Hin as [k Hk].
    apply elem_of_positions in Hk. rewrite Hb in Hk. by apply elem_of_nil in Hk. }
  destruct (positions_head_min _ _ _ _ Hb) as [Hx0 Hmin].
  exists x0. split; [|by eapply lookup_lt_Some].
  cbn [foldl]. apply start_fold_mono. unfold start_step. cbn [fst snd].
  destruct (match_slots_complete trace pattern (length pattern - 1)
              (replicate (length pattern) 0) [x0]) as [Hvalid Hlen].
  - simpl. lia.
  - intros j _. apply replicate_zero_total.
  - simpl. eapply (sublist_after_first trace p0 rest 0); [done|lia|done|].
    intros z Hz. apply Hmin. lia.
  - change (length [x0]) with 1 in Hvalid, Hlen.
    rewrite Hvalid, Hlen, bool_decide_eq_true_2 by done. simpl.
    pose proof (match_slots_prefix trace pattern (seq 1 (length pattern - 1))
                  (replicate (length pattern) 0) [x0]) as [k Hk].
    simpl in Hk. rewrite Hk. set_solver.
Qed.

Lemma pattern_to_remove_absent (trace : list Z) (p0 : Z) (rest : list Z) :
  ¬ (p0 :: rest) `sublist_of` trace →
  pattern_to_remove trace (p0 :: rest) p0 = ∅.
Proof.
  intros Hno. unfold pattern_to_remove.
  rewrite start_fold_none; [done|simpl; lia|done|].
  intros x. rewrite buckets_lookup by (by left).
  by intros ?%elem_of_positions.
Qed.

(** C1.  For every trace and every pattern of length at least 2: when the
    pattern occurs in the trace as an order-preserving subsequence,
    [remove_pattern_from_trace] returns a residual strictly shorter than
    the trace; when it does not occur, the residual is the trace itself. *)
Theorem remove_pattern_shrinks_iff_occurs (trace pattern : list Z) :
  2 ≤ length pattern →
  (pattern `sublist_of` trace →
     ∃ residual, remove_pattern_from_trace trace pattern = Ok residual
                 ∧ length residual < length trace)
  ∧ (¬ pattern `sublist_of` trace →
     remove_pattern_from_trace trace pattern = Ok trace).
Proof.
  intros Hlen. destruct pattern as [|p0 rest]; [simpl in Hlen; lia|].
  unfold remove_pattern_from_trace. split.
  - intros Hsub. eexists. split; [done|].
    destruct (pattern_to_remove_occurs _ _ _ Hsub) as (x0 & Hin & Hlt).
    by eapply drop_positions_length_lt.
  - intros Hno. f_equal. rewrite pattern_to_remove_absent by done.
    apply drop_positions_id. set_solver.
Qed.

Lemma remove_pattern_shrinks_witness :
  ∃ residual, remove_pattern_from_trace [0; 0; 25]%Z [0; 25]%Z = Ok residual
              ∧ length residual < 3.
Proof.
  apply (remove_pattern_shrinks_iff_occurs [0; 0; 25]%Z [0; 25]%Z).
  - simpl. lia.
  - apply sublist_skip, sublist_cons, sublist_skip, sublist_nil_l.
Defined.

(** ** Binary pattern removal keeps the order *)

Lemma remove_binary_pattern_sublist (pair : Z * Z) (trace : list Z) :
  remove_binary_pattern pair trace `sublist_of` trace.
Proof. apply drop_positions_sublist. Qed.

Lemma remove_pattern_sublist (trace pattern residual : list Z) :
  remove_pattern_from_trace trace pattern = Ok residual →
  residual `sublist_of` trace.
Proof.
  unfold remove_pattern_from_trace. destruct pattern; [done|].
  intros [= <-]. apply drop_positions_sublist.
Qed.

(** ** The pairing discipline of the binary removal *)


Lemma binary_pairing_snoc (pair : Z * Z) (t : list Z) (x : Z) :
  binary_pairing pair (t ++ [x])
  = pairing_step (binary_pairing pair t) (length t, mark pair x).
Proof.
  unfold binary_pairing. rewrite imap_app, foldl_app. simpl.
  by rewrite Nat.add_0_r.
Qed.

Lemma positions_lt (t : list Z) (v : Z) :
  Forall (λ i, i < length t) (positions t v).
Proof.
  apply Forall_forall. intros i Hi%elem_of_positions. by eapply lookup_lt_Some.
Qed.

Lemma paired_snoc (ps bs : list nat) (f0 i : nat) :
  ps !! length bs = Some f0 →
  paired ps (bs ++ [i]) = paired ps bs ++ [f0; i].
Proof.
  intros Hf0. unfold paired. rewrite length_app. simpl. rewrite Nat.add_1_r.
  rewrite (take_S_r _ _ _ Hf0).
  rewrite zip_with_app by (rewrite length_take; apply lookup_lt_Some in Hf0; lia).
  simpl. rewrite join_app. simpl. done.
Qed.

Lemma paired_app_l (ps qs bs : list nat) :
  length bs ≤ length ps → paired (ps ++ qs) bs = paired ps bs.
Proof. intros Hle. unfold paired. by rewrite take_app_le. Qed.

Lemma binary_pairing_inv (pair : Z * Z) (t : list Z) :
  let ps := positions t pair.1 in
  let st := binary_pairing pair t in
  ∃ bs : list nat,
    length bs ≤ length ps
    ∧ firsthalf st = drop (length bs) ps
    ∧ toremove st = paired ps bs
    ∧ Forall2 lt (take (length bs) ps) bs
    ∧ Forall (λ y, t !! y = Some pair.2) bs.
Proof.
  induction t as [|x t IH] using rev_ind.
  - exists []. simpl. repeat split; constructor.
  - destruct IH as (bs & Hle & Hfh & Htr & Hlt & Hb). cbn zeta.
    rewrite binary_pairing_snoc, positions_snoc.
    set (ps := positions t pair.1) in *. set (st := binary_pairing pair t) in *.
    assert (Forall (λ y, (t ++ [x]) !! y = Some pair.2) bs) as Hb'.
    { eapply Forall_impl; [exact Hb|]. intros y Hy. simpl in Hy.
      rewrite lookup_app_l; [done|]. by eapply lookup_lt_Some. }
    unfold pairing_step, mark.
    destruct (decide (x = pair.1)) as [Hx|Hx].
    + rewrite (bool_decide_eq_true_2 _ Hx). simpl.
      exists bs. rewrite length_app. simpl. split_and!; try done.
      * lia.
      * rewrite drop_app_le by done. by rewrite Hfh.
      * by rewrite paired_app_l.
      * by rewrite take_app_le.
    + rewrite (bool_decide_eq_false_2 _ Hx), app_nil_r.
      destruct (decide (x = pair.2)) as [Hx2|Hx2].
      * rewrite (bool_decide_eq_true_2 _ Hx2). simpl.
        destruct (firsthalf st) as [|f0 fh] eqn:Hst; simpl.
        { exists bs. by rewrite Hst. }
        assert (ps !! length bs = Some f0) as Hf0.
        { rewrite <- (Nat.add_0_r (length bs)), <- lookup_drop, <- Hfh. done. }
        assert (f0 < length t) as Hf0lt.
        { pose proof (positions_lt t pair.1) as Hall. rewrite Forall_forall in Hall.
          apply Hall. by eapply list_elem_of_lookup_2. }
        apply Nat.ltb_lt in Hf0lt as Hf0b. rewrite Hf0b. simpl.
        exists (bs ++ [length t]). rewrite length_app. simpl. rewrite Nat.add_1_r.
        split_and!.
        -- by eapply lookup_lt_Some.
        -- rewrite (drop_S _ _ _ Hf0) in Hfh. by injection Hfh.
        -- rewrite Htr. symmetry. by apply paired_snoc.
        -- rewrite (take_S_r _ _ _ Hf0). apply Forall2_app; [done|].
           by repeat constructor.
        -- apply Forall_app. split; [done|]. repeat constructor.
           rewrite lookup_app_r, Nat.sub_diag by done. simpl. by f_equal.
      * rewrite (bool_decide_eq_false_2 _ Hx2). simpl. by exists bs.
Qed.

(** C3 (amended).  [remove_binary_pattern] pairs first come, first served:
    with [ps] the occurrences of the first half [a] in trace order, the
    marked positions are the first [k] of them, each followed by the
    occurrence of [b] that took it, and the pending first halves left at
    the end are the remaining ones.  So a [b] that meets several pending
    [a] consumes the earliest, never the most recent. *)
Theorem remove_binary_pattern_pairs_earliest_pending (pair : Z * Z) (trace : list Z) :
  let ps := positions trace pair.1 in
  let st := binary_pairing pair trace in
  ∃ bs : list nat,
    length bs ≤ length ps
    ∧ toremove st = mjoin (zip_with (λ x y, [x; y]) (take (length bs) ps) bs)
    ∧ firsthalf st = drop (length bs) ps
    ∧ Forall2 lt (take (length bs) ps) bs
    ∧ Forall (λ y, trace !! y = Some pair.2) bs
    ∧ remove_binary_pattern pair trace
      = drop_positions (list_to_set (take (length bs) ps ++ bs)) trace.
Proof.
  destruct (binary_pairing_inv pair trace) as (bs & Hle & Hfh & Htr & Hlt & Hb).
  exists bs. split_and!; try done.
  unfold remove_binary_pattern. f_equal. rewrite Htr. unfold paired.
  apply Forall2_length in Hlt. revert Hlt.
  generalize (take (length bs) (positions trace pair.1)). intros l. clear.
  revert bs. induction l as [|a l IH]; intros [|b bs] Hlen; simpl in *; try done.
  injection Hlen as Hlen. specialize (IH bs Hlen).
  rewrite list_to_set_app_L in *. rewrite !list_to_set_cons. rewrite IH.
  apply set_eq. intros z. rewrite !elem_of_union. tauto.
Qed.

Lemma remove_binary_pattern_not_lifo :
  toremove (binary_pairing (0, 25)%Z [0; 7; 0; 25]%Z) = [0; 3]
  ∧ remove_binary_pattern (0, 25)%Z [0; 7; 0; 25]%Z = [7; 0]%Z
  ∧ remove_binary_pattern_lifo (0, 25)%Z [0; 7; 0; 25]%Z = [0; 7]%Z
  ∧ remove_binary_pattern (0, 25)%Z [0; 7; 0; 25]%Z
    ≠ remove_binary_pattern_lifo (0, 25)%Z [0; 7; 0; 25]%Z.
Proof. vm_compute. split_and!; done. Qed.

(** ** The causal pairs *)


Lemma isCausal_true (a b : Z) (sd : gmap Z node_info) :
  isCausal a b sd = true ↔ b ∈ successors_of sd a ∨ a ∈ successors_of sd b.
Proof.
  unfold isCausal.
  destruct (bool_decide (b ∈ successors_of sd a)) eqn:E1;
    destruct (bool_decide (a ∈ successors_of sd b)) eqn:E2; simpl;
    try apply bool_decide_eq_true_1 in E1; try apply bool_decide_eq_true_1 in E2;
    try apply bool_decide_eq_false_1 in E1; try apply bool_decide_eq_false_1 in E2;
    split; try done; tauto.
Qed.

Lemma isCausal_sym (a b : Z) (sd : gmap Z node_info) :
  isCausal a b sd = isCausal b a sd.
Proof.
  apply eq_true_iff_eq. rewrite !isCausal_true. tauto.
Qed.

Lemma elem_of_index_pairs (n i j : nat) : (i, j) ∈ index_pairs n ↔ i < j < n.
Proof.
  unfold index_pairs. rewrite list_elem_of_bind. split.
  - intros (i' & Hj & Hi'). apply elem_of_seq in Hi'.
    apply list_elem_of_fmap in Hj as (j' & [= -> ->] & Hj'). apply elem_of_seq in Hj'. lia.
  - intros Hij. exists i. split; [|apply elem_of_seq; lia].
    apply list_elem_of_fmap. exists j. split; [done|]. apply elem_of_seq. lia.
Qed.

Lemma causal_step_elem (indices : list Z) (sd : gmap Z node_info)
    (S0 : gset (Z * Z)) (i j : nat) (a b : Z) :
  (a, b) ∈ causal_step indices sd S0 (i, j) ↔
  (a, b) ∈ S0
  ∨ (isCausal (indices !!! i) (indices !!! j) sd = true
     ∧ ((a, b) = (indices !!! i, indices !!! j)
        ∨ (a, b) = (indices !!! j, indices !!! i))).
Proof.
  unfold causal_step. cbn [fst snd].
  rewrite <- (isCausal_sym (indices !!! i) (indices !!! j)).
  destruct (isCausal _ _ sd).
  - rewrite !elem_of_union, !elem_of_singleton. tauto.
  - split; [by left|]. by intros [?|[? _]].
Qed.

Lemma causal_fold_elem (indices : list Z) (sd : gmap Z node_info)
    (l : list (nat * nat)) (S0 : gset (Z * Z)) (a b : Z) :
  (a, b) ∈ foldl (causal_step indices sd) S0 l ↔
  (a, b) ∈ S0
  ∨ ∃ i j, (i, j) ∈ l ∧ isCausal (indices !!! i) (indices !!! j) sd = true
           ∧ ((a, b) = (indices !!! i, indices !!! j)
              ∨ (a, b) = (indices !!! j, indices !!! i)).
Proof.
  revert S0. induction l as [|[i j] l IH]; intros S0; simpl.
  - split; [auto|]. intros [?|(i & j & Hin & _)]; [done|]. by apply elem_of_nil in Hin.
  - rewrite IH, causal_step_elem. split.
    + intros [[?|[Hc Hab]]|(i' & j' & Hin & Hc & Hab)]; [by left|right..].
      * exists i, j. split_and!; [by left|done..].
      * exists i', j'. split_and!; [by right|done..].
    + intros [?|(i' & j' & Hin & Hc & Hab)]; [by left; left|].
      apply elem_of_cons in Hin as [[= -> ->]|Hin].
      * left. right. done.
      * right. exists i', j'. done.
Qed.

(** C4 (amended).  [(a, b)] is returned by [find_causal_pairs] exactly when
    [a] and [b] stand at two different places of the index list and are
    linked in one direction or the other: [b] is a successor of [a], or
    [a] is a successor of [b]. *)
Theorem find_causal_pairs_spec (indices : list Z) (sd : gmap Z node_info) (a b : Z) :
  (a, b) ∈ find_causal_pairs indices sd ↔
  (b ∈ successors_of sd a ∨ a ∈ successors_of sd b)
  ∧ ∃ i j, i ≠ j ∧ indices !! i = Some a ∧ indices !! j = Some b.
Proof.
  unfold find_causal_pairs. rewrite causal_fold_elem. split.
  - intros [Hin|(i & j & Hij%elem_of_index_pairs & Hc & Hab)];
      [by apply not_elem_of_empty in Hin|].
    assert (indices !! i = Some (indices !!! i)) as Hi
      by (apply list_lookup_lookup_total_lt; lia).
    assert (indices !! j = Some (indices !!! j)) as Hj
      by (apply list_lookup_lookup_total_lt; lia).
    apply isCausal_true in Hc.
    destruct Hab as [[= -> ->]|[= -> ->]].
    + split; [done|]. exists i, j. split_and!; [lia|done..].
    + split; [tauto|]. exists j, i. split_and!; [lia|done..].
  - intros [Hc (i & j & Hne & Hi & Hj)]. right.
    apply list_lookup_total_correct in Hi as Hi', Hj as Hj'.
    apply lookup_lt_Some in Hi, Hj.
    destruct (decide (i < j)).
    + exists i, j. rewrite elem_of_index_pairs, isCausal_true, Hi', Hj'.
      split_and!; [lia..|done|by left].
    + exists j, i. rewrite elem_of_index_pairs, isCausal_true, Hi', Hj'.
      split_and!; [lia..|tauto|by right].
Qed.

Lemma find_causal_pairs_reversed_pair :
  (25, 0)%Z ∈ find_causal_pairs [0; 25]%Z sd_request_response
  ∧ 0%Z ∉ successors_of sd_request_response 25%Z.
Proof. split; vm_compute; [done|]. by intros ?%elem_of_nil. Qed.

(** ** The decomposition search *)

Arguments new_Node : simpl never.
Arguments remove_binary_pattern : simpl never.
Arguments calculate_acceptance_ratio : simpl never.

Lemma ratio_bounds (a b : nat) :
  a ≤ b → 0 < b →
  let q := (Q2Qc (inject_Z (Z.of_nat a)) / Q2Qc (inject_Z (Z.of_nat b)))%Qc in
  (0 ≤ 1 - q)%Qc ∧ (1 - q ≤ 1)%Qc.
Proof.
  intros Hab Hb q.
  assert (this q == Z.of_nat a # Pos.of_nat b)%Q as Hq.
  { unfold q, Qcdiv, Qcmult, Qcinv, Q2Qc. cbn [this].
    rewrite !Qred_correct. rewrite Qmake_Qdiv.
    replace (Z.pos (Pos.of_nat b)) with (Z.of_nat b) by lia. reflexivity. }
  unfold Qcle, Qcminus, Qcplus, Qcopp, Q2Qc. cbn [this].
  rewrite !Qred_correct, Hq.
  unfold Qle, Qplus, Qopp. cbn [Qnum Qden]. split; lia.
Qed.

Lemma calculate_acceptance_ratio_ok (rem trace : list Z) :
  trace ≠ [] → length rem ≤ length trace →
  ∃ r, calculate_acceptance_ratio rem trace = Ok r ∧ (0 ≤ r)%Qc ∧ (r ≤ 1)%Qc.
Proof.
  intros Hne Hle. unfold calculate_acceptance_ratio, py_truediv.
  assert (0 < length trace) as Hpos by (destruct trace; [done|simpl; lia]).
  rewrite bool_decide_eq_false_2 by lia. simpl.
  eexists. split; [done|]. by apply ratio_bounds.
Qed.

Lemma calculate_acceptance_ratio_empty (rem : list Z) :
  calculate_acceptance_ratio rem [] = Raise ZeroDivisionError.
Proof. done. Qed.

Lemma new_Node_fields (h : store) (rt : list Z) (up : list (Z * Z)) (un : option loc) :
  remaining_trace (new_Node h rt up un).1 = rt
  ∧ used_pairs (new_Node h rt up un).1 = up.
Proof.
  unfold new_Node. destruct un as [l|]; [destruct (deref h l)|]; done.
Qed.

Lemma spawns_mono (ps ps' : list (Z * Z)) (node child : Node) :
  ps ⊆ ps' → spawns ps node child → spawns ps' node child.
Proof. intros Hsub (pair & Hin & H). exists pair. split; [by apply Hsub|done]. Qed.

Lemma spawns_shorter (ps : list (Z * Z)) (node child : Node) :
  spawns ps node child →
  remaining_trace child `sublist_of` remaining_trace node
  ∧ length (remaining_trace child) < length (remaining_trace node).
Proof.
  intros (pair & _ & Hrt & Hne & _).
  assert (remaining_trace child `sublist_of` remaining_trace node) as Hsub
    by (rewrite Hrt; apply remove_binary_pattern_sublist).
  split; [done|]. apply sublist_length in Hsub. lia.
Qed.

Section calls.
Variables e1 e2 : Node → search → result search.

(** The loops call [explore] on spawned children only. *)
Lemma pairs_loop_ext (node : Node) (value : Z) (ps : list (Z * Z))
    (flag : nat) (s : search) :
  (∀ child s, spawns ps node child → e1 child s = e2 child s) →
  pairs_loop e1 node value ps flag s = pairs_loop e2 node value ps flag s.
Proof.
  revert flag s. induction ps as [|p ps IH]; intros flag s Hext; [done|].
  assert (∀ flag s, pairs_loop e1 node value ps flag s
                    = pairs_loop e2 node value ps flag s) as IH'.
  { intros. apply IH. intros child s' Hsp. apply Hext.
    eapply spawns_mono; [|exact Hsp]. by apply list_subseteq_cons. }
  simpl. destruct (bool_decide (p.1 = value)); [|apply IH'].
  destruct (_ || _); [apply IH'|].
  destruct (bool_decide (length _ = _)) eqn:Hlen; [apply IH'|].
  apply bool_decide_eq_false_1 in Hlen.
  pose proof (new_Node_fields (heap s) (remove_binary_pattern p (remaining_trace node))
                (used_pairs node ++ [p]) (Some (used_nodes node))) as [Hrt Hup].
  destruct (new_Node _ _ _ _) as [child h]. simpl in Hrt, Hup. cbv beta iota.
  rewrite Hext. 2:{ exists p. rewrite Hrt, Hup. split_and!; [by left|done..]. }
  destruct (e2 child _); simpl; [apply IH'|done..].
Qed.

Lemma values_loop_ext (cp : list (Z * Z)) (node : Node) (vs seen : list Z)
    (flag : nat) (s : search) :
  (∀ child s, spawns cp node child → e1 child s = e2 child s) →
  values_loop cp e1 node vs seen flag s = values_loop cp e2 node vs seen flag s.
Proof.
  intros Hext. revert seen flag s.
  induction vs as [|v vs IH]; intros seen flag s; [done|].
  simpl. destruct (bool_decide (v ∈ _)); [apply IH|].
  destruct (bool_decide (v ∈ seen)); [apply IH|].
  rewrite (pairs_loop_ext node v cp flag s Hext).
  destruct (pairs_loop e2 node v cp flag s) as [[flag' s']| |]; simpl; [|done..].
  destruct (bool_decide (flag' = 1)); [done|apply IH].
Qed.

Lemma explore_body_ext (cp : list (Z * Z)) (trace : list Z) (node : Node) (s : search) :
  (∀ child s, spawns cp node child → e1 child s = e2 child s) →
  explore_body cp trace e1 node s = explore_body cp trace e2 node s.
Proof.
  intros Hext. unfold explore_body. by rewrite (values_loop_ext cp node _ _ _ _ Hext).
Qed.
End calls.

(** More fuel than the length of the remaining trace is always enough. *)
Lemma explore_node_fuel (cp : list (Z * Z)) (trace : list Z) (fuel1 fuel2 : nat)
    (node : Node) (s : search) :
  length (remaining_trace node) < fuel1 → length (remaining_trace node) < fuel2 →
  explore_node cp trace fuel1 node s = explore_node cp trace fuel2 node s.
Proof.
  revert fuel2 node s. induction fuel1 as [|fuel1 IH]; intros fuel2 node s H1 H2; [lia|].
  destruct fuel2 as [|fuel2]; [lia|]. simpl.
  apply explore_body_ext. intros child s' [_ Hlt]%spawns_shorter.
  apply IH; lia.
Qed.

Section scores.
Variable e : Node → search → result search.
Variable trace : list Z.
Hypothesis trace_nonempty : trace ≠ [].

Lemma pairs_loop_ok (node : Node) (value : Z) (ps : list (Z * Z))
    (flag : nat) (s : search) :
  (∀ child s, spawns ps node child → all_scores_in_unit s →
              ∃ s', e child s = Ok s' ∧ all_scores_in_unit s') →
  all_scores_in_unit s →
  ∃ flag' s', pairs_loop e node value ps flag s = Ok (flag', s')
              ∧ all_scores_in_unit s'.
Proof.
  revert flag s. induction ps as [|p ps IH]; intros flag s He Hs; [by eexists _, _|].
  assert (∀ flag s, all_scores_in_unit s →
            ∃ flag' s', pairs_loop e node value ps flag s = Ok (flag', s')
                        ∧ all_scores_in_unit s') as IH'.
  { intros. apply IH; [|done]. intros child s' Hsp. apply He.
    eapply spawns_mono; [|exact Hsp]. by apply list_subseteq_cons. }
  simpl. destruct (bool_decide (p.1 = value)); [|by apply IH'].
  destruct (_ || _); [by apply IH'|].
  destruct (bool_decide (length _ = _)) eqn:Hlen; [by apply IH'|].
  apply bool_decide_eq_false_1 in Hlen.
  pose proof (new_Node_fields (heap s) (remove_binary_pattern p (remaining_trace node))
                (used_pairs node ++ [p]) (Some (used_nodes node))) as [Hrt Hup].
  destruct (new_Node _ _ _ _) as [child h]. simpl in Hrt, Hup. cbv beta iota.
  edestruct (He child) as (s' & -> & Hs'); [|exact Hs|].
  { exists p. rewrite Hrt, Hup. split_and!; [by left|done..]. }
  simpl. by apply IH'.
Qed.

Lemma values_loop_ok (cp : list (Z * Z)) (node : Node) (vs seen : list Z)
    (flag : nat) (s : search) :
  (∀ child s, spawns cp node child → all_scores_in_unit s →
              ∃ s', e child s = Ok s' ∧ all_scores_in_unit s') →
  all_scores_in_unit s →
  ∃ flag' s', values_loop cp e node vs seen flag s = Ok (flag', s')
              ∧ all_scores_in_unit s'.
Proof.
  intros He. revert seen flag s.
  induction vs as [|v vs IH]; intros seen flag s Hs; [by eexists _, _|].
  simpl. destruct (bool_decide (v ∈ _)); [by apply IH|].
  destruct (bool_decide (v ∈ seen)); [by apply IH|].
  destruct (pairs_loop_ok node v cp flag s He Hs) as (flag' & s' & -> & Hs').
  simpl. destruct (bool_decide (flag' = 1)); [by eexists _, _|by apply IH].
Qed.

Lemma explore_body_ok (cp : list (Z * Z)) (node : Node) (s : search) :
  (∀ child s, spawns cp node child → all_scores_in_unit s →
              ∃ s', e child s = Ok s' ∧ all_scores_in_unit s') →
  length (remaining_trace node) ≤ length trace →
  all_scores_in_unit s →
  ∃ s', explore_body cp trace e node s = Ok s' ∧ all_scores_in_unit s'.
Proof.
  intros He Hlen Hs. unfold explore_body.
  destruct (values_loop_ok cp node (remaining_trace node) [] 0 s He Hs)
    as (flag' & s' & -> & Hs').
  simpl. destruct (bool_decide (flag' = 0)); [|by eexists].
  destruct (calculate_acceptance_ratio_ok (remaining_trace node) trace)
    as (r & -> & Hr); [done..|].
  simpl. eexists. split; [done|].
  apply Forall_app. split; [done|]. apply Forall_cons. split; [exact Hr|constructor].
Qed.
End scores.

Lemma explore_node_ok (cp : list (Z * Z)) (trace : list Z) (fuel : nat)
    (node : Node) (s : search) :
  trace ≠ [] →
  length (remaining_trace node) < fuel →
  length (remaining_trace node) ≤ length trace →
  all_scores_in_unit s →
  ∃ s', explore_node cp trace fuel node s = Ok s' ∧ all_scores_in_unit s'.
Proof.
  intros Hne. revert node s.
  induction fuel as [|fuel IH]; intros node s Hfuel Hlen Hs; [lia|].
  simpl. apply explore_body_ok; [done| |done..].
  intros child s' [_ Hlt]%spawns_shorter Hs'. apply IH; [lia..|done].
Qed.

Lemma search_node_sublist (cp : list (Z * Z)) (trace : list Z) (node : Node) :
  search_node cp trace node → remaining_trace node `sublist_of` trace.
Proof.
  induction 1 as [root Hrt _|node child _ IH Hsp].
  - by rewrite Hrt.
  - apply spawns_shorter in Hsp as [Hsub _]. by etrans.
Qed.

Lemma explore_root_fuel (cp : list (Z * Z)) (trace : list Z) (fuel1 fuel2 : nat) :
  length trace < fuel1 → length trace < fuel2 →
  explore_root cp trace fuel1 = explore_root cp trace fuel2.
Proof. intros H1 H2. unfold explore_root. simpl. by apply explore_node_fuel. Qed.

Lemma explore_root_ok (cp : list (Z * Z)) (trace : list Z) (fuel : nat) :
  trace ≠ [] → length trace < fuel →
  ∃ s, explore_root cp trace fuel = Ok s ∧ all_scores_in_unit s.
Proof.
  intros Hne Hfuel. unfold explore_root. simpl.
  apply explore_node_ok; [done..|constructor].
Qed.

(** C10.  The score of a leaf is [1 - len(remaining) / len(trace)] with an
    unguarded division.  For a non-empty trace the search returns, with
    any fuel above the length of the trace, and every recorded score lies
    in [[0, 1]]; for the empty trace the scoring expression, and with it
    the whole search, raises ZeroDivisionError. *)
Theorem acceptance_ratio_needs_nonempty_trace
    (iter_values : gset Z → list Z) (iter_pairs : gset (Z * Z) → list (Z * Z))
    (trace : list Z) (sd : gmap Z node_info) :
  (trace ≠ [] →
     ∃ rs, (∀ fuel, length trace < fuel →
              find_binary_pattern iter_values iter_pairs fuel trace sd = Ok rs)
           ∧ Forall score_in_unit rs)
  ∧ (∀ remaining, calculate_acceptance_ratio remaining [] = Raise ZeroDivisionError)
  ∧ (∀ fuel, 0 < fuel →
       find_binary_pattern iter_values iter_pairs fuel [] sd
       = Raise ZeroDivisionError).
Proof.
  split_and!.
  - intros Hne. unfold find_binary_pattern.
    set (cp := iter_pairs _).
    destruct (explore_root_ok cp trace (S (length trace)) Hne) as (s & Hs & Hgood); [lia|].
    exists (routes s). split; [|done].
    intros fuel Hfuel.
    rewrite (explore_root_fuel cp trace fuel (S (length trace))) by lia.
    by rewrite Hs.
  - done.
  - intros [|fuel] Hfuel; [lia|]. done.
Qed.

Lemma acceptance_ratio_nonempty_witness :
  ∃ rs, (∀ fuel, 4 < fuel →
           find_binary_pattern elements elements fuel [0; 25; 0; 25]%Z
                               sd_request_response = Ok rs)
        ∧ Forall score_in_unit rs.
Proof.
  apply (acceptance_ratio_needs_nonempty_trace elements elements
           [0; 25; 0; 25]%Z sd_request_response).
  done.
Defined.

(** C6.  The residual of a pattern removal is a subsequence of its input,
    for [remove_pattern_from_trace] and for [remove_binary_pattern]; so
    the remaining trace of every node of the search is a subsequence of
    the original trace, the nodes being the root and the spawned children,
    which are the only nodes [explore_node] calls itself on. *)
Theorem residual_is_subsequence :
  (∀ trace pattern residual,
     remove_pattern_from_trace trace pattern = Ok residual →
     residual `sublist_of` trace)
  ∧ (∀ pair trace, remove_binary_pattern pair trace `sublist_of` trace)
  ∧ (∀ causal_pairs trace node,
       search_node causal_pairs trace node →
       remaining_trace node `sublist_of` trace)
  ∧ (∀ causal_pairs trace e1 e2 node s,
       (∀ child s', spawns causal_pairs node child → e1 child s' = e2 child s') →
       explore_body causal_pairs trace e1 node s
       = explore_body causal_pairs trace e2 node s).
Proof.
  split_and!.
  - apply remove_pattern_sublist.
  - apply remove_binary_pattern_sublist.
  - apply search_node_sublist.
  - intros. by apply explore_body_ext.
Qed.

Lemma residual_is_subsequence_witness :
  [0%Z] `sublist_of` [0; 0; 25]%Z
  ∧ remaining_trace (MkNode [0%Z] [(0, 25)%Z] None 0) `sublist_of` [0; 0; 25]%Z.
Proof.
  destruct residual_is_subsequence as (Hpat & _ & Hnode & _). split.
  - apply (Hpat [0; 0; 25]%Z [0; 25]%Z). vm_compute. reflexivity.
  - apply (Hnode [(0, 25)%Z]).
    apply (search_child _ _ (MkNode [0; 0; 25]%Z [] None 0)).
    + by apply search_root.
    + exists (0, 25)%Z. split_and!; [by left|vm_compute; reflexivity|simpl; lia|done].
Defined.

(** ** Scenario 5 *)

Lemma causal_pairs_request_response (l : list Z) (sd : gmap Z node_info) :
  25%Z ∈ successors_of sd 0%Z →
  l = [0; 25]%Z ∨ l = [25; 0]%Z →
  find_causal_pairs l sd = {[ (0, 25)%Z; (25, 0)%Z ]}.
Proof.
  intros Hsucc Hl.
  assert (isCausal 0 25 sd = true) as H1 by (apply isCausal_true; by left).
  assert (isCausal 25 0 sd = true) as H2 by (apply isCausal_true; by right).
  apply set_eq. intros [a b].
  destruct Hl as [-> | ->]; unfold find_causal_pairs, causal_step; simpl;
    change ([0%Z; 25%Z] !!! 0) with 0%Z; change ([0%Z; 25%Z] !!! 1) with 25%Z;
    change ([25%Z; 0%Z] !!! 0) with 25%Z; change ([25%Z; 0%Z] !!! 1) with 0%Z;
    rewrite H1, H2, !elem_of_union, !elem_of_singleton;
    pose proof (not_elem_of_empty (C:=gset (Z * Z)) (a, b)); tauto.
Qed.

(** C5 (amended).  For the trace [0, 25, 0, 25] and any successor map in
    which 25 is a successor of 0, whatever the order in which the sets are
    enumerated, the search records exactly one route: the applied-pattern
    list [(0, 25)], one application having removed both occurrences, with
    acceptance ratio 1. *)
Theorem decomposition_of_two_round_trips
    (iter_values : gset Z → list Z) (iter_pairs : gset (Z * Z) → list (Z * Z))
    (sd : gmap Z node_info) (fuel : nat) :
  (∀ s, iter_values s ≡ₚ elements s) →
  (∀ s, iter_pairs s ≡ₚ elements s) →
  25%Z ∈ successors_of sd 0%Z →
  4 < fuel →
  find_binary_pattern iter_values iter_pairs fuel [0; 25; 0; 25]%Z sd
  = Ok [([(0, 25)%Z], 1%Qc)].
Proof.
  intros Hv Hp Hsucc Hfuel. unfold find_binary_pattern.
  rewrite (causal_pairs_request_response _ sd Hsucc).
  2:{ specialize (Hv (list_to_set [0; 25; 0; 25]%Z)).
      vm_compute (elements _) in Hv. symmetry in Hv.
      apply Permutation_length_2_inv in Hv. tauto. }
  specialize (Hp {[ (0, 25)%Z; (25, 0)%Z ]}).
  vm_compute (elements _) in Hp. symmetry in Hp.
  rewrite (explore_root_fuel _ _ fuel 5) by (simpl; lia).
  apply Permutation_length_2_inv in Hp as [-> | ->]; vm_compute; reflexivity.
Qed.

Lemma decomposition_of_two_round_trips_witness :
  find_binary_pattern elements elements 5 [0; 25; 0; 25]%Z sd_request_response
  = Ok [([(0, 25)%Z], 1%Qc)].
Proof.
  apply (decomposition_of_two_round_trips elements elements sd_request_response 5).
  - done.
  - done.
  - vm_compute. by left.
  - lia.
Defined.

Lemma decomposition_applies_the_pair_once :
  find_binary_pattern elements elements 5 [0; 25; 0; 25]%Z sd_request_response
  ≠ Ok [([(0, 25)%Z; (0, 25)%Z], 1%Qc)]
  ∧ routes <$> explore_root [(0, 25)%Z] [0; 25; 0; 25]%Z 5
    ≠ Ok [([(0, 25)%Z; (0, 25)%Z], 1%Qc)]
  ∧ routes <$> explore_root [(0, 25)%Z] [0; 25; 0; 25]%Z 5
    = Ok [([(0, 25)%Z], 1%Qc)].
Proof. vm_compute. split_and!; [intros [=]..|reflexivity]. Qed.

(** ** Sharing of the consumed-values list *)

(** C2 (the code at a node below the root).  The node holds the remaining
    trace [3, 4, 3, 5] and the consumed values [1, 2]; both (3, 4) and
    (3, 5) apply to it.  Its child shares its list of consumed values, so
    after the first child was explored the node's own list reads
    [1, 2, 3, 4], the sibling (3, 5) is passed over, and one route is
    recorded where two were to be expected. *)
Theorem explore_child_marks_reach_the_parent :
  let causal_pairs := [(1, 2); (3, 4); (3, 5)]%Z in
  let trace := [1; 2; 3; 4; 3; 5]%Z in
  let node := MkNode [3; 4; 3; 5]%Z [(1, 2)%Z] None 1 in
  let s := MkSearch [[]; [1; 2]%Z] [] in
  used_nodes (new_Node (heap s) [3; 5]%Z [(1, 2); (3, 4)]%Z (Some (used_nodes node))).1
    = used_nodes node
  ∧ remove_binary_pattern (3, 5)%Z (remaining_trace node) = [4; 3]%Z
  ∧ deref (heap s) (used_nodes node) = [1; 2]%Z
  ∧ explore_node causal_pairs trace 5 node s
    = Ok (MkSearch [[]; [1; 2; 3; 4]%Z] [([(1, 2); (3, 4)]%Z, Q2Qc (2 # 3))])
  ∧ explore_root causal_pairs trace 7
    = Ok (MkSearch [[]; [1; 2; 3; 4]%Z] [([(1, 2); (3, 4)]%Z, Q2Qc (2 # 3))])
  ∧ find_binary_pattern elements elements 7 trace sd_two_answers
    = Ok [([(1, 2); (3, 5)]%Z, Q2Qc (2 # 3))].
Proof. vm_compute. split_and!; reflexivity. Qed.

(** ** The passes of the ratio scorer *)

Arguments remove_pattern_from_trace : simpl never.

Lemma skip_scan_fresh (pattern : list Z) (st : bool * nat) :
  foldl (skip_scan ∅) st pattern = st.
Proof.
  revert st. induction pattern as [|num pattern IH]; intros st; simpl; [done|].
  unfold skip_scan at 2. rewrite decide_False by apply not_elem_of_empty. apply IH.
Qed.

Lemma score_ok (orphans original : nat) :
  ∃ r, (if bool_decide (original ≠ 0)
        then q ← py_truediv (Z.of_nat orphans) (Z.of_nat original); Ok (1 - q)%Qc
        else Ok 0%Qc) = Ok r.
Proof.
  destruct (bool_decide (original ≠ 0)) eqn:E; [|by eexists].
  apply bool_decide_eq_true_1 in E. unfold py_truediv.
  rewrite bool_decide_eq_false_2 by lia. by eexists.
Qed.

Section pass.
Variable patterns : list (list Z).

(** What a pass that ran to its end did to the pass variables. *)
Lemma pass_loop_grows (pointers : list nat) (st st' : pass) :
  pass_loop patterns pointers st = Ok st' →
  patterns_to_remove st ⊆ patterns_to_remove st'
  ∧ ∃ more, pattern_acceptance_ratios st' = pattern_acceptance_ratios st ++ more.
Proof.
  revert st. induction pointers as [|pointer pointers IH]; intros st; simpl.
  - intros [= <-]. split; [done|]. exists []. by rewrite app_nil_r.
  - destruct (patterns !! pointer) as [pattern|]; [|done].
    destruct (foldl _ _ pattern) as [b c].
    destruct (b && (c <=? 15)).
    { intros H. apply IH in H. done. }
    destruct b.
    { intros [= <-]. simpl. split; [done|]. exists []. by rewrite app_nil_r. }
    destruct (remove_pattern_from_trace _ _) as [updated| |]; simpl; [|done..].
    destruct (score_ok (count_sum updated pattern)
                (count_sum (pass_trace st) pattern)) as [r ->]. simpl.
    intros H. apply IH in H as [Hsub [more Hmore]]. simpl in *. split.
    + etrans; [|exact Hsub]. apply union_subseteq_l.
    + eexists. rewrite Hmore, <- app_assoc. done.
Qed.

Lemma pass_loop_never_out_of_fuel (pointers : list nat) (st : pass) :
  pass_loop patterns pointers st ≠ OutOfFuel.
Proof.
  revert st. induction pointers as [|pointer pointers IH]; intros st; simpl; [done|].
  destruct (patterns !! pointer) as [pattern|]; [|done].
  destruct (foldl _ _ pattern) as [b c].
  destruct (b && (c <=? 15)); [apply IH|].
  destruct b; [done|].
  unfold remove_pattern_from_trace. destruct pattern; simpl; [done|].
  destruct (score_ok (count_sum (drop_positions
              (pattern_to_remove (pass_trace st) (z :: pattern) z) (pass_trace st))
              (z :: pattern)) (count_sum (pass_trace st) (z :: pattern))) as [r ->].
  simpl. apply IH.
Qed.

Lemma pass_loop_returns (pointers : list nat) (st : pass) :
  Forall (λ pattern, pattern ≠ []) patterns →
  Forall (λ pointer, pointer < length patterns) pointers →
  ∃ st', pass_loop patterns pointers st = Ok st'.
Proof.
  intros Hpat. revert st.
  induction pointers as [|pointer pointers IH]; intros st Hptr; simpl; [by eexists|].
  apply Forall_cons in Hptr as [Hlt Hptr].
  destruct (lookup_lt_is_Some_2 patterns pointer Hlt) as [pattern Hpattern].
  rewrite Hpattern.
  destruct (foldl _ _ pattern) as [b c].
  destruct (b && (c <=? 15)); [by apply IH|].
  destruct b; [by eexists|].
  assert (pattern ≠ []) as Hne.
  { rewrite Forall_forall in Hpat. apply Hpat. by eapply list_elem_of_lookup_2. }
  unfold remove_pattern_from_trace. destruct pattern; [done|]. simpl.
  destruct (score_ok (count_sum (drop_positions
              (pattern_to_remove (pass_trace st) (z :: pattern) z) (pass_trace st))
              (z :: pattern)) (count_sum (pass_trace st) (z :: pattern))) as [r ->].
  simpl. by apply IH.
Qed.

(** The first pending pattern of a pass is scored and leaves the pointers. *)
Lemma one_pass_first (trace : list Z) (pointer : nat) (pointers : list nat)
    (ratios : list (list Z * Qc)) (pointers' : list nat)
    (ratios' : list (list Z * Qc)) :
  one_pass trace patterns (pointer :: pointers) ratios = Ok (pointers', ratios') →
  (pointer ∉ pointers')
  ∧ length pointers' < length (pointer :: pointers)
  ∧ ∃ pattern r more,
      patterns !! pointer = Some pattern
      ∧ ratios' = ratios ++ (pattern, r) :: (pattern, r) :: more.
Proof.
  unfold one_pass. simpl.
  destruct (patterns !! pointer) as [pattern|]; [|done]. simpl.
  rewrite skip_scan_fresh. simpl.
  destruct (remove_pattern_from_trace trace pattern) as [updated| |]; simpl; [|done..].
  destruct (score_ok (count_sum updated pattern) (count_sum trace pattern)) as [r ->].
  simpl.
  destruct (pass_loop patterns pointers _) as [st'| |] eqn:Hloop; simpl; [|done..].
  intros [= <- <-]. apply pass_loop_grows in Hloop as [Hsub [more Hmore]].
  simpl in Hsub, Hmore.
  assert (pointer ∈ patterns_to_remove st') as Hin.
  { apply Hsub. apply elem_of_union_r. by apply elem_of_singleton. }
  split_and!.
  - intros [Hnot _]%list_elem_of_filter. done.
  - rewrite filter_cons_False by (intros Hnot; by apply Hnot).
    simpl. pose proof (length_filter (λ p, p ∉ patterns_to_remove st') pointers). lia.
  - exists pattern, r, more. split; [done|]. rewrite Hmore, <- app_assoc. done.
Qed.

Lemma one_pass_shrinks (trace : list Z) (pointer : nat) (pointers : list nat)
    (ratios : list (list Z * Qc)) (pointers' : list nat)
    (ratios' : list (list Z * Qc)) :
  one_pass trace patterns (pointer :: pointers) ratios = Ok (pointers', ratios') →
  length pointers' ≤ length pointers
  ∧ pointers' ⊆ pointer :: pointers.
Proof.
  intros H. pose proof (one_pass_first _ _ _ _ _ _ H) as (_ & Hlt & _).
  simpl in Hlt. split; [lia|].
  unfold one_pass in H. destruct (pass_loop _ _ _); simpl in H; [|done..].
  injection H as <- _. intros x Hx%list_elem_of_filter. tauto.
Qed.

Lemma while_pointers_fuel (trace : list Z) (fuel fuel' : nat) (pointers : list nat)
    (ratios : list (list Z * Qc)) :
  length pointers ≤ fuel → length pointers ≤ fuel' →
  while_pointers fuel trace patterns pointers ratios ≠ OutOfFuel
  ∧ while_pointers fuel' trace patterns pointers ratios
    = while_pointers fuel trace patterns pointers ratios.
Proof.
  revert fuel' pointers ratios.
  induction fuel as [|fuel IH]; intros fuel' pointers ratios Hf Hf'.
  - destruct pointers; [|simpl in Hf; lia]. by destruct fuel'.
  - destruct pointers as [|pointer pointers]; [by destruct fuel'|].
    destruct fuel' as [|fuel']; [simpl in Hf'; lia|]. simpl.
    destruct (one_pass trace patterns (pointer :: pointers) ratios)
      as [[pointers' ratios']| |] eqn:Hpass; simpl; [|done|].
    + apply one_pass_shrinks in Hpass as [Hlen _]. simpl in Hf, Hf'.
      apply IH; lia.
    + exfalso. unfold one_pass in Hpass.
      pose proof (pass_loop_never_out_of_fuel (pointer :: pointers)
                    (Pass ∅ trace ∅ false 0 ratios)) as Hno.
      destruct (pass_loop _ _ _); simpl in Hpass; done.
Qed.

Lemma while_pointers_returns (trace : list Z) (fuel : nat) (pointers : list nat)
    (ratios : list (list Z * Qc)) :
  Forall (λ pattern, pattern ≠ []) patterns →
  Forall (λ pointer, pointer < length patterns) pointers →
  length pointers ≤ fuel →
  ∃ rs, while_pointers fuel trace patterns pointers ratios = Ok rs.
Proof.
  intros Hpat. revert pointers ratios.
  induction fuel as [|fuel IH]; intros pointers ratios Hptr Hf.
  - destruct pointers; [by eexists|simpl in Hf; lia].
  - destruct pointers as [|pointer pointers]; [by eexists|]. simpl.
    destruct (pass_loop_returns (pointer :: pointers)
                (Pass ∅ trace ∅ false 0 ratios) Hpat Hptr) as [st' Hst'].
    destruct (one_pass trace patterns (pointer :: pointers) ratios)
      as [[pointers' ratios']| |] eqn:Hpass.
    + simpl. apply one_pass_shrinks in Hpass as [Hlen Hsub]. simpl in Hf.
      apply IH; [|lia].
      rewrite Forall_forall in Hptr |- *. intros x Hx. apply Hptr, Hsub, Hx.
    + unfold one_pass in Hpass. rewrite Hst' in Hpass. done.
    + unfold one_pass in Hpass. rewrite Hst' in Hpass. done.
Qed.
End pass.

(** C9.  [find_acceptance_ratios] terminates.  A pass that runs to its end
    scores the first pending pattern (its entry is appended to the
    ratios), removes its pointer, and leaves strictly fewer pointers; so
    [length patterns] passes are always enough: with that much fuel or
    more the result is the same and is never [OutOfFuel], and it is a
    value when no pattern is empty. *)
Theorem find_acceptance_ratios_terminates (trace : list Z) (patterns : list (list Z)) :
  (∀ pointer pointers ratios pointers' ratios',
     one_pass trace patterns (pointer :: pointers) ratios = Ok (pointers', ratios') →
     (pointer ∉ pointers')
     ∧ length pointers' < length (pointer :: pointers)
     ∧ ∃ pattern r more,
         patterns !! pointer = Some pattern
         ∧ ratios' = ratios ++ (pattern, r) :: (pattern, r) :: more)
  ∧ (∃ r, r ≠ OutOfFuel
          ∧ ∀ fuel, length patterns ≤ fuel →
                    find_acceptance_ratios fuel trace patterns = r)
  ∧ (Forall (λ pattern, pattern ≠ []) patterns →
     ∃ rs, ∀ fuel, length patterns ≤ fuel →
                   find_acceptance_ratios fuel trace patterns = Ok rs).
Proof.
  split_and!.
  - apply one_pass_first.
  - exists (find_acceptance_ratios (length patterns) trace patterns).
    unfold find_acceptance_ratios. split.
    + apply (while_pointers_fuel patterns trace _ (length patterns));
        by rewrite length_seq.
    + intros fuel Hfuel. apply while_pointers_fuel; by rewrite length_seq.
  - intros Hpat.
    destruct (while_pointers_returns patterns trace (length patterns)
                (seq 0 (length patterns)) [] Hpat) as [rs Hrs].
    + apply Forall_forall. intros x Hx%elem_of_seq. lia.
    + by rewrite length_seq.
    + exists rs. intros fuel Hfuel. unfold find_acceptance_ratios. rewrite <- Hrs.
      apply while_pointers_fuel; by rewrite length_seq.
Qed.

Lemma find_acceptance_ratios_terminates_witness :
  ∃ rs, ∀ fuel, 3 ≤ fuel →
    find_acceptance_ratios fuel [0; 25; 0; 25; 1; 2]%Z
                           [[0; 25]; [25; 1]; [1; 2]]%Z = Ok rs.
Proof.
  apply (find_acceptance_ratios_terminates [0; 25; 0; 25; 1; 2]%Z
           [[0; 25]; [25; 1]; [1; 2]]%Z).
  repeat constructor; done.
Defined.

(** ** The causality graph *)

Lemma traverse_ok {A B} (f : A → result B) (l : list A) (ys : list B) :
  traverse f l = Ok ys ↔ Forall2 (λ x y, f x = Ok y) l ys.
Proof.
  revert ys. induction l as [|x l IH]; intros ys; simpl.
  - split; [intros [= <-]; constructor|by intros ->%Forall2_nil_inv_l].
  - destruct (f x) as [y| |] eqn:Hx; simpl.
    + destruct (traverse f l) as [ys'| |]; simpl.
      * split.
        -- intros [= <-]. constructor; [done|]. by apply IH.
        -- intros (y' & ys'' & Hy & Hys & ->)%Forall2_cons_inv_l.
           rewrite Hx in Hy. injection Hy as <-. apply IH in Hys. by injection Hys as ->.
      * split; [done|].
        intros (y' & ys'' & _ & Hys & _)%Forall2_cons_inv_l. by apply IH in Hys.
      * split; [done|].
        intros (y' & ys'' & _ & Hys & _)%Forall2_cons_inv_l. by apply IH in Hys.
    + split; [done|]. intros (y' & ys'' & Hy & _)%Forall2_cons_inv_l. by rewrite Hx in Hy.
    + split; [done|]. intros (y' & ys'' & Hy & _)%Forall2_cons_inv_l. by rewrite Hx in Hy.
Qed.

Lemma section_nodes_elem (section : list string) (S0 : gset Z) (z : Z) :
  section_nodes section = Ok S0 →
  z ∈ S0 ↔ ∃ line, line ∈ section ∧ line ≠ ""%string ∧ line_index line = Ok z.
Proof.
  unfold section_nodes.
  destruct (traverse line_index _) as [l| |] eqn:Hl; simpl; [|done..].
  intros [= <-]. apply traverse_ok in Hl. rewrite elem_of_list_to_set. split.
  - intros [i Hi]%list_elem_of_lookup_1.
    destruct (Forall2_lookup_r _ _ _ _ _ Hl Hi) as (line & Hline & Hz).
    apply list_elem_of_lookup_2, list_elem_of_filter in Hline as [Hne Hin].
    by exists line.
  - intros (line & Hin & Hne & Hz).
    assert (line ∈ filter (λ line, line ≠ ""%string) section) as Hf
      by (by apply list_elem_of_filter).
    apply list_elem_of_lookup_1 in Hf as [i Hi].
    destruct (Forall2_lookup_l _ _ _ _ _ Hl Hi) as (z' & Hz' & Hfz).
    rewrite Hz in Hfz. injection Hfz as <-. by eapply list_elem_of_lookup_2.
Qed.

Lemma successors_of_insert_fresh (sd : gmap Z node_info) (j k : Z) (s d : string) :
  sd !! j = None →
  successors_of (<[j := NodeInfo s d []]> sd) k = successors_of sd k.
Proof.
  intros Hj. unfold successors_of. destruct (decide (k = j)) as [->|Hne].
  - by rewrite lookup_insert_eq, Hj.
  - by rewrite lookup_insert_ne.
Qed.

(** [if key not in successors_dict: successors_dict[key] = {.., 'successors': []}] *)
Lemma successors_of_setdefault (sd : gmap Z node_info) (j k : Z) (s d : string) :
  successors_of (match sd !! j with
                 | None => <[j := NodeInfo s d []]> sd
                 | Some _ => sd
                 end) k = successors_of sd k.
Proof.
  destruct (sd !! j) eqn:Hj; [done|]. by apply successors_of_insert_fresh.
Qed.

Lemma setdefault_is_Some (sd : gmap Z node_info) (j k : Z) (s d : string) :
  is_Some (sd !! k) ∨ k = j →
  is_Some (match sd !! j with
           | None => <[j := NodeInfo s d []]> sd
           | Some _ => sd
           end !! k).
Proof.
  intros Hk. destruct (sd !! j) eqn:Hj.
  - destruct Hk as [?| ->]; [done|]. by rewrite Hj.
  - destruct (decide (k = j)) as [->|Hne].
    + rewrite lookup_insert_eq. by eexists.
    + rewrite lookup_insert_ne by done. by destruct Hk.
Qed.

Section graph.
Variables initial terminating : gset Z.

Lemma inner_fold_elem (index : Z) (dest : string) (ms : list message)
    (st : list (Z * Z) * gmap Z node_info) (k j : Z) :
  is_Some (st.2 !! index) →
  j ∈ successors_of (foldl (inner_step initial terminating index dest) st ms).2 k ↔
  j ∈ successors_of st.2 k
  ∨ (k = index ∧ (index ∉ terminating) ∧ (j ∉ initial)
     ∧ ∃ s d, (j, s, d) ∈ ms ∧ dest = s).
Proof.
  revert st. induction ms as [|[[j' s] d] ms IH]; intros st Hidx; cbn [foldl].
  - split; [by left|]. intros [?|(_ & _ & _ & s & d & Hin & _)]; [done|].
    by apply elem_of_nil in Hin.
  - unfold inner_step at 2.
    destruct (bool_decide (dest = s) && bool_decide (index ∉ terminating)
              && bool_decide (j' ∉ initial)) eqn:Hc.
    + apply andb_prop in Hc as [Hc Hj'%bool_decide_eq_true_1].
      apply andb_prop in Hc as [Hd%bool_decide_eq_true_1 Ht%bool_decide_eq_true_1].
      destruct Hidx as [info Hinfo].
      rewrite IH; cbn [snd].
      2:{ apply setdefault_is_Some. left. rewrite lookup_alter_eq, Hinfo. by eexists. }
      rewrite successors_of_setdefault.
      assert (successors_of (alter (λ info, NodeInfo (info_src info) (info_dest info)
                               (successors info ++ [j'])) index st.2) k
              = successors_of st.2 k ++ (if decide (k = index) then [j'] else []))
        as ->.
      { unfold successors_of. destruct (decide (k = index)) as [->|Hne].
        - rewrite lookup_alter_eq, Hinfo. done.
        - rewrite lookup_alter_ne by done. by rewrite app_nil_r. }
      rewrite elem_of_app. split.
      * intros [[?|Hin]|(-> & ? & ? & s' & d' & Hin & ?)].
        -- by left.
        -- destruct (decide (k = index)) as [->|]; [|by apply elem_of_nil in Hin].
           apply list_elem_of_singleton in Hin as ->. right.
           split_and!; [done..|]. exists s, d. split; [by left|done].
        -- right. split_and!; [done..|]. exists s', d'. split; [by right|done].
      * intros [?|(-> & ? & ? & s' & d' & Hin & ?)]; [by left; left|].
        apply elem_of_cons in Hin as [[= -> -> ->]|Hin].
        -- left. right. rewrite decide_True by done. by left.
        -- right. split_and!; [done..|]. by exists s', d'.
    + rewrite IH by done. split.
      * intros [?|(-> & ? & ? & s' & d' & Hin & ?)]; [by left|].
        right. split_and!; [done..|]. exists s', d'. split; [by right|done].
      * intros [?|(-> & Ht & Hj & s' & d' & Hin & Hd)]; [by left|].
        apply elem_of_cons in Hin as [[= -> -> ->]|Hin].
        -- exfalso. rewrite !bool_decide_eq_true_2 in Hc by done. done.
        -- right. split_and!; [done..|]. by exists s', d'.
Qed.

Lemma outer_fold_elem (messages ms : list message)
    (st : list (Z * Z) * gmap Z node_info) (k j : Z) :
  j ∈ successors_of (foldl (outer_step initial terminating messages) st ms).2 k ↔
  j ∈ successors_of st.2 k
  ∨ ((k ∉ terminating) ∧ (j ∉ initial)
     ∧ ∃ sk dk sj dj, (k, sk, dk) ∈ ms ∧ (j, sj, dj) ∈ messages ∧ dk = sj).
Proof.
  revert st. induction ms as [|[[index s0] d0] ms IH]; intros st; cbn [foldl].
  - split; [by left|]. intros [?|(_ & _ & sk & dk & sj & dj & Hin & _)]; [done|].
    by apply elem_of_nil in Hin.
  - rewrite IH. unfold outer_step.
    rewrite inner_fold_elem by (apply setdefault_is_Some; by right).
    cbn [snd]. rewrite successors_of_setdefault. split.
    + intros [[?|(-> & Ht & Hj & s & d & Hin & ->)]|(Ht & Hj & sk & dk & sj & dj & Hk & Hin & ->)].
      * by left.
      * right. split_and!; [done..|]. exists s0, s, s, d. split_and!; [by left|done..].
      * right. split_and!; [done..|]. exists sk, sj, sj, dj. split_and!; [by right|done..].
    + intros [?|(Ht & Hj & sk & dk & sj & dj & Hk & Hin & Heq)]; [by left; left|].
      apply elem_of_cons in Hk as [Hk|Hk].
      * injection Hk as -> -> ->. left. right. split_and!; [done..|]. by exists sj, dj.
      * right. split_and!; [done..|]. by exists sk, dk, sj, dj.
Qed.
End graph.

Lemma successors_dict_elem (initial terminating : gset Z) (messages : list message)
    (i j : Z) :
  j ∈ successors_of
        (foldl (outer_step initial terminating messages) ([], ∅) messages).2 i ↔
  ∃ si di sj dj, (i, si, di) ∈ messages ∧ (j, sj, dj) ∈ messages
                 ∧ di = sj ∧ (i ∉ terminating) ∧ (j ∉ initial).
Proof.
  rewrite outer_fold_elem. simpl. split.
  - intros [Hin|(Ht & Hj & sk & dk & sj & dj & Hk & Hin & Heq)].
    + unfold successors_of in Hin. rewrite lookup_empty in Hin.
      by apply elem_of_nil in Hin.
    + by exists sk, dk, sj, dj.
  - intros (si & di & sj & dj & Hi & Hj & Heq & Ht & Hin). right.
    split_and!; [done..|]. by exists si, di, sj, dj.
Qed.

Lemma edge_index_Ok (edges tensor : list (Z * Z)) :
  edge_index edges = Ok tensor →
  tensor = edges ∧ Forall (λ e, fits_long e.1 ∧ fits_long e.2) edges.
Proof.
  unfold edge_index. destruct (decide _) as [Hfits|]; [|done]. by intros [= <-].
Qed.

(** C7.  When [construct_causality_graph] returns, its initial set is the
    set of indices of the lines of the first section, its terminating set
    that of the last section, and [j] is among the successors of [i]
    exactly when some message with index [i] has the destination that a
    message with index [j] has as source, [i] is not terminating and [j]
    is not initial; [i = j] is not excluded.  With one definition per
    index this reads: for every two messages, [j] is in [succ(i)] iff
    [dest(i) = src(j)], [i] is not terminating and [j] is not initial. *)
Theorem construct_causality_graph_spec (messages : list message)
    (sections : list (list string)) (g : graph) :
  construct_causality_graph messages sections = Ok g →
  (∀ z, z ∈ initial_nodes g ↔
        ∃ first line, head sections = Some first ∧ line ∈ first
                      ∧ line ≠ ""%string ∧ line_index line = Ok z)
  ∧ (∀ z, z ∈ terminating_nodes g ↔
          ∃ final line, last sections = Some final ∧ line ∈ final
                        ∧ line ≠ ""%string ∧ line_index line = Ok z)
  ∧ (∀ i j, j ∈ successors_of (successors_dict g) i ↔
            ∃ si di sj dj, (i, si, di) ∈ messages ∧ (j, sj, dj) ∈ messages
                           ∧ di = sj ∧ (i ∉ terminating_nodes g)
                           ∧ (j ∉ initial_nodes g))
  ∧ (unique_indices messages →
     ∀ i si di j sj dj,
       (i, si, di) ∈ messages → (j, sj, dj) ∈ messages →
       j ∈ successors_of (successors_dict g) i ↔
       di = sj ∧ (i ∉ terminating_nodes g) ∧ (j ∉ initial_nodes g)).
Proof.
  unfold construct_causality_graph.
  destruct (head sections) as [first|] eqn:Hfirst; [|done].
  destruct (last sections) as [final|] eqn:Hfinal; [|done].
  destruct (section_nodes first) as [initial| |] eqn:Hinit; simpl; [|done..].
  destruct (section_nodes final) as [terminating| |] eqn:Hterm; simpl; [|done..].
  destruct (edge_index _) as [tensor| |] eqn:Htensor; simpl; [|done..].
  intros [= <-]. simpl. split_and!.
  - intros z. rewrite (section_nodes_elem _ _ z Hinit). split.
    + intros (line & ?). by exists first, line.
    + intros (first' & line & [= <-] & ?). by exists line.
  - intros z. rewrite (section_nodes_elem _ _ z Hterm). split.
    + intros (line & ?). by exists final, line.
    + intros (final' & line & [= <-] & ?). by exists line.
  - intros i j. by apply successors_dict_elem.
  - intros Huniq i si di j sj dj Hi Hj. rewrite successors_dict_elem. split.
    + intros (si' & di' & sj' & dj' & Hi' & Hj' & Heq & Ht & Hin).
      destruct (Huniq _ _ _ _ _ Hi Hi') as [_ ->].
      destruct (Huniq _ _ _ _ _ Hj Hj') as [-> _]. done.
    + intros (Heq & Ht & Hin). by exists si, di, sj, dj.
Qed.

Lemma construct_causality_graph_witness :
  ∃ g, construct_causality_graph
         [(0%Z, "cpu", "cache"); (25%Z, "cache", "cpu"); (7%Z, "cpu", "cpu")]%string
         [["0:cpu:cache:req"]; ["7:cpu:cpu:req"]; ["25:cache:cpu:resp"]]%string = Ok g
       ∧ 7%Z ∈ successors_of (successors_dict g) 7%Z
       ∧ 0%Z ∉ successors_of (successors_dict g) 7%Z.
Proof.
  pose proof (construct_causality_graph_spec
     [(0%Z, "cpu", "cache"); (25%Z, "cache", "cpu"); (7%Z, "cpu", "cpu")]%string
     [["0:cpu:cache:req"]; ["7:cpu:cpu:req"]; ["25:cache:cpu:resp"]]%string) as Hspec.
  destruct (construct_causality_graph _ _) as [g| |] eqn:Hg;
    [|vm_compute in Hg; discriminate Hg..].
  exists g. split; [reflexivity|].
  destruct (Hspec g eq_refl) as (_ & _ & Hsucc & _).
  vm_compute in Hg. injection Hg as <-. split.
  - apply Hsucc.
    exists "cpu"%string, "cpu"%string, "cpu"%string, "cpu"%string.
    split_and!; [| |done|vm_compute; intros [=]|vm_compute; intros [=]].
    + do 2 right. left.
    + do 2 right. left.
  - vm_compute. intros H. inversion H as [|? ? ? H']. inversion H'.
Defined.

(** ** The readers on malformed input *)

Lemma py_int_cases (s : string) : (∃ z, py_int s = Ok z) ∨ py_int s = Raise ValueError.
Proof.
  unfold py_int.
  destruct (int_strip s) as [|c l'];
    [|destruct (bool_decide (c = "-"%char)); [|destruct (bool_decide (c = "+"%char))]];
    (destruct (digits_go _ 0 false); [|by right]);
    destruct (int_max_str_digits <? _); (left; by eexists) || by right.
Qed.

Lemma traverse_raises {A B} (f : A → result B) (e : exn) (l : list A) :
  (∀ x, (∃ y, f x = Ok y) ∨ f x = Raise e) →
  Exists (λ x, f x = Raise e) l → traverse f l = Raise e.
Proof.
  intros Hf. induction l as [|x l IH]; intros Hex; [by apply Exists_nil in Hex|].
  simpl. destruct (Hf x) as [[y Hy]|Hr]; [|by rewrite Hr]. rewrite Hy. simpl.
  apply Exists_cons in Hex as [Hx|Hex]; [by rewrite Hy in Hx|].
  by rewrite IH.
Qed.

Lemma traverse_returns {A B} (f : A → result B) (l : list A) :
  Forall (λ x, ∃ y, f x = Ok y) l →
  ∃ ys, traverse f l = Ok ys ∧ Forall2 (λ x y, f x = Ok y) l ys.
Proof.
  induction 1 as [|x l [y Hy] _ (ys & Hys & Hall)]; [by exists []|].
  exists (y :: ys). simpl. rewrite Hy, Hys. split; [done|]. by constructor.
Qed.

Lemma group_line_skipped (gi : gmap (string * string) (list Z)) (line : string) :
  skipped_line line → group_line gi line = Ok gi.
Proof.
  unfold skipped_line, line_fields, group_line.
  intros [Hc|[Hb|Hn]].
  - by rewrite Hc.
  - rewrite Hb. done.
  - destruct (startswith _ _); [done|]. destruct (bool_decide _); [|done].
    destruct (strip <$> split ":" (strip line)) as [|? [|? [|? [|? [|? ?]]]]]; done.
Qed.

Lemma group_line_bad (gi : gmap (string * string) (list Z)) (line : string) :
  bad_index_line line → group_line gi line = Raise ValueError.
Proof.
  unfold bad_index_line, skipped_line, line_fields, group_line.
  intros [Hns (index & Hhead & Hint)].
  destruct (startswith _ _); [exfalso; apply Hns; by left|].
  destruct (decide (strip line = ""%string)) as [He|He]; [exfalso; apply Hns; tauto|].
  rewrite bool_decide_eq_true_2 by done.
  destruct (strip <$> split ":" (strip line)) as [|? [|? [|? [|? [|? ?]]]]];
    try (exfalso; apply Hns; right; right; simpl; lia).
  simpl in Hhead. injection Hhead as ->. by rewrite Hint.
Qed.

Lemma group_line_cases (gi : gmap (string * string) (list Z)) (line : string) :
  (∃ gi', group_line gi line = Ok gi') ∨ group_line gi line = Raise ValueError.
Proof.
  unfold group_line. destruct (startswith _ _); [left; by eexists|].
  destruct (bool_decide _); [|left; by eexists].
  destruct (strip <$> split ":" (strip line)) as [|index [|? [|? [|? [|? ?]]]]];
    try (left; by eexists).
  destruct (py_int_cases index) as [[z ->]| ->]; [left; by eexists|by right].
Qed.

Lemma group_lines_app (gi : gmap (string * string) (list Z)) (l1 l2 : list string) :
  group_lines gi (l1 ++ l2) = gi' ← group_lines gi l1; group_lines gi' l2.
Proof.
  revert gi. induction l1 as [|line l1 IH]; intros gi; simpl; [done|].
  destruct (group_line gi line); simpl; [apply IH|done..].
Qed.

Lemma group_lines_bad (gi : gmap (string * string) (list Z)) (lines : list string) :
  Exists bad_index_line lines → group_lines gi lines = Raise ValueError.
Proof.
  revert gi. induction lines as [|line lines IH]; intros gi Hex;
    [by apply Exists_nil in Hex|].
  simpl. apply Exists_cons in Hex as [Hbad|Hex].
  - by rewrite group_line_bad.
  - destruct (group_line_cases gi line) as [[gi' ->]| ->]; [|done]. simpl. by apply IH.
Qed.

Lemma group_lines_returns (gi : gmap (string * string) (list Z)) (lines : list string) :
  Forall (λ line, ¬ bad_index_line line) lines →
  ∃ gi', group_lines gi lines = Ok gi'.
Proof.
  intros Hall. revert gi.
  induction Hall as [|line lines Hline _ IH]; intros gi; [by eexists|].
  simpl. destruct (group_line gi line) as [gi'|e|] eqn:Hl; simpl; [apply IH|exfalso..].
  - apply Hline. revert Hl. unfold bad_index_line, skipped_line, line_fields, group_line.
    destruct (startswith _ _); [done|].
    destruct (bool_decide (strip line ≠ ""%string)) eqn:Hb; [|done].
    apply bool_decide_eq_true_1 in Hb.
    destruct (strip <$> split ":" (strip line)) as [|index [|? [|? [|? [|? ?]]]]];
      try done.
    destruct (py_int_cases index) as [[z Hz]|Hz]; rewrite Hz; [done|].
    intros _. split; [|by exists index].
    intros [?|[?|Hn]]; [done..|]. simpl in Hn. lia.
  - destruct (group_line_cases gi line) as [[gi' Hgi]|Hgi]; by rewrite Hgi in Hl.
Qed.

(** C8 (amended).  [read_trace_from_file] returns the integers of a content
    whose tokens are all accepted by [int] (an optional sign and decimal
    digits, no more of them than the limit of 4300) and raises ValueError
    as soon as [int] refuses one.  Group extraction passes over comments,
    blank lines and lines that do not have exactly four fields, the result
    being the same as without them; a four-field line whose index [int]
    refuses makes it raise ValueError, and without such a line it
    returns. *)
Theorem readers_on_malformed_input :
  (∀ content,
     let tokens := split_ws (strip content) in
     (Forall (λ t, ∃ z, py_int t = Ok z) tokens →
        ∃ l, read_trace_from_file content = Ok l
             ∧ Forall2 (λ t z, py_int t = Ok z) tokens l)
     ∧ (Exists (λ t, py_int t = Raise ValueError) tokens →
        read_trace_from_file content = Raise ValueError))
  ∧ (∀ lines1 line lines2,
       skipped_line line →
       extract_groups_from_lines (lines1 ++ line :: lines2)
       = extract_groups_from_lines (lines1 ++ lines2))
  ∧ (∀ lines,
       (Exists bad_index_line lines →
          extract_groups_from_lines lines = Raise ValueError)
       ∧ (Forall (λ line, ¬ bad_index_line line) lines →
          ∃ groups, extract_groups_from_lines lines = Ok groups)).
Proof.
  split_and!.
  - intros content tokens. unfold read_trace_from_file. fold tokens. split.
    + apply traverse_returns.
    + apply traverse_raises, py_int_cases.
  - intros lines1 line lines2 Hskip. unfold extract_groups_from_lines.
    rewrite !group_lines_app.
    destruct (group_lines ∅ lines1) as [gi| |]; simpl; [|done..].
    by rewrite group_line_skipped.
  - intros lines. unfold extract_groups_from_lines. split.
    + intros Hbad. by rewrite group_lines_bad.
    + intros Hok. destruct (group_lines_returns ∅ lines Hok) as [gi ->].
      simpl. by eexists.
Qed.

Lemma readers_on_malformed_input_witness :
  (∃ l, read_trace_from_file "0 25 0 25" = Ok l
        ∧ Forall2 (λ t z, py_int t = Ok z) (split_ws (strip "0 25 0 25")) l)
  ∧ extract_groups_from_lines ["0:cpu0:cache0:req"; "not a definition"; "25:cache0:cpu0:resp"]%string
    = extract_groups_from_lines ["0:cpu0:cache0:req"; "25:cache0:cpu0:resp"]%string
  ∧ extract_groups_from_lines ["0:cpu0:cache0:req"; "x:cache0:cpu0:resp"]%string
    = Raise ValueError.
Proof.
  destruct readers_on_malformed_input as (Htrace & Hskip & Hgroups). split_and!.
  - apply (Htrace "0 25 0 25"%string). vm_compute.
    repeat constructor; by eexists.
  - apply (Hskip ["0:cpu0:cache0:req"%string] "not a definition"%string
                 ["25:cache0:cpu0:resp"%string]).
    right. right. vm_compute. lia.
  - apply (Hgroups ["0:cpu0:cache0:req"; "x:cache0:cpu0:resp"]%string).
    apply Exists_cons. right. apply Exists_cons. left.
    split.
    + intros [H|[H|H]]; vm_compute in H; [done..|lia].
    + exists "x"%string. split; vm_compute; reflexivity.
Defined.

Lemma readers_raise_on_malformed_input :
  read_trace_from_file "0 x 25" = Raise ValueError
  ∧ extract_groups_from_msg_file "0:cpu0:cache0:req
x:cache0:cpu0:resp
" = Raise ValueError.
Proof. vm_compute. split; reflexivity. Qed.

(** ** What the pattern matcher leaves alone *)

Lemma buckets_lookup_total (t pattern : list Z) (v : Z) :
  fill_buckets t (init_buckets pattern) !!! v
  = if decide (v ∈ pattern) then positions t v else [].
Proof.
  destruct (decide (v ∈ pattern)) as [Hin|Hnin]; [by apply buckets_lookup|].
  rewrite lookup_total_alt, fill_buckets_lookup.
  unfold init_buckets. rewrite init_buckets_lookup, decide_False by done.
  by rewrite lookup_empty.
Qed.

Lemma bucket_entry (t pattern : list Z) (v : Z) (k idx : nat) :
  (fill_buckets t (init_buckets pattern) !!! v) !! k = Some idx →
  ∃ w, w ∈ pattern ∧ t !! idx = Some w.
Proof.
  rewrite buckets_lookup_total. destruct (decide (v ∈ pattern)) as [Hin|Hnin].
  - intros Hk%list_elem_of_lookup_2%elem_of_positions. by exists v.
  - by rewrite lookup_nil.
Qed.

Lemma match_slots_values (t pattern : list Z) (js pointers cur : list nat) :
  Forall (λ i, ∃ w, w ∈ pattern ∧ t !! i = Some w) cur →
  Forall (λ i, ∃ w, w ∈ pattern ∧ t !! i = Some w)
         (at_current (match_slots (fill_buckets t (init_buckets pattern))
                                  pattern js pointers cur)).
Proof.
  revert pointers cur. induction js as [|j js IH]; intros pointers cur Hcur; simpl; [done|].
  destruct (_ !! _) as [idx|] eqn:Hidx; simpl; [|done].
  apply IH, Forall_app. split; [done|].
  apply Forall_singleton. by eapply bucket_entry.
Qed.

Lemma pattern_to_remove_values (t pattern : list Z) (p0 : Z) (i : nat) :
  i ∈ pattern_to_remove t pattern p0 → ∃ w, w ∈ pattern ∧ t !! i = Some w.
Proof.
  unfold pattern_to_remove.
  assert (∀ l st,
    (∀ x, x ∈ l → ∃ w, w ∈ pattern ∧ t !! x = Some w) →
    (∀ x, x ∈ st.2 → ∃ w, w ∈ pattern ∧ t !! x = Some w) →
    i ∈ (foldl (start_step (fill_buckets t (init_buckets pattern)) pattern) st l).2 →
    ∃ w, w ∈ pattern ∧ t !! i = Some w) as Hfold.
  { induction l as [|x l IH]; intros st Hl Hst; simpl; [by apply Hst|].
    apply IH; [intros y Hy; apply Hl; by right|].
    unfold start_step. intros y.
    destruct (_ && _); simpl; [|by apply Hst].
    rewrite elem_of_union, elem_of_list_to_set. intros [Hy|Hy]; [by apply Hst|].
    assert (Forall (λ i, ∃ w, w ∈ pattern ∧ t !! i = Some w)
              (at_current (match_slots (fill_buckets t (init_buckets pattern))
                 pattern (seq 1 (length pattern - 1)) st.1 [x]))) as Hall.
    { apply match_slots_values, Forall_singleton, Hl. by left. }
    rewrite Forall_forall in Hall. by apply Hall. }
  apply Hfold.
  - intros x [k Hk]%list_elem_of_lookup_1. by eapply bucket_entry.
  - intros x Hx. by apply not_elem_of_empty in Hx.
Qed.

Lemma drop_positions_keeps (P : Z → Prop) `{!∀ v, Decision (P v)}
    (S0 : gset nat) (t : list Z) :
  (∀ i v, i ∈ S0 → t !! i = Some v → ¬ P v) →
  filter P (drop_positions S0 t) = filter P t.
Proof.
  induction t as [|x t IH] using rev_ind; intros HS; [done|].
  rewrite drop_positions_snoc, !filter_app. f_equal.
  - apply IH. intros i v Hi Hv. apply (HS i v Hi). by rewrite lookup_app_l
      by (by eapply lookup_lt_Some).
  - destruct (decide (length t ∈ S0)) as [Hin|]; [|done].
    rewrite filter_cons_False, filter_nil; [done|].
    apply (HS (length t) x Hin). by rewrite lookup_app_r, Nat.sub_diag.
Qed.

(** X1.  [remove_pattern_from_trace] removes occurrences of the pattern's
    own values only: the elements of the trace whose value is not in the
    pattern all survive, in their order. *)
Theorem remove_pattern_keeps_other_values (trace pattern residual : list Z) :
  remove_pattern_from_trace trace pattern = Ok residual →
  filter (λ v, v ∉ pattern) residual = filter (λ v, v ∉ pattern) trace.
Proof.
  unfold remove_pattern_from_trace. destruct pattern as [|p0 rest]; [done|].
  intros [= <-]. apply drop_positions_keeps.
  intros i v Hi Hv Hnot.
  destruct (pattern_to_remove_values _ _ _ _ Hi) as (w & Hw & Hiw).
  rewrite Hv in Hiw. injection Hiw as ->. done.
Qed.

Lemma remove_pattern_keeps_other_values_witness :
  filter (λ v, v ∉ [0; 25]%Z) [7; 0; 9]%Z
  = filter (λ v, v ∉ [0; 25]%Z) [0; 7; 25; 0; 9]%Z.
Proof.
  apply (remove_pattern_keeps_other_values [0; 7; 25; 0; 9]%Z [0; 25]%Z [7; 0; 9]%Z).
  vm_compute. reflexivity.
Defined.

Lemma drop_positions_of_value (t : list Z) (v : Z) :
  drop_positions (list_to_set (positions t v)) t = filter (λ x, x ≠ v) t.
Proof.
  induction t as [|x t IH] using rev_ind; [done|].
  rewrite drop_positions_snoc, filter_app, positions_snoc. f_equal.
  - rewrite <- IH. unfold drop_positions. apply list_omap_ext.
    apply Forall2_same_length_lookup_2; [done|].
    intros i a b Ha Hb. rewrite Ha in Hb. injection Hb as <-.
    apply lookup_seq in Ha as [-> Hlt]. simpl.
    destruct (decide (x = v)) as [->|Hne]; [|by rewrite app_nil_r].
    rewrite list_to_set_app_L.
    destruct (decide (i ∈ list_to_set (positions t v))) as [Hi|Hi].
    + rewrite decide_True; [done|]. by apply elem_of_union_l.
    + rewrite decide_False; [done|]. rewrite elem_of_union. intros [?|Hin]; [done|].
      apply elem_of_list_to_set, list_elem_of_singleton in Hin. lia.
  - destruct (decide (x = v)) as [->|Hne].
    + rewrite decide_True, filter_cons_False, filter_nil; [done|by intros []|].
      rewrite list_to_set_app_L. apply elem_of_union_r, elem_of_list_to_set. by left.
    + rewrite decide_False, filter_cons_True, filter_nil; [done..|].
      rewrite app_nil_r, elem_of_list_to_set.
      intros Hin%elem_of_positions%lookup_lt_Some. lia.
Qed.

Lemma single_slot_fold (t : list Z) (v : Z) (l : list nat) (st : list nat * gset nat) :
  (foldl (start_step (fill_buckets t (init_buckets [v])) [v]) st l).2
  = st.2 ∪ list_to_set l.
Proof.
  revert st. induction l as [|x l IH]; intros st; cbn [foldl].
  - by rewrite list_to_set_nil, union_empty_r_L.
  - rewrite IH. unfold start_step. simpl.
    rewrite union_empty_r_L. by rewrite (assoc_L (∪)).
Qed.

(** X2.  A pattern of one value is the degenerate case of the matcher:
    every occurrence of that value is removed, nothing else. *)
Theorem remove_pattern_single_value (trace : list Z) (v : Z) :
  remove_pattern_from_trace trace [v] = Ok (filter (λ x, x ≠ v) trace).
Proof.
  unfold remove_pattern_from_trace, pattern_to_remove. f_equal.
  rewrite single_slot_fold, buckets_lookup by (by left). simpl.
  rewrite union_empty_l_L. apply drop_positions_of_value.
Qed.

(** ** What the binary removal leaves behind *)

Lemma sorted_lt_NoDup (l : list nat) : StronglySorted lt l → NoDup l.
Proof.
  induction 1 as [|x l _ IH Hall]; constructor; [|done].
  intros Hin. rewrite Forall_forall in Hall. specialize (Hall x Hin). lia.
Qed.

Lemma elem_of_paired (ps bs : list nat) (x : nat) :
  length bs ≤ length ps →
  x ∈ paired ps bs ↔ x ∈ take (length bs) ps ∨ x ∈ bs.
Proof.
  intros Hle. unfold paired.
  assert (length (take (length bs) ps) = length bs) as Hlen
    by (rewrite length_take; lia).
  revert Hlen. generalize (take (length bs) ps). intros l. clear Hle.
  revert bs. induction l as [|a l IH]; intros [|b bs] Hlen; simpl in *; try done.
  - split; [by intros ?%elem_of_nil|by intros [?%elem_of_nil|?%elem_of_nil]].
  - injection Hlen as Hlen. rewrite !elem_of_cons, (IH bs Hlen). tauto.
Qed.

(** The state of the pairing after the whole trace, with what it says about
    the second halves that found no partner. *)
Lemma binary_pairing_unmatched (pair : Z * Z) (t : list Z) :
  let ps := positions t pair.1 in
  let st := binary_pairing pair t in
  ∃ bs : list nat,
    length bs ≤ length ps
    ∧ firsthalf st = drop (length bs) ps
    ∧ toremove st = paired ps bs
    ∧ Forall2 lt (take (length bs) ps) bs
    ∧ Forall (λ y, t !! y = Some pair.2) bs
    ∧ StronglySorted lt bs
    ∧ (pair.1 ≠ pair.2 →
       ∀ i p, t !! i = Some pair.2 → i ∉ bs → p ∈ ps → p < i →
              p ∈ take (length bs) ps).
Proof.
  induction t as [|x t IH] using rev_ind.
  - exists []. simpl. split_and!; try constructor; try done.
    all: intros _ i p Hi; by rewrite lookup_nil in Hi.
  - destruct IH as (bs & Hle & Hfh & Htr & Hlt & Hb & Hsort & Hun). cbn zeta.
    rewrite binary_pairing_snoc, positions_snoc.
    set (ps := positions t pair.1) in *. set (st := binary_pairing pair t) in *.
    assert (Forall (λ y, (t ++ [x]) !! y = Some pair.2) bs) as Hb'.
    { eapply Forall_impl; [exact Hb|]. intros y Hy. simpl in Hy.
      rewrite lookup_app_l; [done|]. by eapply lookup_lt_Some. }
    assert (∀ i, (t ++ [x]) !! i = Some pair.2 → i ≠ length t →
                 t !! i = Some pair.2) as Hold.
    { intros i Hi Hne. apply lookup_lt_Some in Hi as Hlti.
      rewrite length_app in Hlti. simpl in Hlti.
      by rewrite lookup_app_l in Hi by lia. }
    assert (∀ p, p ∈ ps → p < length t) as Hps.
    { intros p Hp%elem_of_positions. by eapply lookup_lt_Some. }
    unfold pairing_step, mark.
    destruct (decide (x = pair.1)) as [Hx|Hx].
    + rewrite (bool_decide_eq_true_2 _ Hx). simpl.
      exists bs. rewrite length_app. simpl. split_and!; try done.
      * lia.
      * rewrite drop_app_le by done. by rewrite Hfh.
      * by rewrite paired_app_l.
      * by rewrite take_app_le.
      * intros Hne i p Hi Hnotin Hp Hpi. rewrite take_app_le by done.
        assert (i ≠ length t) as Hin.
        { intros ->. rewrite lookup_app_r, Nat.sub_diag in Hi by done.
          simpl in Hi. congruence. }
        apply lookup_lt_Some in Hi as Hlti. rewrite length_app in Hlti. simpl in Hlti.
        apply (Hun Hne i p); [by apply Hold|done| |done].
        apply elem_of_app in Hp as [Hp|Hp]; [done|].
        apply list_elem_of_singleton in Hp. lia.
    + rewrite (bool_decide_eq_false_2 _ Hx), app_nil_r.
      destruct (decide (x = pair.2)) as [Hx2|Hx2].
      * rewrite (bool_decide_eq_true_2 _ Hx2). simpl.
        destruct (firsthalf st) as [|f0 fh] eqn:Hst; simpl.
        { exists bs. rewrite Hst. split_and!; try done.
          intros Hne i p Hi Hnotin Hp Hpi.
          destruct (decide (i = length t)) as [->|Hin]; [|by eapply Hun; eauto].
          assert (length ps ≤ length bs) as Hge.
          { symmetry in Hfh. apply (f_equal length) in Hfh.
            rewrite length_drop in Hfh. simpl in Hfh. lia. }
          by rewrite take_ge by done. }
        assert (ps !! length bs = Some f0) as Hf0.
        { rewrite <- (Nat.add_0_r (length bs)), <- lookup_drop, <- Hfh. done. }
        assert (f0 < length t) as Hf0lt by (by eapply Hps, list_elem_of_lookup_2).
        apply Nat.ltb_lt in Hf0lt as Hf0b. rewrite Hf0b. simpl.
        exists (bs ++ [length t]). rewrite length_app. simpl. rewrite Nat.add_1_r.
        split_and!.
        -- by eapply lookup_lt_Some.
        -- rewrite (drop_S _ _ _ Hf0) in Hfh. by injection Hfh.
        -- rewrite Htr. symmetry. by apply paired_snoc.
        -- rewrite (take_S_r _ _ _ Hf0). apply Forall2_app; [done|].
           by repeat constructor.
        -- apply Forall_app. split; [done|]. repeat constructor.
           rewrite lookup_app_r, Nat.sub_diag by done. simpl. by f_equal.
        -- apply StronglySorted_app. split_and!; [|done|repeat constructor].
           intros y z Hy Hz. apply list_elem_of_singleton in Hz as ->.
           rewrite Forall_forall in Hb. by eapply lookup_lt_Some, Hb.
        -- intros Hne i p Hi Hnotin Hp Hpi.
           apply not_elem_of_app in Hnotin as [Hnotin Hin].
           rewrite list_elem_of_singleton in Hin.
           rewrite (take_S_r _ _ _ Hf0). apply elem_of_app. left.
           by eapply Hun; eauto.
      * rewrite (bool_decide_eq_false_2 _ Hx2). simpl.
        exists bs. split_and!; try done.
        intros Hne i p Hi Hnotin Hp Hpi.
        assert (i ≠ length t) as Hin.
        { intros ->. rewrite lookup_app_r, Nat.sub_diag in Hi by done.
          simpl in Hi. congruence. }
        by eapply Hun; eauto.
Qed.

Lemma elem_of_drop_positions (S0 : gset nat) (t : list Z) (v : Z) :
  v ∈ drop_positions S0 t ↔ ∃ i, (i ∉ S0) ∧ t !! i = Some v.
Proof.
  unfold drop_positions. rewrite list_elem_of_omap. split.
  - intros (i & _ & Hi). exists i. by destruct (decide (i ∈ S0)).
  - intros (i & Hnot & Hi). exists i. split.
    + apply elem_of_seq. apply lookup_lt_Some in Hi. lia.
    + by rewrite decide_False.
Qed.

Lemma pair_in_drop_positions (S0 : gset nat) (t : list Z) (a b : Z) :
  [a; b] `sublist_of` drop_positions S0 t →
  ∃ p i, p < i ∧ (p ∉ S0) ∧ (i ∉ S0) ∧ t !! p = Some a ∧ t !! i = Some b.
Proof.
  induction t as [|x t IH] using rev_ind.
  - by intros ?%sublist_nil_r.
  - rewrite drop_positions_snoc.
    intros (l1 & l2 & Heq & H1 & H2)%sublist_app_r.
    assert (∀ p v, t !! p = Some v → (t ++ [x]) !! p = Some v) as Hlift.
    { intros p v Hp. rewrite lookup_app_l; [done|]. by eapply lookup_lt_Some. }
    assert (l2 = [] → ∃ p i, p < i ∧ (p ∉ S0) ∧ (i ∉ S0)
                     ∧ (t ++ [x]) !! p = Some a ∧ (t ++ [x]) !! i = Some b) as Hold.
    { intros ->. rewrite app_nil_r in Heq. subst l1.
      destruct (IH H1) as (p & i & ? & ? & ? & ? & ?).
      exists p, i. split_and!; auto. }
    destruct (decide (length t ∈ S0)) as [Hin|Hnin].
    + apply Hold. by apply sublist_nil_r.
    + destruct l2 as [|y l2]; [by apply Hold|].
      apply sublist_length in H2 as Hlen. simpl in Hlen.
      destruct l2; [|simpl in Hlen; lia].
      apply singleton_sublist_l, list_elem_of_singleton in H2 as ->.
      destruct l1 as [|a' [|a'' l1]].
      { simplify_eq/=. }
      2:{ apply (f_equal length) in Heq. simpl in Heq.
          rewrite length_app in Heq. simpl in Heq. lia. }
      simplify_eq/=.
      apply singleton_sublist_l, elem_of_drop_positions in H1 as (p & Hp & Hpa).
      exists p, (length t). split_and!; auto.
      * by eapply lookup_lt_Some.
      * by rewrite lookup_app_r, Nat.sub_diag.
Qed.

Lemma no_pair_left (a b : Z) (trace : list Z) :
  a ≠ b → ¬ [a; b] `sublist_of` remove_binary_pattern (a, b) trace.
Proof.
  intros Hne Hsub. unfold remove_binary_pattern in Hsub.
  destruct (binary_pairing_unmatched (a, b) trace)
    as (bs & Hle & _ & Htr & _ & _ & _ & Hun).
  simpl in *.
  apply pair_in_drop_positions in Hsub as (p & i & Hpi & Hp & Hi & Hpa & Hib).
  rewrite Htr, elem_of_list_to_set, elem_of_paired in Hp, Hi by done.
  apply Hp. left. apply (Hun Hne i p); [done|tauto|by apply elem_of_positions|done].
Qed.

(** X3.  [remove_binary_pattern] removes a pair as long as one is there:
    for [a ≠ b] the residual holds no [a] that comes before a [b]. *)
Theorem remove_binary_pattern_leaves_no_pair (a b : Z) (trace : list Z) :
  a ≠ b → ¬ [a; b] `sublist_of` remove_binary_pattern (a, b) trace.
Proof. apply no_pair_left. Qed.

Lemma remove_binary_pattern_leaves_no_pair_witness :
  ¬ [0; 25]%Z `sublist_of` remove_binary_pattern (0, 25)%Z [25; 0; 0; 25; 7; 0]%Z.
Proof. apply remove_binary_pattern_leaves_no_pair. done. Defined.

Lemma binary_pairing_same_value (a : Z) (t : list Z) :
  toremove (binary_pairing (a, a) t) = [].
Proof.
  induction t as [|x t IH] using rev_ind; [done|].
  rewrite binary_pairing_snoc. unfold pairing_step, mark. simpl.
  destruct (bool_decide (x = a)); simpl; done.
Qed.

Lemma drop_positions_empty (t : list Z) : drop_positions ∅ t = t.
Proof. apply drop_positions_id. intros i Hi. by apply not_elem_of_empty in Hi. Qed.

Lemma remove_binary_pattern_same (p : Z * Z) (t : list Z) :
  p.1 = p.2 → remove_binary_pattern p t = t.
Proof.
  destruct p as [a b]. simpl. intros <-. unfold remove_binary_pattern.
  rewrite binary_pairing_same_value. apply drop_positions_empty.
Qed.

Lemma pair_of_lookups (r : list Z) (p i : nat) (a b : Z) :
  p < i → r !! p = Some a → r !! i = Some b → [a; b] `sublist_of` r.
Proof.
  intros Hpi Hp Hi. rewrite <- (take_drop_middle r p a Hp).
  apply sublist_inserts_l, sublist_skip, singleton_sublist_l.
  apply list_elem_of_lookup. exists (i - S p). rewrite lookup_drop.
  by replace (S p + (i - S p)) with i by lia.
Qed.

(** X4.  A pair of one value twice removes nothing, and removing a pair
    twice is removing it once: [remove_binary_pattern] is idempotent. *)
Theorem remove_binary_pattern_idempotent (pair : Z * Z) (trace : list Z) :
  (pair.1 = pair.2 → remove_binary_pattern pair trace = trace)
  ∧ remove_binary_pattern pair (remove_binary_pattern pair trace)
    = remove_binary_pattern pair trace.
Proof.
  destruct pair as [a b]. simpl.
  assert (∀ t, remove_binary_pattern (a, a) t = t) as Hsame.
  { intros t. unfold remove_binary_pattern.
    by rewrite binary_pairing_same_value, list_to_set_nil, drop_positions_empty. }
  split; [by intros <-|].
  destruct (decide (a = b)) as [<-|Hne]; [by rewrite !Hsame|].
  set (r := remove_binary_pattern (a, b) trace).
  destruct (binary_pairing_unmatched (a, b) r)
    as (bs & Hle & _ & Htr & Hlt & Hb & _ & _).
  simpl in *. destruct bs as [|i bs].
  - unfold remove_binary_pattern at 1. fold r. rewrite Htr. unfold paired. simpl.
    apply drop_positions_empty.
  - exfalso. simpl in Hlt.
    destruct (take (S (length bs)) (positions r a)) as [|p l] eqn:Htake;
      [by apply Forall2_nil_inv_l in Hlt|].
    apply Forall2_cons in Hlt as [Hpi _].
    apply Forall_cons in Hb as [Hib _].
    assert (r !! p = Some a) as Hpa.
    { apply elem_of_positions. eapply subseteq_take. rewrite Htake. by left. }
    apply (no_pair_left a b trace Hne).
    by apply (pair_of_lookups r p i).
Qed.

(** ** Counting what a removal takes *)

Lemma count_drop_positions (S0 : gset nat) (t : list Z) (v : Z) :
  length (filter (λ x, x = v) (drop_positions S0 t))
  + length (filter (λ i, i ∈ S0) (positions t v))
  = length (filter (λ x, x = v) t).
Proof.
  induction t as [|x t IH] using rev_ind; [done|].
  rewrite drop_positions_snoc, positions_snoc, !filter_app, !length_app.
  destruct (decide (length t ∈ S0)) as [Hin|Hnin];
    destruct (decide (x = v)) as [->|Hne].
  - rewrite (filter_cons_True (λ i, i ∈ S0)) by done.
    rewrite (filter_cons_True (λ x, x = v)) by done. simpl. lia.
  - rewrite (filter_cons_False (λ x, x = v)) by done. simpl. lia.
  - rewrite (filter_cons_False (λ i, i ∈ S0)) by done.
    rewrite !(filter_cons_True (λ x, x = v)) by done. simpl. lia.
  - rewrite !(filter_cons_False (λ x, x = v)) by done. simpl. lia.
Qed.

Lemma filter_all {A} (P : A → Prop) `{!∀ x, Decision (P x)} (l : list A) :
  Forall P l → filter P l = l.
Proof.
  induction 1 as [|x l Hx _ IH]; [done|]. by rewrite filter_cons_True, IH.
Qed.

Lemma filter_none {A} (P : A → Prop) `{!∀ x, Decision (P x)} (l : list A) :
  Forall (λ x, ¬ P x) l → filter P l = [].
Proof.
  induction 1 as [|x l Hx _ IH]; [done|]. by rewrite filter_cons_False.
Qed.

Lemma positions_NoDup (t : list Z) (v : Z) : NoDup (positions t v).
Proof. apply sorted_lt_NoDup, positions_sorted. Qed.

(** X5.  For [a ≠ b], [remove_binary_pattern] takes the two halves in equal
    number: some [k] occurrences of [a] and [k] of [b] go, the elements of
    any other value all stay, in their order. *)
Theorem remove_binary_pattern_balanced (a b : Z) (trace : list Z) :
  a ≠ b →
  let residual := remove_binary_pattern (a, b) trace in
  ∃ k,
    length (filter (λ x, x = a) residual) + k = length (filter (λ x, x = a) trace)
    ∧ length (filter (λ x, x = b) residual) + k = length (filter (λ x, x = b) trace)
    ∧ length residual + 2 * k = length trace
    ∧ filter (λ x, x ≠ a ∧ x ≠ b) residual = filter (λ x, x ≠ a ∧ x ≠ b) trace.
Proof.
  intros Hne residual. unfold residual, remove_binary_pattern.
  destruct (binary_pairing_unmatched (a, b) trace)
    as (bs & Hle & _ & Htr & Hlt & Hb & Hsort & _).
  simpl in *. rewrite Htr.
  set (ps := positions trace a) in *.
  set (S0 := list_to_set (paired ps bs) : gset nat).
  assert (∀ x, x ∈ S0 ↔ x ∈ take (length bs) ps ∨ x ∈ bs) as HS.
  { intros x. unfold S0. by rewrite elem_of_list_to_set, elem_of_paired. }
  assert (∀ x, x ∈ bs → trace !! x = Some b) as Hbs
    by (by apply Forall_forall).
  assert (∀ x, x ∈ take (length bs) ps → trace !! x = Some a) as Hta.
  { intros x Hx. apply elem_of_positions. by eapply subseteq_take. }
  assert (length (filter (λ i, i ∈ S0) ps) = length bs) as Hca.
  { rewrite <- (take_drop (length bs) ps) at 1. rewrite filter_app.
    rewrite filter_all. 2:{ apply Forall_forall. intros x Hx. apply HS. by left. }
    rewrite filter_none.
    { rewrite app_nil_r, length_take. lia. }
    apply Forall_forall. intros x Hx [Hin|Hin]%HS.
    - pose proof (positions_NoDup trace a) as Hnd. fold ps in Hnd.
      rewrite <- (take_drop (length bs) ps) in Hnd.
      apply NoDup_app in Hnd as (_ & Hdisj & _). by apply (Hdisj x).
    - apply Hbs in Hin.
      assert (trace !! x = Some a) as Ha.
      { apply elem_of_positions. eapply subseteq_drop, Hx. }
      congruence. }
  assert (length (filter (λ i, i ∈ S0) (positions trace b)) = length bs) as Hcb.
  { apply Permutation_length, NoDup_Permutation.
    - apply NoDup_filter, positions_NoDup.
    - by apply sorted_lt_NoDup.
    - intros x. rewrite list_elem_of_filter, elem_of_positions, HS. split.
      + intros [[Hin|Hin] Hx]; [|done]. apply Hta in Hin. congruence.
      + intros Hin. split; [by right|by apply Hbs]. }
  exists (length bs). split_and!.
  - rewrite <- (count_drop_positions S0 trace a). fold ps. lia.
  - rewrite <- (count_drop_positions S0 trace b). lia.
  - pose proof (count_drop_positions S0 trace a) as Ha. fold ps in Ha.
    pose proof (count_drop_positions S0 trace b) as Hb'.
    assert (filter (λ x, x ≠ a ∧ x ≠ b) (drop_positions S0 trace)
            = filter (λ x, x ≠ a ∧ x ≠ b) trace) as Hrest.
    { apply drop_positions_keeps. intros i v [Hin|Hin]%HS Hv [? ?].
      - apply Hta in Hin. congruence.
      - apply Hbs in Hin. congruence. }
    assert (∀ l : list Z,
      length l = length (filter (λ x, x = a) l) + length (filter (λ x, x = b) l)
                 + length (filter (λ x, x ≠ a ∧ x ≠ b) l)) as Hsplit.
    { induction l as [|x l IH]; [done|]. rewrite !filter_cons.
      destruct (decide (x = a)) as [Hxa|Hxa], (decide (x = b)) as [Hxb|Hxb];
        [congruence|rewrite decide_False by tauto|rewrite decide_False by tauto
         |rewrite decide_True by done]; simpl; lia. }
    rewrite (Hsplit trace), (Hsplit (drop_positions S0 trace)), Hrest. lia.
  - apply drop_positions_keeps. intros i v [Hin|Hin]%HS Hv [? ?].
    + apply Hta in Hin. congruence.
    + apply Hbs in Hin. congruence.
Qed.

Lemma remove_binary_pattern_balanced_witness :
  ∃ k,
    length (filter (λ x, x = 0%Z) (remove_binary_pattern (0, 25)%Z [0; 0; 25]%Z)) + k
      = length (filter (λ x, x = 0%Z) [0; 0; 25]%Z)
    ∧ length (filter (λ x, x = 25%Z) (remove_binary_pattern (0, 25)%Z [0; 0; 25]%Z)) + k
      = length (filter (λ x, x = 25%Z) [0; 0; 25]%Z)
    ∧ length (remove_binary_pattern (0, 25)%Z [0; 0; 25]%Z) + 2 * k
      = length [0; 0; 25]%Z
    ∧ filter (λ x, x ≠ 0%Z ∧ x ≠ 25%Z) (remove_binary_pattern (0, 25)%Z [0; 0; 25]%Z)
      = filter (λ x, x ≠ 0%Z ∧ x ≠ 25%Z) [0; 0; 25]%Z.
Proof. apply (remove_binary_pattern_balanced 0 25 [0; 0; 25]%Z). done. Defined.

(** ** The causal pairs come in both directions *)

Lemma causal_pairs_elem (indices : list Z) (sd : gmap Z node_info) (a b : Z) :
  (a, b) ∈ find_causal_pairs indices sd ↔
  (b ∈ successors_of sd a ∨ a ∈ successors_of sd b)
  ∧ ∃ i j, i ≠ j ∧ indices !! i = Some a ∧ indices !! j = Some b.
Proof.
  unfold find_causal_pairs. rewrite causal_fold_elem. split.
  - intros [Hin|(i & j & Hij%elem_of_index_pairs & Hc%isCausal_true & Hab)];
      [by apply not_elem_of_empty in Hin|].
    assert (indices !! i = Some (indices !!! i)) as Hi
      by (apply list_lookup_lookup_total_lt; lia).
    assert (indices !! j = Some (indices !!! j)) as Hj
      by (apply list_lookup_lookup_total_lt; lia).
    destruct Hab as [[= -> ->]|[= -> ->]]; (split; [tauto|]).
    + exists i, j. split_and!; [lia|done..].
    + exists j, i. split_and!; [lia|done..].
  - intros [Hc (i & j & Hne & Hi & Hj)]. right.
    apply list_lookup_total_correct in Hi as Hi', Hj as Hj'.
    apply lookup_lt_Some in Hi, Hj.
    destruct (decide (i < j)).
    + exists i, j. rewrite elem_of_index_pairs, isCausal_true, Hi', Hj'.
      split_and!; [lia..|done|by left].
    + exists j, i. rewrite elem_of_index_pairs, isCausal_true, Hi', Hj'.
      split_and!; [lia..|tauto|by right].
Qed.

(** X6.  [find_causal_pairs] returns every pair together with its reverse,
    and over an index list without repetition it pairs no index with
    itself. *)
Theorem find_causal_pairs_symmetric (indices : list Z) (sd : gmap Z node_info)
    (a b : Z) :
  ((a, b) ∈ find_causal_pairs indices sd ↔ (b, a) ∈ find_causal_pairs indices sd)
  ∧ (NoDup indices → (a, b) ∈ find_causal_pairs indices sd → a ≠ b).
Proof.
  split.
  - rewrite !causal_pairs_elem. split.
    + intros [Hc (i & j & ? & ? & ?)]. split; [tauto|]. by exists j, i.
    + intros [Hc (i & j & ? & ? & ?)]. split; [tauto|]. by exists j, i.
  - intros Hnd [_ (i & j & Hne & Hi & Hj)]%causal_pairs_elem ->.
    apply Hne. by eapply NoDup_lookup.
Qed.

Lemma find_causal_pairs_symmetric_witness :
  (25, 0)%Z ∈ find_causal_pairs [0; 25]%Z sd_request_response ∧ 0%Z ≠ 25%Z.
Proof.
  destruct (find_causal_pairs_symmetric [0; 25]%Z sd_request_response 0 25)
    as [Hsym Hirr].
  assert ((0, 25)%Z ∈ find_causal_pairs [0; 25]%Z sd_request_response) as Hin
    by (vm_compute; done).
  split; [by apply Hsym|].
  apply Hirr; [|done]. repeat constructor; [|by intros ?%elem_of_nil].
  intros [=]%list_elem_of_singleton.
Defined.

(** ** The successor map of the graph is closed *)

Lemma setdefault_lookup (sd : gmap Z node_info) (j k : Z) (s d : string)
    (info : node_info) :
  match sd !! j with
  | None => <[j := NodeInfo s d []]> sd
  | Some _ => sd
  end !! k = Some info →
  sd !! k = Some info ∨ (k = j ∧ info = NodeInfo s d []).
Proof.
  destruct (sd !! j) eqn:Hj; [by left|].
  destruct (decide (k = j)) as [->|Hne].
  - rewrite lookup_insert_eq. intros [= <-]. by right.
  - rewrite lookup_insert_ne by done. by left.
Qed.

Section closed.
Variables initial terminating : gset Z.
Variable messages : list message.

Lemma inner_step_inv (index : Z) (dest : string)
  (st : list (Z * Z) * gmap Z node_info) (m : message) :
m ∈ messages → is_Some (st.2 !! index) → graph_inv messages st →
graph_inv messages (inner_step initial terminating index dest st m)
∧ is_Some ((inner_step initial terminating index dest st m).2 !! index).
Proof.
destruct m as [[j s] d]. intros Hm [info0 Hinfo0] (Hclosed & Hentry & Hedges).
unfold inner_step.
destruct (_ && _); [|split; [done|by eexists]].
cbn [fst snd].
set (sd1 := alter _ index st.2).
assert (∀ k, successors_of sd1 k
             = successors_of st.2 k ++ (if decide (k = index) then [j] else []))
  as Hsucc1.
{ intros k. unfold successors_of, sd1. destruct (decide (k = index)) as [->|Hne].
  - by rewrite lookup_alter_eq, Hinfo0.
  - rewrite lookup_alter_ne by done. by rewrite app_nil_r. }
assert (∀ k, is_Some (st.2 !! k) → is_Some (sd1 !! k)) as Hdom1.
{ intros k [info Hk]. unfold sd1. destruct (decide (k = index)) as [->|Hne].
  - rewrite lookup_alter_eq, Hk. by eexists.
  - rewrite lookup_alter_ne by done. by eexists. }
unfold graph_inv. cbn [fst snd]. split; [split_and!|].
- intros i j'. rewrite (successors_of_setdefault sd1 j i s d), Hsucc1.
  intros [Hin|Hin]%elem_of_app.
  + apply setdefault_is_Some. left. by eapply Hdom1, Hclosed.
  + destruct (decide (i = index)); [|by apply elem_of_nil in Hin].
    apply list_elem_of_singleton in Hin as ->.
    apply setdefault_is_Some. by right.
- intros i info [Hi|[-> ->]]%setdefault_lookup; [|done].
  unfold sd1 in Hi. destruct (decide (i = index)) as [->|Hne].
  + rewrite lookup_alter_eq, Hinfo0 in Hi. injection Hi as <-. simpl.
    by apply Hentry.
  + rewrite lookup_alter_ne in Hi by done. by apply Hentry.
- intros i. rewrite (successors_of_setdefault sd1 j i s d), Hsucc1.
  rewrite filter_app, fmap_app, Hedges.
  f_equal. rewrite filter_cons, filter_nil. simpl.
  destruct (decide (i = index)) as [->|Hne].
  + by rewrite decide_True.
  + rewrite decide_False; [done|]. congruence.
- apply setdefault_is_Some. left. apply Hdom1. by eexists.
Qed.

Lemma inner_fold_inv (index : Z) (dest : string) (ms : list message)
  (st : list (Z * Z) * gmap Z node_info) :
ms ⊆ messages → is_Some (st.2 !! index) → graph_inv messages st →
graph_inv messages (foldl (inner_step initial terminating index dest) st ms).
Proof.
revert st. induction ms as [|m ms IH]; intros st Hms Hidx Hinv; [done|].
cbn [foldl].
destruct (inner_step_inv index dest st m) as [Hinv' Hidx']; [|done..|].
{ apply Hms. by left. }
apply IH; [|done..]. intros x Hx. apply Hms. by right.
Qed.

Lemma outer_fold_inv (ms : list message) (st : list (Z * Z) * gmap Z node_info) :
ms ⊆ messages → graph_inv messages st →
graph_inv messages (foldl (outer_step initial terminating messages) st ms).
Proof.
revert st. induction ms as [|[[index s] d] ms IH]; intros st Hms Hinv; [done|].
cbn [foldl]. apply IH; [intros x Hx; apply Hms; by right|].
unfold outer_step. apply inner_fold_inv; [done|apply setdefault_is_Some; by right|].
destruct Hinv as (Hclosed & Hentry & Hedges).
unfold graph_inv. cbn [fst snd]. split_and!.
- intros i j. rewrite successors_of_setdefault. intros Hin.
  apply setdefault_is_Some. left. by eapply Hclosed.
- intros i info [Hi|[-> ->]]%setdefault_lookup; [by apply Hentry|].
  simpl. apply Hms. by left.
- intros i. by rewrite successors_of_setdefault.
Qed.
End closed.

Lemma graph_fold_inv (messages : list message) (initial terminating : gset Z) :
  graph_inv messages
    (foldl (outer_step initial terminating messages) ([], ∅) messages).
Proof.
  apply outer_fold_inv; [done|].
  split_and!; simpl.
  - intros i j. unfold successors_of. rewrite lookup_empty. by intros ?%elem_of_nil.
  - intros i info. by rewrite lookup_empty.
  - intros i. unfold successors_of. by rewrite lookup_empty.
Qed.

Lemma construct_graph_inv (messages : list message) (sections : list (list string))
    (g : graph) :
  construct_causality_graph messages sections = Ok g →
  graph_inv messages (edge_list g, successors_dict g).
Proof.
  unfold construct_causality_graph.
  destruct (head sections) as [first|]; [|done].
  destruct (last sections) as [final|]; [|done].
  destruct (section_nodes first) as [initial| |]; simpl; [|done..].
  destruct (section_nodes final) as [terminating| |]; simpl; [|done..].
  destruct (edge_index _) as [tensor| |] eqn:Htensor; simpl; [|done..].
  apply edge_index_Ok in Htensor as [-> _].
  intros [= <-]. simpl.
  rewrite <- surjective_pairing. apply graph_fold_inv.
Qed.

Lemma edges_join_messages (messages : list message)
    (st : list (Z * Z) * gmap Z node_info) (e : Z * Z) :
  graph_inv messages st → e ∈ st.1 →
  (∃ s d, (e.1, s, d) ∈ messages) ∧ (∃ s d, (e.2, s, d) ∈ messages).
Proof.
  intros (Hclosed & Hentry & Hedges) He.
  assert (e.2 ∈ successors_of st.2 e.1) as Hsucc.
  { rewrite Hedges. apply list_elem_of_fmap. exists e. split; [done|].
    by apply list_elem_of_filter. }
  split.
  - unfold successors_of in Hsucc.
    destruct (st.2 !! e.1) as [info|] eqn:Hinfo; [|by apply elem_of_nil in Hsucc].
    eexists _, _. by eapply Hentry.
  - destruct (Hclosed _ _ Hsucc) as [info Hinfo].
    eexists _, _. by eapply Hentry.
Qed.

(** X7.  On the successor map of a constructed graph [get_successors]
    never meets a missing key: it returns, for every index, its successors
    in their order, each with the source and destination of a message of
    that index; and [get_causal_pairs_for_index] returns the pairs
    [(index, successor)]. *)
Theorem get_successors_of_graph (messages : list message)
    (sections : list (list string)) (g : graph) (node_index : Z) :
  construct_causality_graph messages sections = Ok g →
  ∃ successors_info,
    get_successors node_index (successors_dict g) = Some successors_info
    ∧ successors_info.*1.*1 = successors_of (successors_dict g) node_index
    ∧ Forall (λ m, m ∈ messages) successors_info
    ∧ get_causal_pairs_for_index node_index (successors_dict g)
      = Some ((λ j, (node_index, j))
                <$> successors_of (successors_dict g) node_index).
Proof.
  intros (Hclosed & Hentry & _)%construct_graph_inv. simpl in *.
  unfold get_causal_pairs_for_index, get_successors, successors_of in *.
  specialize (Hclosed node_index).
  destruct (successors_dict g !! node_index) as [node_info|]; [|by exists []].
  revert Hclosed. generalize (successors node_info). intros l Hl.
  assert (∃ successors_info,
    mapM (λ succ, info ← successors_dict g !! succ;
                  Some (succ, info_src info, info_dest info)) l
      = Some successors_info
    ∧ successors_info.*1.*1 = l
    ∧ Forall (λ m, m ∈ messages) successors_info) as (si & Hsi & Hfst & Hall).
  { induction l as [|j l IH]; [by exists []|].
    destruct IH as (si & Hsi & Hfst & Hall); [intros j' Hj'; apply Hl; by right|].
    destruct (Hl j) as [info Hinfo]; [by left|].
    exists ((j, info_src info, info_dest info) :: si). split_and!.
    - cbn [mapM]. rewrite Hinfo. simpl. by rewrite Hsi.
    - rewrite !fmap_cons. simpl. by rewrite Hfst.
    - constructor; [by apply Hentry|done]. }
  exists si. rewrite Hsi. split_and!; [done..|].
  f_equal. rewrite <- Hfst, <- !list_fmap_compose. done.
Qed.

Lemma get_successors_of_graph_witness :
  ∃ g successors_info,
    construct_causality_graph
      [(0%Z, "cpu", "cache"); (25%Z, "cache", "cpu"); (7%Z, "cpu", "cpu")]%string
      [["0:cpu:cache:req"]; ["7:cpu:cpu:req"]; ["25:cache:cpu:resp"]]%string = Ok g
    ∧ get_successors 0 (successors_dict g) = Some successors_info
    ∧ successors_info.*1.*1 = successors_of (successors_dict g) 0%Z.
Proof.
  pose proof (get_successors_of_graph
     [(0%Z, "cpu", "cache"); (25%Z, "cache", "cpu"); (7%Z, "cpu", "cpu")]%string
     [["0:cpu:cache:req"]; ["7:cpu:cpu:req"]; ["25:cache:cpu:resp"]]%string) as Hspec.
  destruct (construct_causality_graph _ _) as [g| |] eqn:Hg;
    [|vm_compute in Hg; discriminate Hg..].
  destruct (Hspec g 0%Z eq_refl) as (si & Hsi & Hfst & _).
  by exists g, si.
Defined.

(** X8.  The edge list and the successor map of a constructed graph tell the
    same: the successors of an index are the targets of the edges that
    leave it, in the order of the edge list and as often. *)
Theorem edge_list_matches_successors (messages : list message)
    (sections : list (list string)) (g : graph) (i : Z) :
  construct_causality_graph messages sections = Ok g →
  successors_of (successors_dict g) i = (filter (λ e, e.1 = i) (edge_list g)).*2.
Proof. intros (_ & _ & Hedges)%construct_graph_inv. apply Hedges. Qed.

Lemma edge_list_matches_successors_witness :
  ∃ g,
    construct_causality_graph
      [(0%Z, "cpu", "cache"); (25%Z, "cache", "cpu"); (7%Z, "cpu", "cpu")]%string
      [["0:cpu:cache:req"]; ["7:cpu:cpu:req"]; ["25:cache:cpu:resp"]]%string = Ok g
    ∧ successors_of (successors_dict g) 7%Z
      = (filter (λ e, e.1 = 7%Z) (edge_list g)).*2.
Proof.
  pose proof (edge_list_matches_successors
     [(0%Z, "cpu", "cache"); (25%Z, "cache", "cpu"); (7%Z, "cpu", "cpu")]%string
     [["0:cpu:cache:req"]; ["7:cpu:cpu:req"]; ["25:cache:cpu:resp"]]%string) as Hspec.
  destruct (construct_causality_graph _ _) as [g| |] eqn:Hg;
    [|vm_compute in Hg; discriminate Hg..].
  exists g. split; [done|]. by apply Hspec.
Defined.

(** ** From the definition file to the graph *)

Lemma message_of_line_index (line : string) (m : message) :
  message_of_line line = Ok m → line_index line = Ok m.1.1.
Proof.
  unfold message_of_line, line_index.
  destruct (py_int _) as [z| |]; simpl; [|done..].
  destruct (_ !! 1); [|done]. destruct (_ !! 2); [|done].
  by intros [= <-].
Qed.

Lemma section_nodes_of_read (section lines : list string) (messages : list message) :
  traverse message_of_line (filter (λ line, line ≠ ""%string) lines) = Ok messages →
  section ⊆ lines →
  ∃ nodes, section_nodes section = Ok nodes
           ∧ ∀ z, z ∈ nodes → ∃ s d, (z, s, d) ∈ messages.
Proof.
  intros Hread%traverse_ok Hsub. unfold section_nodes.
  assert (∀ line, line ∈ filter (λ line, line ≠ ""%string) section →
                  ∃ m, m ∈ messages ∧ line_index line = Ok m.1.1) as Hline.
  { intros line [Hne Hin]%list_elem_of_filter.
    assert (line ∈ filter (λ line, line ≠ ""%string) lines) as Hin'
      by (apply list_elem_of_filter; auto).
    apply list_elem_of_lookup_1 in Hin' as [k Hk].
    destruct (Forall2_lookup_l _ _ _ _ _ Hread Hk) as (m & Hm & Hml).
    exists m. split; [by eapply list_elem_of_lookup_2|by apply message_of_line_index]. }
  destruct (traverse_returns line_index (filter (λ line, line ≠ ""%string) section))
    as (l & Hl & Hall).
  { apply Forall_forall. intros line Hin. destruct (Hline line Hin) as (m & _ & ->).
    by eexists. }
  rewrite Hl. simpl. eexists. split; [done|].
  intros z [k Hk]%elem_of_list_to_set%list_elem_of_lookup_1.
  destruct (Forall2_lookup_r _ _ _ _ _ Hall Hk) as (line & Hlk & Hz).
  destruct (Hline line) as (m & Hm & Hmz); [by eapply list_elem_of_lookup_2|].
  rewrite Hz in Hmz. injection Hmz as ->.
  destruct m as [[z s] d]. by exists s, d.
Qed.

Lemma section_in_mjoin (sections : list (list string)) (section : list string) :
  section ∈ sections → section ⊆ mjoin sections.
Proof.
  intros Hin line Hline. apply list_elem_of_join. by exists section.
Qed.

(** X9.  What [read_messages_from_file] returns is fit for
    [construct_causality_graph]: with at least one section, and every
    message index an integer of 64 bits, as the edge tensor asks, the graph
    is built without an exception, and its initial and terminating nodes
    are indices of messages; a content without any section gives no
    message and makes the graph builder raise IndexError. *)
Theorem graph_of_read_messages (content : string) (messages : list message)
    (sections : list (list string)) :
  read_messages_from_file content = Ok (messages, sections) →
  (sections ≠ [] →
   Forall (λ m : message, fits_long m.1.1) messages →
     ∃ g, construct_causality_graph messages sections = Ok g
          ∧ ∀ z, z ∈ initial_nodes g ∪ terminating_nodes g →
                 ∃ s d, (z, s, d) ∈ messages)
  ∧ (sections = [] →
     messages = []
     ∧ construct_causality_graph messages sections = Raise IndexError).
Proof.
  unfold read_messages_from_file.
  set (secs := (λ section, split "010" (strip section)) <$> _).
  destruct (traverse message_of_line _) as [ms| |] eqn:Hread; simpl; [|done..].
  intros [= <- <-]. split.
  - intros Hne Hfits. unfold construct_causality_graph.
    destruct (head secs) as [first|] eqn:Hfirst; [|by destruct secs].
    destruct (last secs) as [final|] eqn:Hfinal;
      [|by apply last_None in Hfinal].
    destruct (section_nodes_of_read first (mjoin secs) ms Hread)
      as (initial & -> & Hinit).
    { apply section_in_mjoin. destruct secs; simplify_eq/=. by left. }
    destruct (section_nodes_of_read final (mjoin secs) ms Hread)
      as (terminating & -> & Hterm).
    { apply section_in_mjoin. by apply last_Some_elem_of. }
    cbn [mbind result_bind]. unfold edge_index. rewrite decide_True.
    2:{ apply Forall_forall. intros e He.
        destruct (edges_join_messages ms _ e (graph_fold_inv ms initial terminating) He)
          as [(s1 & d1 & H1) (s2 & d2 & H2)].
        rewrite Forall_forall in Hfits.
        split; [apply (Hfits _ H1)|apply (Hfits _ H2)]. }
    simpl. eexists. split; [done|]. simpl.
    intros z [?|?]%elem_of_union; auto.
  - intros Hnil. rewrite Hnil in Hread. simpl in Hread.
    injection Hread as <-. by rewrite Hnil.
Qed.

Lemma graph_of_read_messages_witness :
  ∃ g, construct_causality_graph
         [(0%Z, "cpu", "cache"); (25%Z, "cache", "cpu")]%string
         [["0:cpu:cache:req"]; ["25:cache:cpu:resp"]]%string = Ok g
       ∧ ∀ z, z ∈ initial_nodes g ∪ terminating_nodes g →
              ∃ s d, (z, s, d) ∈ [(0%Z, "cpu", "cache"); (25%Z, "cache", "cpu")]%string.
Proof.
  apply (graph_of_read_messages "0:cpu:cache:req
#
25:cache:cpu:resp
"%string).
  - vm_compute. reflexivity.
  - done.
  - repeat constructor; unfold fits_long; simpl; lia.
Defined.

(** ** The pairs file *)

Lemma pair_of_line_cases (line : string) :
  (∃ a b p1 p2, functions_py.pair_of_line line = Ok (a, b)
                ∧ split "_" line = [p1; p2]
                ∧ py_int p1 = Ok a ∧ py_int p2 = Ok b)
  ∨ (functions_py.pair_of_line line = Raise ValueError
     ∧ ¬ ∃ a b p1 p2, split "_" line = [p1; p2]
                      ∧ py_int p1 = Ok a ∧ py_int p2 = Ok b).
Proof.
  unfold functions_py.pair_of_line.
  destruct (split "_" line) as [|p1 [|p2 [|p3 l]]].
  - right. split; [done|]. by intros (? & ? & ? & ? & ? & _).
  - right. split; [|by intros (? & ? & ? & ? & ? & _)].
    destruct (py_int_cases p1) as [[a ->]| ->]; done.
  - destruct (py_int_cases p1) as [[a Ha]|Ha]; rewrite Ha; simpl.
    + destruct (py_int_cases p2) as [[b Hb]|Hb]; rewrite Hb; simpl.
      * left. by exists a, b, p1, p2.
      * right. split; [done|]. intros (? & ? & ? & ? & [= <- <-] & _ & ?). congruence.
    + right. split; [done|]. intros (? & ? & ? & ? & [= <- <-] & ? & _). congruence.
  - right. split; [|by intros (? & ? & ? & ? & ? & _)].
    destruct (py_int_cases p1) as [[a ->]| ->]; simpl; [|done].
    destruct (py_int_cases p2) as [[b ->]| ->]; simpl; [|done].
    destruct (py_int_cases p3) as [[c ->]| ->]; done.
Qed.

Lemma pairs_of_lines_spec (pairs : gset (Z * Z)) (lines : list string) :
  ∃ pairs', functions_py.pairs_of_lines pairs lines = Ok pairs'
    ∧ ∀ a b, (a, b) ∈ pairs' ↔
        (a, b) ∈ pairs
        ∨ ∃ line p1 p2, line ∈ lines ∧ split "_" (strip line) = [p1; p2]
                        ∧ py_int p1 = Ok a ∧ py_int p2 = Ok b.
Proof.
  revert pairs. induction lines as [|line lines IH]; intros pairs.
  - exists pairs. split; [done|]. intros a b. split; [by left|].
    intros [?|(? & ? & ? & ?%elem_of_nil & _)]; done.
  - cbn [functions_py.pairs_of_lines].
    assert (∀ pairs0, (∀ a b, (a, b) ∈ pairs0 ↔ (a, b) ∈ pairs) →
              (¬ ∃ a b p1 p2, split "_" (strip line) = [p1; p2]
                              ∧ py_int p1 = Ok a ∧ py_int p2 = Ok b) →
              ∃ pairs', functions_py.pairs_of_lines pairs0 lines = Ok pairs'
                ∧ ∀ a b, (a, b) ∈ pairs' ↔
                    (a, b) ∈ pairs
                    ∨ ∃ line0 p1 p2, line0 ∈ line :: lines
                                     ∧ split "_" (strip line0) = [p1; p2]
                                     ∧ py_int p1 = Ok a ∧ py_int p2 = Ok b) as Hskip.
    { intros pairs0 Heq Hnot. destruct (IH pairs0) as (pairs' & -> & Hspec).
      exists pairs'. split; [done|]. intros a b. rewrite Hspec, Heq. split.
      - intros [?|(l0 & p1 & p2 & Hin & ?)]; [by left|]. right.
        exists l0, p1, p2. split; [by right|done].
      - intros [?|(l0 & p1 & p2 & Hin & Hsp & H1 & H2)]; [by left|].
        apply elem_of_cons in Hin as [->|Hin].
        + exfalso. apply Hnot. by exists a, b, p1, p2.
        + right. by exists l0, p1, p2. }
    destruct (bool_decide (strip line ≠ ""%string)) eqn:Hne.
    + destruct (pair_of_line_cases (strip line))
        as [(a0 & b0 & q1 & q2 & -> & Hsp & Hq1 & Hq2)|[-> Hnot]].
      * destruct (IH (pairs ∪ {[ (a0, b0) ]})) as (pairs' & -> & Hspec).
        exists pairs'. split; [done|]. intros a b.
        rewrite Hspec, elem_of_union, elem_of_singleton. split.
        -- intros [[?|[= -> ->]]|(l0 & p1 & p2 & Hin & ?)].
           ++ by left.
           ++ right. exists line, q1, q2. split; [by left|done].
           ++ right. exists l0, p1, p2. split; [by right|done].
        -- intros [?|(l0 & p1 & p2 & Hin & Hsp' & H1 & H2)]; [by left; left|].
           apply elem_of_cons in Hin as [->|Hin].
           ++ left. right. rewrite Hsp in Hsp'. injection Hsp' as <- <-. congruence.
           ++ right. by exists l0, p1, p2.
      * by apply Hskip.
    + apply Hskip; [done|]. apply bool_decide_eq_false_1 in Hne.
      assert (strip line = ""%string) as -> by (by destruct (decide (strip line = ""%string)); [|exfalso; apply Hne]).
      by intros (? & ? & ? & ? & ? & _).
Qed.

(** X10.  The reader of the pairs file never raises: a line counts when,
    stripped, it splits at its underscores into two fields that [int]
    accepts, every other line is passed over, and the result is the set of
    the pairs of the lines that count. *)
Theorem find_causal_pairs_file_skips (content : string) :
  ∃ pairs, functions_py.find_causal_pairs content = Ok pairs
    ∧ ∀ a b, (a, b) ∈ pairs ↔
        ∃ line p1 p2, line ∈ file_lines content
                      ∧ split "_" (strip line) = [p1; p2]
                      ∧ py_int p1 = Ok a ∧ py_int p2 = Ok b.
Proof.
  unfold functions_py.find_causal_pairs.
  destruct (pairs_of_lines_spec ∅ (file_lines content)) as (pairs & -> & Hspec).
  exists pairs. split; [done|]. intros a b. rewrite Hspec. split; [|by right].
  intros [Hin|?]; [by apply not_elem_of_empty in Hin|done].
Qed.

(** ** Patterns by column *)

Lemma concat_filter_nonempty {A} (L : list (list A)) :
  mjoin (filter (λ l, length l ≠ 0) L) = mjoin L.
Proof.
  induction L as [|l L IH]; [done|]. rewrite filter_cons.
  destruct (decide (length l ≠ 0)) as [Hne|He]; simpl; [by rewrite IH|].
  destruct l; [done|]. simpl in He. exfalso. apply He. lia.
Qed.

Lemma concat_fmap_app {A B} (f g : A → list B) (l : list A) :
  mjoin ((λ k, f k ++ g k) <$> l) ≡ₚ mjoin (f <$> l) ++ mjoin (g <$> l).
Proof.
  induction l as [|x l IH]; [done|]. simpl. rewrite IH.
  rewrite <- !app_assoc. apply Permutation_app_head.
  rewrite !app_assoc. apply Permutation_app_tail, Permutation_app_comm.
Qed.

Lemma mjoin_nils {A B} (f : B → list A) (l : list B) :
  (∀ k, f k = []) → mjoin (f <$> l) = [].
Proof.
  intros Hf. induction l as [|k l IH]; [done|].
  rewrite fmap_cons. change (f k ++ mjoin (f <$> l) = []). by rewrite Hf, IH.
Qed.

Lemma concat_lookups {A} (r : list A) (n : nat) :
  length r ≤ n →
  mjoin ((λ k, option_list (r !! k)) <$> seq 0 n) = r.
Proof.
  revert n. induction r as [|x r IH]; intros n Hn.
  - by apply mjoin_nils.
  - destruct n as [|n]; [simpl in Hn; lia|]. simpl. f_equal.
    rewrite <- fmap_S_seq, <- list_fmap_compose. apply IH. simpl in Hn. lia.
Qed.

Lemma concat_columns {A} (rows : list (list A)) (n : nat) :
  max_list (length <$> rows) ≤ n →
  mjoin ((λ k, omap (λ row, row !! k) rows) <$> seq 0 n) ≡ₚ mjoin rows.
Proof.
  induction rows as [|r rows IH]; intros Hn.
  - by rewrite mjoin_nils.
  - assert (length r ≤ n ∧ max_list (length <$> rows) ≤ n) as [Hr Hrows].
    { rewrite fmap_cons in Hn. change (length r `max` max_list (length <$> rows) ≤ n) in Hn.
      lia. }
    assert ((λ k, omap (λ row, row !! k) (r :: rows)) <$> seq 0 n
            = (λ k, option_list (r !! k) ++ omap (λ row, row !! k) rows) <$> seq 0 n)
      as ->.
    { apply list_fmap_ext. intros _ k _. simpl. by destruct (r !! k). }
    rewrite concat_fmap_app, concat_lookups by done.
    change (mjoin (r :: rows)) with (r ++ mjoin rows).
    by apply Permutation_app_head, IH.
Qed.

(** X11.  [extract_patterns_from_rows] regroups the patterns by column and
    loses none: its columns are non-empty and, laid end to end, are a
    permutation of the rows laid end to end. *)
Theorem extract_patterns_from_rows_permutation (rows : list (list (list Z))) :
  mjoin (extract_patterns_from_rows rows) ≡ₚ mjoin rows
  ∧ Forall (λ column, column ≠ []) (extract_patterns_from_rows rows).
Proof.
  unfold extract_patterns_from_rows. split.
  - rewrite concat_filter_nonempty. by apply concat_columns.
  - apply Forall_forall. intros column [Hne _]%list_elem_of_filter.
    by destruct column.
Qed.

(** ** The store of consumed-value lists *)

Lemma deref_alt (h : list (list Z)) (l : nat) : deref h l = default [] (h !! l).
Proof. exact (list_lookup_total_alt h l). Qed.

Lemma deref_lt (h : list (list Z)) (l : nat) : deref h l ≠ [] → l < length h.
Proof.
  rewrite deref_alt. intros Hne.
  destruct (h !! l) eqn:E; [by eapply lookup_lt_Some|done].
Qed.

Lemma deref_ge (h : list (list Z)) (l : nat) : length h ≤ l → deref h l = [].
Proof. intros Hge. by rewrite deref_alt, lookup_ge_None_2. Qed.

Lemma deref_alloc_nil (h : list (list Z)) (l : nat) :
  deref (h ++ [[]]) l = deref h l.
Proof.
  rewrite !deref_alt.
  destruct (decide (l < length h)) as [Hlt|Hge].
  - by rewrite lookup_app_l.
  - rewrite (lookup_ge_None_2 h) by lia. rewrite lookup_app_r by lia.
    by destruct (l - length h) as [|[|k]].
Qed.

Lemma append_at_alt (h : list (list Z)) (l : nat) (v : Z) :
  append_at h l v = <[l := deref h l ++ [v]]> h.
Proof. reflexivity. Qed.

Lemma deref_append_at (h : list (list Z)) (l l' : nat) (v : Z) :
  deref (append_at h l v) l'
  = if decide (l' = l ∧ l < length h) then deref h l ++ [v] else deref h l'.
Proof.
  rewrite append_at_alt.
  destruct (decide (l < length h)) as [Hlt|Hge].
  - destruct (decide (l' = l)) as [->|Hne].
    + rewrite decide_True by done. rewrite (deref_alt (<[_:=_]> _)).
      by rewrite list_lookup_insert_eq.
    + rewrite decide_False by tauto. rewrite !deref_alt.
      by rewrite list_lookup_insert_ne.
  - rewrite decide_False by tauto. by rewrite list_insert_ge by lia.
Qed.

Lemma heap_grows_refl (h : store) : heap_grows h h.
Proof. intros l. reflexivity. Qed.

Lemma heap_grows_trans (h1 h2 h3 : store) :
  heap_grows h1 h2 → heap_grows h2 h3 → heap_grows h1 h3.
Proof. intros H12 H23 l. etrans; [apply H12|apply H23]. Qed.

Lemma heap_grows_append_at (h : store) (l : loc) (v : Z) :
  heap_grows h (append_at h l v).
Proof.
  intros l'. rewrite deref_append_at. destruct (decide _) as [[-> _]|]; [|reflexivity].
  by apply prefix_app_r.
Qed.

(** The child of a node and what its two appends do to the store. *)
Lemma child_store (h : store) (l : loc) (rt : list Z) (up : list (Z * Z)) (a b : Z) :
  let child := (new_Node h rt up (Some l)).1 in
  let h1 := (new_Node h rt up (Some l)).2 in
  let h2 := append_at (append_at h1 (used_nodes child) a) (used_nodes child) b in
  heap_grows h h2
  ∧ deref h2 (used_nodes child) = deref h l ++ [a; b]
  ∧ (deref h l ≠ [] → used_nodes child = l).
Proof.
  unfold new_Node. destruct (deref h l) as [|u us] eqn:Hus.
  - simpl. split_and!; [|  |done].
    + eapply heap_grows_trans; [|apply heap_grows_append_at].
      eapply heap_grows_trans; [|apply heap_grows_append_at].
      intros l'. by rewrite deref_alloc_nil.
    + rewrite !deref_append_at, !decide_True.
      * by rewrite deref_alloc_nil, deref_ge.
      * split; [done|]. rewrite length_app. simpl. lia.
      * split; [done|]. rewrite append_at_alt, length_insert, length_app. simpl. lia.
  - simpl. assert (l < length h) as Hlt by (apply deref_lt; by rewrite Hus).
    split_and!; [| |done].
    + eapply heap_grows_trans; apply heap_grows_append_at.
    + rewrite !deref_append_at, !decide_True.
      * by rewrite Hus, <- app_assoc.
      * done.
      * split; [done|]. by rewrite append_at_alt, length_insert.
Qed.

(** ** What every recorded route is *)

Lemma route_values_snoc (route : list (Z * Z)) (p : Z * Z) :
  route_values (route ++ [p]) = route_values route ++ [p.1; p.2].
Proof. unfold route_values. by rewrite bind_app. Qed.

Lemma apply_route_snoc (trace : list Z) (route : list (Z * Z)) (p : Z * Z) :
  apply_route trace (route ++ [p])
  = remove_binary_pattern p (apply_route trace route).
Proof. unfold apply_route. by rewrite foldl_app. Qed.

Lemma node_inv_grows (cp : list (Z * Z)) (trace : list Z) (node : Node)
    (h h' : store) :
  heap_grows h h' → node_inv cp trace node h → node_inv cp trace node h'.
Proof.
  intros Hg (Hsub & Hcp & Hnd & Hrt). split_and!; [|done..].
  intros x Hx. eapply elem_of_prefix; [by apply Hsub|apply Hg].
Qed.

Lemma shrinking_pair_distinct (p : Z * Z) (t : list Z) :
  length (remove_binary_pattern p t) ≠ length t → p.1 ≠ p.2.
Proof.
  intros Hne Heq. apply Hne. f_equal. by apply remove_binary_pattern_same.
Qed.

Section routes.
Variable cp : list (Z * Z).
Variable trace : list Z.
Variable e : Node → search → result search.
Hypothesis e_post : ∀ child s s',
e child s = Ok s' → node_inv cp trace child (heap s) → all_routes_ok cp trace s →
explore_post cp trace s s'.

Lemma pairs_loop_inv (node : Node) (value : Z) (ps : list (Z * Z))
  (flag : nat) (s : search) (flag' : nat) (s' : search) :
pairs_loop e node value ps flag s = Ok (flag', s') →
ps ⊆ cp → node_inv cp trace node (heap s) → all_routes_ok cp trace s →
all_routes_ok cp trace s'
∧ heap_grows (heap s) (heap s')
∧ length (routes s) ≤ length (routes s')
∧ (flag' = flag ∨ (flag' = 1 ∧ length (routes s) < length (routes s'))).
Proof.
revert flag s. induction ps as [|p ps IH]; intros flag s Hloop Hps Hnode Hs.
- injection Hloop as <- <-. split_and!; [done|apply heap_grows_refl|done|by left].
- assert (ps ⊆ cp) as Hps' by (intros x Hx; apply Hps; by right).
  simpl in Hloop.
  destruct (bool_decide (p.1 = value)); [|by apply IH].
  destruct (bool_decide (p.1 ∈ _) || bool_decide (p.2 ∈ _)) eqn:Hused;
    [by apply IH|].
  destruct (bool_decide (length _ = _)) eqn:Hlen; [by apply IH|].
  apply bool_decide_eq_false_1 in Hlen.
  apply orb_false_elim in Hused
    as [Hu1%bool_decide_eq_false_1 Hu2%bool_decide_eq_false_1].
  pose proof (new_Node_fields (heap s) (remove_binary_pattern p (remaining_trace node))
                (used_pairs node ++ [p]) (Some (used_nodes node))) as [Hrt Hup].
  pose proof (child_store (heap s) (used_nodes node)
                (remove_binary_pattern p (remaining_trace node))
                (used_pairs node ++ [p]) p.1 p.2) as (Hg & Hderef & _).
  destruct (new_Node _ _ _ _) as [child h1]. cbv beta iota in Hloop.
  simpl in Hrt, Hup, Hg, Hderef.
  set (h2 := append_at (append_at h1 (used_nodes child) p.1) (used_nodes child) p.2)
    in *.
  destruct (e child (MkSearch h2 (routes s))) as [s2| |] eqn:He; simpl in Hloop;
    [|done..].
  destruct Hnode as (Hsub & Hcp & Hnd & Hrem).
  destruct (e_post child (MkSearch h2 (routes s)) s2 He) as (Hs2 & Hg2 & Hlt2).
  { split_and!; simpl.
    - rewrite Hup, route_values_snoc, Hderef. intros x [Hx|Hx]%elem_of_app.
      + apply elem_of_app. left. by apply Hsub.
      + apply elem_of_app. by right.
    - rewrite Hup. intros x [Hx|Hx%list_elem_of_singleton]%elem_of_app;
        [by apply Hcp|]. subst x. apply Hps. by left.
    - rewrite Hup, route_values_snoc. apply NoDup_app. split_and!; [done| |].
      + intros x Hx%Hsub [->|[->|?%elem_of_nil]%elem_of_cons]%elem_of_cons; done.
      + apply NoDup_cons. split; [|apply NoDup_singleton].
        intros ?%list_elem_of_singleton.
        by apply (shrinking_pair_distinct p (remaining_trace node)).
    - by rewrite Hrt, Hup, apply_route_snoc, Hrem. }
  { done. }
  simpl in Hg2, Hlt2.
  destruct (IH 1 s2 Hloop Hps') as (Hs' & Hg' & Hle' & Hflag').
  { eapply node_inv_grows; [|done].
    eapply heap_grows_trans; [exact Hg|exact Hg2]. }
  { done. }
  split_and!; [done| |lia|].
  + eapply heap_grows_trans; [|exact Hg'].
    eapply heap_grows_trans; [exact Hg|exact Hg2].
  + right. split; [|lia]. destruct Hflag' as [->|[-> _]]; done.
Qed.

Lemma values_loop_inv (node : Node) (vs seen : list Z)
  (flag : nat) (s : search) (flag' : nat) (s' : search) :
values_loop cp e node vs seen flag s = Ok (flag', s') →
node_inv cp trace node (heap s) → all_routes_ok cp trace s →
all_routes_ok cp trace s'
∧ heap_grows (heap s) (heap s')
∧ length (routes s) ≤ length (routes s')
∧ (flag' = flag ∨ (flag' = 1 ∧ length (routes s) < length (routes s'))).
Proof.
revert seen flag s. induction vs as [|v vs IH]; intros seen flag s Hloop Hnode Hs.
- injection Hloop as <- <-. split_and!; [done|apply heap_grows_refl|done|by left].
- simpl in Hloop.
  destruct (bool_decide (v ∈ _)); [by eapply IH|].
  destruct (bool_decide (v ∈ seen)); [by eapply IH|].
  destruct (pairs_loop e node v cp flag s) as [[flag1 s1]| |] eqn:Hpairs;
    simpl in Hloop; [|done..].
  destruct (pairs_loop_inv _ _ _ _ _ _ _ Hpairs) as (Hs1 & Hg1 & Hle1 & Hflag1);
    [done..|].
  destruct (bool_decide (flag1 = 1)).
  + injection Hloop as <- <-. done.
  + destruct (IH _ _ _ Hloop) as (Hs' & Hg' & Hle' & Hflag');
      [by eapply node_inv_grows|done|].
    split_and!; [done|by eapply heap_grows_trans|lia|].
    destruct Hflag' as [->|[-> ?]]; [|right; split; [done|lia]].
    destruct Hflag1 as [->|[-> ?]]; [by left|right; split; [done|lia]].
Qed.

Lemma explore_body_inv (node : Node) (s s' : search) :
explore_body cp trace e node s = Ok s' →
node_inv cp trace node (heap s) → all_routes_ok cp trace s →
explore_post cp trace s s'.
Proof.
unfold explore_body. intros Hbody Hnode Hs.
destruct (values_loop cp e node _ [] 0 s) as [[flag1 s1]| |] eqn:Hvalues;
  simpl in Hbody; [|done..].
destruct (values_loop_inv _ _ _ _ _ _ _ Hvalues) as (Hs1 & Hg1 & Hle1 & Hflag1);
  [done..|].
destruct (bool_decide (flag1 = 0)) eqn:Hleaf.
- destruct (calculate_acceptance_ratio _ _) as [r| |] eqn:Hr; simpl in Hbody;
    [|done..].
  injection Hbody as <-. destruct Hnode as (_ & Hcp & Hnd & Hrem).
  split_and!; simpl.
  + apply Forall_app. split; [done|]. apply Forall_singleton.
    split_and!; simpl; [done..|]. by rewrite <- Hrem.
  + done.
  + rewrite length_app. simpl. lia.
- injection Hbody as <-. apply bool_decide_eq_false_1 in Hleaf.
  split_and!; [done..|]. destruct Hflag1 as [->|[_ ?]]; done.
Qed.
End routes.

Lemma explore_node_inv (cp : list (Z * Z)) (trace : list Z) (fuel : nat)
    (node : Node) (s s' : search) :
  explore_node cp trace fuel node s = Ok s' →
  node_inv cp trace node (heap s) → all_routes_ok cp trace s →
  explore_post cp trace s s'.
Proof.
  revert node s s'. induction fuel as [|fuel IH]; intros node s s'; [done|].
  simpl. apply explore_body_inv. intros child s1 s2. apply IH.
Qed.

Lemma explore_root_inv (cp : list (Z * Z)) (trace : list Z) (fuel : nat)
    (s : search) :
  explore_root cp trace fuel = Ok s →
  Forall (route_ok cp trace) (routes s) ∧ routes s ≠ [].
Proof.
  unfold explore_root.
  pose proof (new_Node_fields [] trace [] None) as [Hrt Hup].
  destruct (new_Node [] trace [] None) as [root h]. simpl in Hrt, Hup.
  intros Hex. apply explore_node_inv in Hex as (Hok & _ & Hlt).
  - split; [done|]. simpl in Hlt. destruct (routes s); [simpl in Hlt; lia|done].
  - unfold node_inv. rewrite Hup, Hrt. simpl. split_and!.
    + intros x Hx. by apply elem_of_nil in Hx.
    + intros x Hx. by apply elem_of_nil in Hx.
    + constructor.
    + done.
  - constructor.
Qed.

(** X12.  Every route [find_binary_pattern] records is made of causal pairs
    of the trace that share no value: no index is consumed by two pairs of
    a route, nor twice by one. *)
Theorem routes_use_disjoint_pairs
    (iter_values : gset Z → list Z) (iter_pairs : gset (Z * Z) → list (Z * Z))
    (fuel : nat) (trace : list Z) (sd : gmap Z node_info)
    (rs : list (list (Z * Z) * Qc)) :
  find_binary_pattern iter_values iter_pairs fuel trace sd = Ok rs →
  Forall (λ r, r.1 ⊆ iter_pairs (find_causal_pairs (iter_values (list_to_set trace)) sd)
               ∧ NoDup (route_values r.1)) rs.
Proof.
  unfold find_binary_pattern.
  destruct (explore_root _ trace fuel) as [s| |] eqn:Hs; simpl; [|done..].
  intros [= <-]. apply explore_root_inv in Hs as [Hok _].
  eapply Forall_impl; [exact Hok|]. intros r (? & ? & _). done.
Qed.

Lemma routes_use_disjoint_pairs_witness :
  Forall (λ r, r.1 ⊆ elements (find_causal_pairs
                                 (elements (list_to_set [1; 2; 3; 4; 3; 5]%Z : gset Z))
                                 sd_two_answers)
               ∧ NoDup (route_values r.1))
         [([(1, 2); (3, 5)]%Z, Q2Qc (2 # 3))].
Proof.
  apply (routes_use_disjoint_pairs elements elements 7 [1; 2; 3; 4; 3; 5]%Z
           sd_two_answers).
  vm_compute. reflexivity.
Defined.

(** X13.  The score recorded with a route is the coverage of that route:
    removing its pairs from the trace one after the other, in their order,
    leaves the remainder the score is computed from. *)
Theorem route_score_is_its_coverage
    (iter_values : gset Z → list Z) (iter_pairs : gset (Z * Z) → list (Z * Z))
    (fuel : nat) (trace : list Z) (sd : gmap Z node_info)
    (rs : list (list (Z * Z) * Qc)) :
  find_binary_pattern iter_values iter_pairs fuel trace sd = Ok rs →
  Forall (λ r, calculate_acceptance_ratio (apply_route trace r.1) trace = Ok r.2) rs.
Proof.
  unfold find_binary_pattern.
  destruct (explore_root _ trace fuel) as [s| |] eqn:Hs; simpl; [|done..].
  intros [= <-]. apply explore_root_inv in Hs as [Hok _].
  eapply Forall_impl; [exact Hok|]. intros r (_ & _ & ?). done.
Qed.

Lemma route_score_is_its_coverage_witness :
  Forall (λ r, calculate_acceptance_ratio
                 (apply_route [1; 2; 3; 4; 3; 5]%Z r.1) [1; 2; 3; 4; 3; 5]%Z = Ok r.2)
         [([(1, 2); (3, 5)]%Z, Q2Qc (2 # 3))].
Proof.
  apply (route_score_is_its_coverage elements elements 7 [1; 2; 3; 4; 3; 5]%Z
           sd_two_answers).
  vm_compute. reflexivity.
Defined.

(** ** The extreme scores *)

Lemma ratio_this (a b : nat) :
  0 < b →
  (this (1 - Q2Qc (inject_Z (Z.of_nat a)) / Q2Qc (inject_Z (Z.of_nat b)))%Qc
   == 1 - (Z.of_nat a # Pos.of_nat b))%Q.
Proof.
  intros Hb.
  set (q := (Q2Qc (inject_Z (Z.of_nat a)) / Q2Qc (inject_Z (Z.of_nat b)))%Qc).
  assert (this q == Z.of_nat a # Pos.of_nat b)%Q as Hq.
  { unfold q, Qcdiv, Qcmult, Qcinv, Q2Qc. cbn [this].
    rewrite !Qred_correct. rewrite Qmake_Qdiv.
    replace (Z.pos (Pos.of_nat b)) with (Z.of_nat b) by lia. reflexivity. }
  unfold Qcminus, Qcplus, Qcopp, Q2Qc. cbn [this].
  rewrite !Qred_correct, Hq. reflexivity.
Qed.

Lemma Qc_eq_iff (q : Qc) (r : Q) : Qred r = r → q = Q2Qc r ↔ (this q == r)%Q.
Proof.
  intros Hr. split.
  - intros ->. simpl. apply Qred_correct.
  - intros Heq. apply Qc_is_canon. simpl. by rewrite Qred_correct.
Qed.

Lemma ratio_extremes (remaining trace : list Z) (r : Qc) :
  calculate_acceptance_ratio remaining trace = Ok r →
  (r = 1%Qc ↔ remaining = []) ∧ (r = 0%Qc ↔ length remaining = length trace).
Proof.
  unfold calculate_acceptance_ratio, py_truediv.
  destruct (bool_decide (Z.of_nat (length trace) = 0%Z)) eqn:Hz; [done|].
  apply bool_decide_eq_false_1 in Hz. simpl. intros [= <-].
  assert (0 < length trace) as Hpos by lia.
  pose proof (ratio_this (length remaining) (length trace) Hpos) as Hthis.
  split.
  - change 1%Qc with (Q2Qc 1). rewrite Qc_eq_iff by done. rewrite Hthis.
    unfold Qeq, Qminus, Qplus, Qopp. cbn [Qnum Qden].
    rewrite <- length_zero_iff_nil. lia.
  - change 0%Qc with (Q2Qc 0). rewrite Qc_eq_iff by done. rewrite Hthis.
    unfold Qeq, Qminus, Qplus, Qopp. cbn [Qnum Qden]. lia.
Qed.

Lemma ratio_of_whole_trace (trace : list Z) (r : Qc) :
  calculate_acceptance_ratio trace trace = Ok r → r = 0%Qc.
Proof. intros Hr. by apply (ratio_extremes trace trace r Hr). Qed.

(** X15.  The acceptance ratio is 1 exactly when nothing remains of the
    trace and 0 exactly when nothing was removed. *)
Theorem acceptance_ratio_extremes (remaining trace : list Z) (r : Qc) :
  calculate_acceptance_ratio remaining trace = Ok r →
  (r = 1%Qc ↔ remaining = []) ∧ (r = 0%Qc ↔ length remaining = length trace).
Proof. apply ratio_extremes. Qed.

Lemma acceptance_ratio_extremes_witness :
  (1%Qc = 1%Qc ↔ @nil Z = []) ∧ (1%Qc = 0%Qc ↔ length (@nil Z) = length [0; 25]%Z).
Proof.
  apply (acceptance_ratio_extremes [] [0; 25]%Z 1%Qc).
  vm_compute. reflexivity.
Defined.

(** ** The search always reports *)

Lemma pairs_loop_no_shrink (e : Node → search → result search) (node : Node)
    (value : Z) (ps : list (Z * Z)) (flag : nat) (s : search) :
  (∀ p, p ∈ ps → length (remove_binary_pattern p (remaining_trace node))
                 = length (remaining_trace node)) →
  pairs_loop e node value ps flag s = Ok (flag, s).
Proof.
  induction ps as [|p ps IH]; intros Hno; [done|]. simpl.
  assert (pairs_loop e node value ps flag s = Ok (flag, s)) as IH'
    by (apply IH; intros q Hq; apply Hno; by right).
  destruct (bool_decide (p.1 = value)); [|done].
  destruct (_ || _); [done|].
  rewrite bool_decide_eq_true_2; [done|]. apply Hno. by left.
Qed.

Lemma values_loop_no_shrink (cp : list (Z * Z)) (e : Node → search → result search)
    (node : Node) (vs seen : list Z) (s : search) :
  (∀ p, p ∈ cp → length (remove_binary_pattern p (remaining_trace node))
                 = length (remaining_trace node)) →
  values_loop cp e node vs seen 0 s = Ok (0, s).
Proof.
  intros Hno. revert seen. induction vs as [|v vs IH]; intros seen; [done|]. simpl.
  destruct (bool_decide (v ∈ _)); [done|].
  destruct (bool_decide (v ∈ seen)); [done|].
  rewrite pairs_loop_no_shrink by done. simpl. apply IH.
Qed.

(** X14.  The search never comes back empty-handed: it records at least one
    route; and over a non-empty trace in which no causal pair can be
    removed it records the empty route, with score 0, and nothing else. *)
Theorem search_reports_a_route
    (iter_values : gset Z → list Z) (iter_pairs : gset (Z * Z) → list (Z * Z))
    (fuel : nat) (trace : list Z) (sd : gmap Z node_info) :
  (∀ rs, find_binary_pattern iter_values iter_pairs fuel trace sd = Ok rs → rs ≠ [])
  ∧ (trace ≠ [] → 0 < fuel →
     (∀ p, p ∈ iter_pairs (find_causal_pairs (iter_values (list_to_set trace)) sd) →
           length (remove_binary_pattern p trace) = length trace) →
     find_binary_pattern iter_values iter_pairs fuel trace sd = Ok [([], 0%Qc)]).
Proof.
  unfold find_binary_pattern. split.
  - intros rs. destruct (explore_root _ trace fuel) as [s| |] eqn:Hs; simpl; [|done..].
    intros [= <-]. by apply explore_root_inv in Hs as [_ Hne].
  - intros Hne Hfuel Hno. destruct fuel as [|fuel]; [lia|].
    unfold explore_root.
    pose proof (new_Node_fields [] trace [] None) as [Hrt Hup].
    destruct (new_Node [] trace [] None) as [root h]. simpl in Hrt, Hup.
    simpl. unfold explore_body.
    rewrite values_loop_no_shrink by (by rewrite Hrt). simpl.
    rewrite Hrt, Hup.
    destruct (calculate_acceptance_ratio trace trace) as [r| |] eqn:Hr.
    + simpl. do 3 f_equal.
      by apply (ratio_of_whole_trace trace r Hr).
    + exfalso. destruct (calculate_acceptance_ratio_ok trace trace Hne) as (r & Hr' & _);
        [done|]. congruence.
    + exfalso. destruct (calculate_acceptance_ratio_ok trace trace Hne) as (r & Hr' & _);
        [done|]. congruence.
Qed.

Lemma search_reports_a_route_witness :
  find_binary_pattern elements elements 1 [1; 2; 3]%Z ∅ = Ok [([], 0%Qc)].
Proof.
  apply (search_reports_a_route elements elements 1 [1; 2; 3]%Z ∅); [done|lia|].
  intros p Hp. vm_compute in Hp. by apply elem_of_nil in Hp.
Defined.

(** ** What the ratio scorer returns *)

Lemma filter_sublist_length {A} (P : A → Prop) `{!∀ x, Decision (P x)}
    (l1 l2 : list A) :
  l1 `sublist_of` l2 → length (filter P l1) ≤ length (filter P l2).
Proof.
  induction 1 as [|x l1 l2 _ IH|x l1 l2 _ IH]; [done|..]; rewrite !filter_cons.
  - destruct (decide (P x)); simpl; lia.
  - destruct (decide (P x)); simpl; lia.
Qed.

Lemma count_sum_sublist (l1 l2 pattern : list Z) :
  l1 `sublist_of` l2 → count_sum l1 pattern ≤ count_sum l2 pattern.
Proof.
  intros Hsub. unfold count_sum. induction pattern as [|num pattern IH]; [done|].
  rewrite !fmap_cons. cbn [sum_list sum_list_with].
  pose proof (filter_sublist_length (λ x, x = num) l1 l2 Hsub). simpl in *. lia.
Qed.

Lemma score_in_unit_interval (orphans original : nat) (r : Qc) :
  orphans ≤ original →
  (if bool_decide (original ≠ 0)
   then q ← py_truediv (Z.of_nat orphans) (Z.of_nat original); Ok (1 - q)%Qc
   else Ok 0%Qc) = Ok r →
  (0 ≤ r)%Qc ∧ (r ≤ 1)%Qc.
Proof.
  intros Hle. destruct (bool_decide (original ≠ 0)) eqn:E.
  - apply bool_decide_eq_true_1 in E. unfold py_truediv.
    rewrite bool_decide_eq_false_2 by lia. simpl. intros [= <-].
    apply ratio_bounds; lia.
  - intros [= <-]. done.
Qed.

Section scorer.
Variable patterns : list (list Z).

(** A pass that ran to its end scored the patterns of some of its
  pointers, [scored], in their order. *)
Lemma pass_loop_scored (pointers : list nat) (st st' : pass) :
pass_loop patterns pointers st = Ok st' →
∃ scored,
  scored `sublist_of` pointers
  ∧ patterns_to_remove st' = patterns_to_remove st ∪ list_to_set scored
  ∧ (pattern_acceptance_ratios st').*1
    = (pattern_acceptance_ratios st).*1 ++ twice_each patterns scored
  ∧ (Forall ratio_in_unit (pattern_acceptance_ratios st) →
     Forall ratio_in_unit (pattern_acceptance_ratios st')).
Proof.
revert st. induction pointers as [|pointer pointers IH]; intros st; simpl.
- intros [= <-]. exists []. split_and!; [done| |by rewrite app_nil_r|done].
  by rewrite list_to_set_nil, union_empty_r_L.
- destruct (patterns !! pointer) as [pattern|] eqn:Hpattern; [|done].
  destruct (foldl _ _ pattern) as [b c].
  destruct (b && (c <=? 15)).
  { intros (scored & Hsub & Hrem & Hrat & Hunit)%IH. simpl in *.
    exists scored. split_and!; [by apply sublist_cons|done..]. }
  destruct b.
  { intros [= <-]. simpl. exists [].
    split_and!; [apply sublist_nil_l| |by rewrite app_nil_r|done].
    by rewrite list_to_set_nil, union_empty_r_L. }
  destruct (remove_pattern_from_trace _ _) as [updated| |] eqn:Hupd; simpl; [|done..].
  destruct (if bool_decide _ then _ else _) as [r| |] eqn:Hr; simpl; [|done..].
  intros (scored & Hsub & Hrem & Hrat & Hunit)%IH. simpl in *.
  exists (pointer :: scored). split_and!.
  + by apply sublist_skip.
  + rewrite Hrem, list_to_set_cons. by rewrite (assoc_L (∪)).
  + rewrite Hrat, fmap_app. unfold twice_each. rewrite bind_cons, Hpattern.
    by rewrite <- app_assoc.
  + intros Hall. apply Hunit, Forall_app. split; [done|].
    assert (ratio_in_unit (pattern, r)) as Hru.
    { eapply score_in_unit_interval; [|exact Hr].
      apply count_sum_sublist. by eapply remove_pattern_sublist. }
    apply Forall_cons_2; [done|]. apply Forall_cons_2; [done|]. apply Forall_nil_2.
Qed.

Lemma scored_split (l scored : list nat) :
NoDup l → scored `sublist_of` l →
l ≡ₚ scored ++ filter (λ x, x ∉ (list_to_set scored : gset nat)) l.
Proof.
intros Hnd Hsub. induction Hsub as [|x s l Hsub IH|x s l Hsub IH].
- done.
- apply NoDup_cons in Hnd as [Hx Hnd].
  rewrite filter_cons_False.
  2:{ intros Hnot. apply Hnot. rewrite list_to_set_cons. apply elem_of_union_l.
      by apply elem_of_singleton. }
  rewrite <- app_comm_cons. apply Permutation_skip.
  assert (filter (λ y, y ∉ (list_to_set (x :: s) : gset nat)) l
          = filter (λ y, y ∉ (list_to_set s : gset nat)) l) as ->; [|by apply IH].
  apply filter_ext_in. intros y Hy. rewrite list_to_set_cons, not_elem_of_union.
  split; [tauto|]. intros Hnot. split; [|done].
  rewrite elem_of_singleton. intros ->. done.
- apply NoDup_cons in Hnd as [Hx Hnd].
  rewrite filter_cons_True.
  2:{ rewrite elem_of_list_to_set. intros Hin. apply Hx.
      by eapply elem_of_sublist. }
  rewrite <- Permutation_middle. apply Permutation_skip. by apply IH.
Qed.

Lemma twice_each_app (l1 l2 : list nat) :
twice_each patterns (l1 ++ l2) = twice_each patterns l1 ++ twice_each patterns l2.
Proof. unfold twice_each. by rewrite bind_app. Qed.

Lemma one_pass_scored (trace : list Z) (pointers : list nat)
  (ratios : list (list Z * Qc)) (pointers' : list nat)
  (ratios' : list (list Z * Qc)) :
one_pass trace patterns pointers ratios = Ok (pointers', ratios') →
NoDup pointers →
NoDup pointers'
∧ ratios'.*1 ++ twice_each patterns pointers'
  ≡ₚ ratios.*1 ++ twice_each patterns pointers
∧ (Forall ratio_in_unit ratios → Forall ratio_in_unit ratios').
Proof.
unfold one_pass.
destruct (pass_loop patterns pointers _) as [st'| |] eqn:Hloop; simpl; [|done..].
intros [= <- <-] Hnd.
apply pass_loop_scored in Hloop as (scored & Hsub & Hrem & Hrat & Hunit).
simpl in *. rewrite union_empty_l_L in Hrem. split_and!.
- by apply NoDup_filter.
- rewrite Hrat, Hrem, <- app_assoc. apply Permutation_app_head.
  rewrite <- twice_each_app. unfold twice_each.
  apply bind_Permutation. symmetry. by apply scored_split.
- done.
Qed.

Lemma while_pointers_scored (fuel : nat) (trace : list Z) (pointers : list nat)
  (ratios rs : list (list Z * Qc)) :
while_pointers fuel trace patterns pointers ratios = Ok rs →
NoDup pointers →
rs.*1 ≡ₚ ratios.*1 ++ twice_each patterns pointers
∧ (Forall ratio_in_unit ratios → Forall ratio_in_unit rs).
Proof.
revert pointers ratios. induction fuel as [|fuel IH]; intros pointers ratios.
- destruct pointers; [|done]. intros [= <-] _. by rewrite app_nil_r.
- destruct pointers as [|pointer pointers].
  { intros [= <-] _. by rewrite app_nil_r. }
  cbn [while_pointers].
  destruct (one_pass trace patterns (pointer :: pointers) ratios)
    as [[pointers' ratios']| |] eqn:Hpass; simpl; [|done..].
  intros Hwhile Hnd.
  apply one_pass_scored in Hpass as (Hnd' & Hperm & Hunit); [|done].
  apply IH in Hwhile as [Hperm' Hunit']; [|done].
  split; [by rewrite Hperm', Hperm|auto].
Qed.

Lemma twice_each_all :
twice_each patterns (seq 0 (length patterns))
= patterns ≫= λ pattern, [pattern; pattern].
Proof.
unfold twice_each. induction patterns as [|p ps IH] using rev_ind; [done|].
rewrite length_app, Nat.add_1_r, seq_S, !bind_app. simpl. f_equal.
- rewrite <- IH. apply Forall_bind_ext, Forall_forall.
  intros k Hk%elem_of_seq. by rewrite lookup_app_l by lia.
- by rewrite lookup_app_r, Nat.sub_diag.
Qed.
End scorer.

(** X16.  Every ratio [find_acceptance_ratios] returns lies in [[0, 1]]: a
    removal never makes the values of a pattern more frequent, and a
    pattern none of whose values is present scores 0. *)
Theorem find_acceptance_ratios_in_unit (fuel : nat) (trace : list Z)
    (patterns : list (list Z)) (rs : list (list Z * Qc)) :
  find_acceptance_ratios fuel trace patterns = Ok rs →
  Forall ratio_in_unit rs.
Proof.
  unfold find_acceptance_ratios. intros Hrs.
  apply while_pointers_scored in Hrs as [_ Hunit]; [|apply NoDup_seq].
  by apply Hunit.
Qed.

Lemma find_acceptance_ratios_in_unit_witness :
  Forall ratio_in_unit
    [([0; 25]%Z, 1%Qc); ([0; 25]%Z, 1%Qc); ([1; 2]%Z, 1%Qc); ([1; 2]%Z, 1%Qc);
     ([25; 1]%Z, Q2Qc (2 # 3)); ([25; 1]%Z, Q2Qc (2 # 3))].
Proof.
  apply (find_acceptance_ratios_in_unit 3 [0; 25; 0; 25; 1; 2]%Z
           [[0; 25]; [25; 1]; [1; 2]]%Z).
  vm_compute. reflexivity.
Defined.

(** X17.  [find_acceptance_ratios] scores every pattern once and records it
    twice: the patterns of the returned list are the given patterns, each
    one two times, in some order. *)
Theorem find_acceptance_ratios_records_twice (fuel : nat) (trace : list Z)
    (patterns : list (list Z)) (rs : list (list Z * Qc)) :
  find_acceptance_ratios fuel trace patterns = Ok rs →
  rs.*1 ≡ₚ patterns ≫= λ pattern, [pattern; pattern].
Proof.
  unfold find_acceptance_ratios. intros Hrs.
  apply while_pointers_scored in Hrs as [Hperm _]; [|apply NoDup_seq].
  by rewrite Hperm, twice_each_all.
Qed.

Lemma find_acceptance_ratios_records_twice_witness :
  [([0; 25]%Z, 1%Qc); ([0; 25]%Z, 1%Qc); ([1; 2]%Z, 1%Qc); ([1; 2]%Z, 1%Qc);
   ([25; 1]%Z, Q2Qc (2 # 3)); ([25; 1]%Z, Q2Qc (2 # 3))].*1
  ≡ₚ [[0; 25]; [25; 1]; [1; 2]]%Z ≫= λ pattern, [pattern; pattern].
Proof.
  apply (find_acceptance_ratios_records_twice 3 [0; 25; 0; 25; 1; 2]%Z
           [[0; 25]; [25; 1]; [1; 2]]%Z).
  vm_compute. reflexivity.
Defined.

(** ** What group extraction collects *)

Lemma indices_of_cons (line : string) (lines : list string) (key : string * string) :
  indices_of (line :: lines) key
  = match line_entry line with
    | Some e => if decide (e.1 = key) then [e.2] else []
    | None => []
    end ++ indices_of lines key.
Proof.
  unfold indices_of. simpl. destruct (line_entry line) as [e|]; [|done].
  rewrite filter_cons. by destruct (decide (e.1 = key)).
Qed.

Lemma group_line_entries (gi gi' : gmap (string * string) (list Z)) (line : string) :
  group_line gi line = Ok gi' →
  (∀ key l, gi !! key = Some l → l ≠ []) →
  (∀ key l, gi' !! key = Some l → l ≠ [])
  ∧ ∀ key, entries_of gi' key
           = entries_of gi key ++ match line_entry line with
                                  | Some e => if decide (e.1 = key) then [e.2] else []
                                  | None => []
                                  end.
Proof.
  unfold group_line, line_entry, line_fields. intros Hline Hne.
  destruct (startswith _ _).
  { injection Hline as <-. split; [done|]. intros key. by rewrite app_nil_r. }
  destruct (bool_decide (strip line ≠ ""%string)) eqn:Hb.
  2:{ injection Hline as <-. apply bool_decide_eq_false_1 in Hb.
      apply dec_stable in Hb. rewrite Hb. split; [done|]. intros key.
      by rewrite app_nil_r. }
  destruct (strip <$> split ":" (strip line)) as [|index [|src [|dest [|type_ [|? ?]]]]];
    try (injection Hline as <-; split; [done|]; intros key; by rewrite app_nil_r).
  destruct (py_int index) as [i| |]; simpl in Hline; [|done..].
  injection Hline as <-. cbn [fst snd].
  set (k := sorted_pair src dest). split.
  - intros key l. destruct (decide (key = k)) as [->|Hk].
    + rewrite lookup_alter_eq. destruct (gi !! k) as [l0|] eqn:Hl0.
      * rewrite Hl0. simpl. intros [= <-]. by destruct l0.
      * rewrite lookup_insert_eq. simpl. by intros [= <-].
    + rewrite lookup_alter_ne by done. destruct (gi !! k) eqn:Hl0; [apply Hne|].
      rewrite lookup_insert_ne by done. apply Hne.
  - intros key. unfold entries_of. destruct (decide (k = key)) as [<-|Hk].
    + rewrite lookup_alter_eq. destruct (gi !! k) as [l0|] eqn:Hl0.
      * by rewrite Hl0.
      * by rewrite lookup_insert_eq.
    + rewrite lookup_alter_ne by done. rewrite app_nil_r.
      destruct (gi !! k) eqn:Hl0; [done|]. by rewrite lookup_insert_ne.
Qed.

Lemma group_lines_entries (gi gi' : gmap (string * string) (list Z))
    (lines : list string) :
  group_lines gi lines = Ok gi' →
  (∀ key l, gi !! key = Some l → l ≠ []) →
  (∀ key l, gi' !! key = Some l → l ≠ [])
  ∧ ∀ key, entries_of gi' key = entries_of gi key ++ indices_of lines key.
Proof.
  revert gi. induction lines as [|line lines IH]; intros gi; simpl.
  - intros [= <-] Hne. split; [done|]. intros key. unfold indices_of. simpl.
    by rewrite app_nil_r.
  - destruct (group_line gi line) as [gi1| |] eqn:Hline; simpl; [|done..].
    intros Hlines Hne.
    apply group_line_entries in Hline as [Hne1 Hent1]; [|done].
    apply IH in Hlines as [Hne' Hent']; [|done].
    split; [done|]. intros key.
    by rewrite Hent', Hent1, indices_of_cons, app_assoc.
Qed.

Lemma elem_of_groups (lines : list string) (groups : list group) :
  extract_groups_from_lines lines = Ok groups →
  NoDup groups
  ∧ ∀ key indices,
      (key, indices) ∈ groups
      ↔ indices_of lines key ≠ [] ∧ indices = merge_sort Z.le (indices_of lines key).
Proof.
  unfold extract_groups_from_lines.
  destruct (group_lines ∅ lines) as [gi| |] eqn:Hgi; simpl; [|done..].
  intros [= <-].
  apply group_lines_entries in Hgi as [Hne Hent].
  2:{ intros key l. by rewrite lookup_empty. }
  split.
  { rewrite merge_sort_Permutation. apply NoDup_elements. }
  intros key indices. rewrite merge_sort_Permutation, elem_of_elements.
  rewrite elem_of_list_to_set, list_elem_of_fmap.
  assert (∀ key, entries_of gi key = indices_of lines key) as Hent0.
  { intros k. rewrite Hent. unfold entries_of. by rewrite lookup_empty. }
  split.
  - intros ([k l] & Heq & Hin%elem_of_map_to_list). simpl in Heq.
    destruct k as [s d]. simpl in Heq. injection Heq as -> ->.
    rewrite <- Hent0. unfold entries_of. rewrite Hin. simpl.
    split; [by eapply Hne|done].
  - intros [Hne0 ->]. rewrite <- Hent0 in *. unfold entries_of in *.
    destruct (gi !! key) as [l|] eqn:Hl; [|done]. simpl.
    exists (key, l). split; [by destruct key|by apply elem_of_map_to_list].
Qed.

(** X18.  [extract_groups_from_msg_file] returns one group for each
    unordered pair of endpoints that some definition line names, and no
    other: the groups have different endpoint pairs, and the indices of a
    group are the indices of the lines with these endpoints, in
    increasing order. *)
Theorem extract_groups_collects_indices (lines : list string) (groups : list group) :
  extract_groups_from_lines lines = Ok groups →
  NoDup groups.*1
  ∧ (∀ key indices, (key, indices) ∈ groups →
       indices ≠ [] ∧ Sorted Z.le indices ∧ indices ≡ₚ indices_of lines key)
  ∧ (∀ key, indices_of lines key ≠ [] → ∃ indices, (key, indices) ∈ groups).
Proof.
  intros [Hnd Hin]%elem_of_groups. split_and!.
  - apply NoDup_fmap_2_strong; [|done].
    intros [k1 l1] [k2 l2] [_ ->]%Hin [_ ->]%Hin. simpl. by intros ->.
  - intros key indices [Hne ->]%Hin. split_and!.
    + intros Heq. apply Hne. apply Permutation_nil_r.
      by rewrite <- Heq, merge_sort_Permutation.
    + apply (Sorted_merge_sort Z.le).
    + apply merge_sort_Permutation.
  - intros key Hne. eexists. by apply Hin.
Qed.

Lemma extract_groups_collects_indices_witness :
  NoDup [("cache0", "cpu0", [0; 25]%Z); ("cache1", "cpu1", [1]%Z)].*1
  ∧ Sorted Z.le [0; 25]%Z.
Proof.
  destruct (extract_groups_collects_indices
              ["25:cache0:cpu0:resp"; "# requests"; "1:cpu1:cache1:req";
               "0:cpu0:cache0:req"]%string
              [("cache0", "cpu0", [0; 25]%Z); ("cache1", "cpu1", [1]%Z)]%string)
    as (Hnd & Hin & _).
  - vm_compute. reflexivity.
  - split; [exact Hnd|].
    apply (Hin ("cache0", "cpu0")%string [0; 25]%Z). by left.
Defined.

(** ** What the report selects *)

Lemma elem_of_insert_reverse {A} (key : A → Qc) (x z : A) (l : list A) :
  z ∈ insert_reverse key x l ↔ z = x ∨ z ∈ l.
Proof.
  induction l as [|y l IH]; simpl.
  - rewrite list_elem_of_singleton, elem_of_nil. tauto.
  - destruct (decide (key y ≤ key x)%Qc).
    + by rewrite elem_of_cons.
    + rewrite !elem_of_cons, IH. tauto.
Qed.

Lemma elem_of_sorted_reverse {A} (key : A → Qc) (z : A) (l : list A) :
  z ∈ sorted_reverse key l ↔ z ∈ l.
Proof.
  unfold sorted_reverse. induction l as [|x l IH]; simpl; [done|].
  by rewrite elem_of_insert_reverse, IH, elem_of_cons.
Qed.

Lemma insert_reverse_sorted {A} (key : A → Qc) (x : A) (l : list A) :
  StronglySorted (λ a b, (key b ≤ key a)%Qc) l →
  StronglySorted (λ a b, (key b ≤ key a)%Qc) (insert_reverse key x l).
Proof.
  induction 1 as [|y l Hl IH Hy]; simpl.
  - repeat constructor.
  - destruct (decide (key y ≤ key x)%Qc) as [Hle|Hnle].
    + constructor; [by constructor|]. constructor; [done|].
      eapply Forall_impl; [exact Hy|]. intros z Hz. simpl in *. by etrans.
    + constructor; [done|]. apply Forall_forall.
      intros z [->|Hz]%elem_of_insert_reverse.
      * apply Qclt_le_weak. by apply Qcnot_le_lt.
      * by eapply Forall_forall in Hy.
Qed.

Lemma sorted_reverse_sorted {A} (key : A → Qc) (l : list A) :
  StronglySorted (λ a b, (key b ≤ key a)%Qc) (sorted_reverse key l).
Proof.
  unfold sorted_reverse. induction l as [|x l IH]; simpl; [constructor|].
  by apply insert_reverse_sorted.
Qed.

Lemma size_add_le (x : list (Z * Z) * Qc) (X : gset (list (Z * Z) * Qc)) :
  size ({[ x ]} ∪ X) ≤ S (size X).
Proof.
  destruct (decide (x ∈ X)) as [Hin|Hnot].
  - assert ({[ x ]} ∪ X = X) as ->; [|lia].
    apply subseteq_union_1_L. by apply singleton_subseteq_l.
  - rewrite size_union, size_singleton; [done|].
    by apply disjoint_singleton_l.
Qed.

Lemma selection_step (items : list (nat * (list (Z * Z) * Qc)))
    (item : nat * (list (Z * Z) * Qc)) (tp : top_pairs) :
  StronglySorted ratio_desc (items ++ [item]) →
  selection_inv items tp →
  selection_inv (items ++ [item]) (top_pairs_step tp item).
Proof.
  intros Hsorted (Hwith & Hsize & Hwithout & Htop).
  assert (∀ x, x ∈ items.*2 → (item.2.2 ≤ x.2)%Qc) as Hlast.
  { intros x ([i x'] & -> & Hin)%list_elem_of_fmap.
    apply (StronglySorted_app_1_elem_of _ _ _ _ _ Hsorted Hin). by left. }
  destruct item as [route_index [route r]]. simpl in Hlast.
  assert (∀ x, x ∈ (items ++ [(route_index, (route, r))]).*2
               ↔ x ∈ items.*2 ∨ x = (route, r)) as Hin.
  { intros x. rewrite fmap_app, elem_of_app. simpl.
    by rewrite list_elem_of_singleton. }
  unfold selection_inv, top_pairs_step.
  destruct (decide (r = 1%Qc)) as [Hr|Hr]; cbn [top_pairs_with_ratio_1 top_pairs_without_ratio_1].
  { split_and!.
    - intros x. rewrite elem_of_union, elem_of_singleton, Hwith, Hin.
      split; [intros [->|[? ?]]; auto|intros [[?| ->] ?]; auto].
    - done.
    - intros x [? ?]%Hwithout. rewrite Hin. auto.
    - intros y [Hy| ->]%Hin Hpartial Hnot; [by apply Htop|].
      by destruct Hpartial as [_ []]. }
  destruct (bool_decide (0 < r)%Qc) eqn:Hpos;
    [apply bool_decide_eq_true_1 in Hpos|apply bool_decide_eq_false_1 in Hpos].
  2:{ simpl. split_and!.
      - intros x. rewrite Hwith, Hin.
        split; [intros [? ?]; auto|intros [[?| ->] ?]; [auto|done]].
      - done.
      - intros x [? ?]%Hwithout. rewrite Hin. auto.
      - intros y [Hy| ->]%Hin Hpartial Hnot; [by apply Htop|].
        by destruct Hpartial as [? _]. }
  destruct (Nat.ltb_spec (size (top_pairs_without_ratio_1 tp)) 5) as [Hlt|Hge];
    cbn [andb top_pairs_with_ratio_1 top_pairs_without_ratio_1].
  - split_and!.
    + intros x. rewrite Hwith, Hin.
      split; [intros [? ?]; auto|intros [[?| ->] ?]; [auto|done]].
    + pose proof (size_add_le (route, r) (top_pairs_without_ratio_1 tp)). lia.
    + intros x [->%elem_of_singleton|[? ?]%Hwithout]%elem_of_union; rewrite Hin.
      * split; [by right|]. by split.
      * auto.
    + intros y [Hy| ->]%Hin Hpartial Hnot.
      * apply not_elem_of_union in Hnot as [_ Hnot].
        destruct (Htop y Hy Hpartial Hnot) as [Hfive _]. lia.
      * exfalso. apply Hnot, elem_of_union_l. by apply elem_of_singleton.
  - split_and!.
    + intros x. rewrite Hwith, Hin.
      split; [intros [? ?]; auto|intros [[?| ->] ?]; [auto|done]].
    + done.
    + intros x [? ?]%Hwithout. rewrite Hin. auto.
    + intros y [Hy| ->]%Hin Hpartial Hnot; [by apply Htop|].
      split; [lia|]. intros x [Hx _]%Hwithout. simpl. by apply Hlast.
Qed.

Lemma selection_fold (items : list (nat * (list (Z * Z) * Qc))) :
  StronglySorted ratio_desc items →
  selection_inv items (foldl top_pairs_step (TopPairs ∅ ∅) items).
Proof.
  induction items as [|item items IH] using rev_ind; intros Hsorted.
  - unfold selection_inv.
    cbn [foldl top_pairs_with_ratio_1 top_pairs_without_ratio_1]. split_and!.
    + intros x. rewrite elem_of_empty, fmap_nil, elem_of_nil. tauto.
    + rewrite size_empty. lia.
    + intros x. by rewrite elem_of_empty.
    + intros y. by rewrite fmap_nil, elem_of_nil.
  - rewrite foldl_app. simpl. apply selection_step; [done|].
    apply IH. by apply StronglySorted_app_1_l in Hsorted.
Qed.

Lemma select_top_pairs_inv (causal_pairs_info : list (list (Z * Z) * Qc)) :
  ∃ items,
    (∀ x, x ∈ items.*2 ↔ x ∈ causal_pairs_info)
    ∧ selection_inv items (select_top_pairs causal_pairs_info).
Proof.
  unfold select_top_pairs. eexists. split; [|apply selection_fold, sorted_reverse_sorted].
  intros x. rewrite list_elem_of_fmap. split.
  - intros ([i x'] & -> & Hin%elem_of_sorted_reverse).
    apply elem_of_lookup_imap in Hin as (j & y & [= -> ->] & Hy).
    by eapply list_elem_of_lookup_2.
  - intros [i Hi]%list_elem_of_lookup_1. exists (i, x). split; [done|].
    apply elem_of_sorted_reverse, elem_of_lookup_imap. by exists i, x.
Qed.

(** X19.  The selection of [compute_common_causal_pairs]: every route of
    ratio 1 is kept; of the other routes of positive ratio at most five are
    kept, and a route of this kind that is left out has a ratio no larger
    than any of the five that are kept. *)
Theorem select_top_pairs_keeps_the_best (causal_pairs_info : list (list (Z * Z) * Qc)) :
  let tp := select_top_pairs causal_pairs_info in
  (∀ x, x ∈ top_pairs_with_ratio_1 tp ↔ x ∈ causal_pairs_info ∧ x.2 = 1%Qc)
  ∧ size (top_pairs_without_ratio_1 tp) ≤ 5
  ∧ (∀ x, x ∈ top_pairs_without_ratio_1 tp →
       x ∈ causal_pairs_info ∧ (0 < x.2)%Qc ∧ x.2 ≠ 1%Qc)
  ∧ (∀ y, y ∈ causal_pairs_info → (0 < y.2)%Qc → y.2 ≠ 1%Qc →
       y ∉ top_pairs_without_ratio_1 tp →
       size (top_pairs_without_ratio_1 tp) = 5
       ∧ ∀ x, x ∈ top_pairs_without_ratio_1 tp → (y.2 ≤ x.2)%Qc).
Proof.
  intros tp. unfold tp.
  destruct (select_top_pairs_inv causal_pairs_info)
    as (items & Hitems & Hwith & Hsize & Hwithout & Htop).
  split_and!.
  - intros x. by rewrite Hwith, Hitems.
  - done.
  - intros x [Hin Hp]%Hwithout. by rewrite <- Hitems.
  - intros y Hy Hpos Hne Hnot. apply Htop; [by apply Hitems|by split|done].
Qed.

Lemma apply_route_sublist (trace : list Z) (route : list (Z * Z)) :
  apply_route trace route `sublist_of` trace.
Proof.
  induction route as [|p route IH] using rev_ind; [done|].
  rewrite apply_route_snoc. etrans; [apply remove_binary_pattern_sublist|done].
Qed.

(** X20.  What [compute_common_causal_pairs] reports for a trace: a route
    listed with ratio 1 removes the whole trace when its pairs are applied
    in order, and a route listed with another ratio removes some of the
    trace and not all of it, its ratio lying strictly between 0 and 1. *)
Theorem report_of_trace
    (iter_values : gset Z → list Z) (iter_pairs : gset (Z * Z) → list (Z * Z))
    (fuel : nat) (trace : list Z) (sd : gmap Z node_info) (tp : top_pairs) :
  compute_common_causal_pairs iter_values iter_pairs fuel trace sd = Ok tp →
  (∀ route r, (route, r) ∈ top_pairs_with_ratio_1 tp →
     r = 1%Qc ∧ apply_route trace route = [])
  ∧ (∀ route r, (route, r) ∈ top_pairs_without_ratio_1 tp →
       (0 < r)%Qc ∧ (r < 1)%Qc
       ∧ apply_route trace route ≠ []
       ∧ length (apply_route trace route) ≠ length trace).
Proof.
  unfold compute_common_causal_pairs, find_binary_pattern.
  destruct (explore_root _ trace fuel) as [s| |] eqn:Hs; simpl; [|done..].
  intros [= <-]. apply explore_root_inv in Hs as [Hok _].
  destruct (select_top_pairs_inv (routes s))
    as (items & Hitems & Hwith & _ & Hwithout & _).
  assert (∀ route r, (route, r) ∈ routes s →
            calculate_acceptance_ratio (apply_route trace route) trace = Ok r)
    as Hscore.
  { intros route r Hin. eapply Forall_forall in Hok; [|exact Hin].
    by destruct Hok as (_ & _ & ?). }
  split.
  - intros route r [Hin Hr]%Hwith. simpl in Hr. split; [done|].
    apply Hitems, Hscore in Hin. apply ratio_extremes in Hin as [Hone _]. by apply Hone.
  - intros route r [Hin [Hpos Hne]]%Hwithout. simpl in Hpos, Hne.
    apply Hitems, Hscore in Hin.
    pose proof (ratio_extremes _ _ _ Hin) as [Hone Hzero].
    split_and!; [done| |tauto|].
    + assert (r ≤ 1)%Qc as Hle; [|by apply Qcle_lt_or_eq in Hle as [?|?]].
      assert (trace ≠ []) as Htrace by (by intros ->).
      destruct (calculate_acceptance_ratio_ok (apply_route trace route) trace Htrace)
        as (r' & Hr' & _ & Hle); [apply sublist_length, apply_route_sublist|].
      congruence.
    + intros Hlen. apply Qclt_not_eq in Hpos. apply Hpos. symmetry. by apply Hzero.
Qed.

Lemma report_of_trace_witness :
  1%Qc = 1%Qc ∧ apply_route [0; 25; 0; 25]%Z [(0, 25)%Z] = [].
Proof.
  assert (compute_common_causal_pairs elements elements 7 [0; 25; 0; 25]%Z
            sd_request_response
          = Ok (select_top_pairs [([(0, 25)]%Z, 1%Qc)])) as Hreport
    by (vm_compute; reflexivity).
  apply (proj1 (report_of_trace _ _ _ _ _ _ Hreport) [(0, 25)%Z] 1%Qc).
  vm_compute. reflexivity.
Defined.

